(** * serve-index: a shallow embedding of [index.js] and its specification

    The development follows the source file top to bottom: the JavaScript
    values the middleware manipulates (strings as sequences of UTF-16 code
    units, errors, stat records), the host functions it calls
    ([decodeURIComponent], [JSON.stringify], [Array.prototype.sort], the
    [path] module, the [batch] package), then [ServeIndex], [serve] and the
    three representation handlers.  The theorems come last. *)

From Stdlib Require Import ZArith NArith List Ascii String Lia Permutation.
From stdpp Require Import base option list gmap sorting.

Local Open Scope Z_scope.

(** ** JavaScript strings *)

(** A JavaScript string is a sequence of UTF-16 code units. *)
Abbreviation jsstring := (list N).

(** Literals: the code units of an ASCII (Latin-1) literal. *)
Definition js (s : string) : jsstring :=
  (fun a => N_of_ascii a) <$> list_ascii_of_string s.

Definition str_eqb (a b : jsstring) : bool := bool_decide (a = b).

(** [s.startsWith(p)] on code units. *)
Fixpoint starts_with (p s : jsstring) : bool :=
  match p, s with
  | [], _ => true
  | _ :: _, [] => false
  | a :: p', b :: s' => N.eqb a b && starts_with p' s'
  end.

(** [s.indexOf(needle)]: the first index where [needle] occurs, or [-1]. *)
Fixpoint indexOf_from (i : Z) (s needle : jsstring) : Z :=
  if starts_with needle s then i
  else match s with
       | [] => -1
       | _ :: s' => indexOf_from (i + 1) s' needle
       end.

Definition indexOf (s needle : jsstring) : Z := indexOf_from 0 s needle.

(** [s.substr(0, n)]. *)
Definition substr0 (s : jsstring) (n : nat) : jsstring := take n s.

(** [s.split(c)] for a one-code-unit separator: never the empty array. *)
Fixpoint split_on (c : N) (s : jsstring) : list jsstring :=
  match s with
  | [] => [[]]
  | x :: s' =>
      if N.eqb x c then [] :: split_on c s'
      else match split_on c s' with
           | [] => [[x]]
           | seg :: segs => (x :: seg) :: segs
           end
  end.

(** [parts.join(sepr)]. *)
Fixpoint join_with (sepr : jsstring) (parts : list jsstring) : jsstring :=
  match parts with
  | [] => []
  | [p] => p
  | p :: ps => p ++ sepr ++ join_with sepr ps
  end.

(** The default comparison of [Array.prototype.sort] on strings: code unit
    by code unit, a proper prefix first. *)
Fixpoint code_unit_compare (a b : jsstring) : Z :=
  match a, b with
  | [], [] => 0
  | [], _ :: _ => -1
  | _ :: _, [] => 1
  | x :: a', y :: b' =>
      match N.compare x y with
      | Lt => -1
      | Gt => 1
      | Eq => code_unit_compare a' b'
      end
  end.

(** ** [Array.prototype.sort]

    The sort is stable, and with a consistent comparison function its result
    is the one sorted stable rearrangement, whatever algorithm the engine
    runs; it is embedded as an insertion sort.  An element goes in front of
    the first element it does not follow, so that equal elements keep the
    order in which they came. *)
Section ArraySort.
Context {A : Type} (comparefn : A -> A -> Z).

Fixpoint sort_insert (x : A) (l : list A) : list A :=
  match l with
  | [] => [x]
  | y :: l' => if Z.leb (comparefn x y) 0 then x :: y :: l'
               else y :: sort_insert x l'
  end.

Fixpoint Array_sort (l : list A) : list A :=
  match l with
  | [] => []
  | x :: l' => sort_insert x (Array_sort l')
  end.
End ArraySort.

(** ** Numbers to strings *)

Definition digit_char (d : N) : N := (48 + d)%N.

Fixpoint nat_digits (fuel : nat) (n : N) (acc : jsstring) : jsstring :=
  match fuel with
  | O => acc
  | S fuel' =>
      let acc' := digit_char (n mod 10)%N :: acc in
      if N.ltb n 10 then acc' else nat_digits fuel' (n / 10)%N acc'
  end.

(** [String(n)] for an integer. *)
Definition number_to_string (n : Z) : jsstring :=
  let digits := nat_digits (S (N.to_nat (N.log2 (Z.to_N (Z.abs n))))) (Z.to_N (Z.abs n)) [] in
  if Z.ltb n 0 then 45%N :: digits else digits.

Definition hex_digit_upper (d : N) : N :=
  if N.ltb d 10 then (48 + d)%N else (55 + d)%N.

Definition hex_digit_lower (d : N) : N :=
  if N.ltb d 10 then (48 + d)%N else (87 + d)%N.

(** ** UTF-16, UTF-8 and the URI functions of the language *)

Definition is_high_surrogate (c : N) : bool := N.leb 0xD800 c && N.leb c 0xDBFF.
Definition is_low_surrogate (c : N) : bool := N.leb 0xDC00 c && N.leb c 0xDFFF.

(** UTF16EncodeCodePoint. *)
Definition utf16_encode (cp : N) : jsstring :=
  if N.ltb cp 0x10000 then [cp]
  else let v := (cp - 0x10000)%N in
       [(0xD800 + N.shiftr v 10)%N; (0xDC00 + N.land v 0x3FF)%N].

(** The UTF-8 octets of a code point. *)
Definition utf8_encode (cp : N) : list N :=
  if N.ltb cp 0x80 then [cp]
  else if N.ltb cp 0x800 then
    [N.lor 0xC0 (N.shiftr cp 6); N.lor 0x80 (N.land cp 0x3F)]
  else if N.ltb cp 0x10000 then
    [N.lor 0xE0 (N.shiftr cp 12); N.lor 0x80 (N.land (N.shiftr cp 6) 0x3F);
     N.lor 0x80 (N.land cp 0x3F)]
  else
    [N.lor 0xF0 (N.shiftr cp 18); N.lor 0x80 (N.land (N.shiftr cp 12) 0x3F);
     N.lor 0x80 (N.land (N.shiftr cp 6) 0x3F); N.lor 0x80 (N.land cp 0x3F)].

(** [Buffer.byteLength(s, 'utf8')]: a surrogate pair takes four octets, a
    lone surrogate the three of U+FFFD. *)
Fixpoint utf8_byteLength (s : jsstring) : Z :=
  match s with
  | [] => 0
  | c :: s' =>
      if N.ltb c 0x80 then 1 + utf8_byteLength s'
      else if N.ltb c 0x800 then 2 + utf8_byteLength s'
      else if is_high_surrogate c then
        match s' with
        | d :: s'' => if is_low_surrogate d then 4 + utf8_byteLength s''
                      else 3 + utf8_byteLength s'
        | [] => 3
        end
      else 3 + utf8_byteLength s'
  end.

Definition hex_value (c : N) : option N :=
  if N.leb 48 c && N.leb c 57 then Some (c - 48)%N
  else if N.leb 65 c && N.leb c 70 then Some (c - 55)%N
  else if N.leb 97 c && N.leb c 102 then Some (c - 87)%N
  else None.

Definition is_hex (c : N) : bool :=
  match hex_value c with Some _ => true | None => false end.

Definition PERCENT : N := 37.

(** ParseHexOctet on the two code units after a percent sign. *)
Definition parse_hex_octet (h1 h2 : N) : option N :=
  match hex_value h1, hex_value h2 with
  | Some a, Some b => Some (16 * a + b)%N
  | _, _ => None
  end.

(** The number of leading one bits of an octet. *)
Definition leading_ones (b : N) : nat :=
  if N.ltb b 0x80 then 0%nat
  else if N.ltb b 0xC0 then 1%nat
  else if N.ltb b 0xE0 then 2%nat
  else if N.ltb b 0xF0 then 3%nat
  else if N.ltb b 0xF8 then 4%nat
  else 5%nat.

(** The [n] continuation octets [%XX] of a multi-octet escape, and the rest
    of the string; [None] where Decode throws. *)
Fixpoint continuation_octets (n : nat) (s : jsstring) : option (list N * jsstring) :=
  match n with
  | O => Some ([], s)
  | S n' =>
      match s with
      | p :: h1 :: h2 :: rest =>
          if N.eqb p PERCENT then
            match parse_hex_octet h1 h2 with
            | Some b =>
                match continuation_octets n' rest with
                | Some (bs, rest') => Some (b :: bs, rest')
                | None => None
                end
            | None => None
            end
          else None
      | _ => None
      end
  end.

(** The code point of a well-formed UTF-8 sequence: continuation octets are
    [10xxxxxx], no overlong form, no surrogate, nothing above U+10FFFF. *)
Definition utf8_decode (b : N) (conts : list N) : option N :=
  if forallb (fun c => N.eqb (N.land c 0xC0) 0x80) conts then
    let payload := fold_left (fun acc c => (N.shiftl acc 6 + N.land c 0x3F)%N) conts in
    match conts with
    | [_] => let cp := payload (N.land b 0x1F) in
             if N.leb 0x80 cp then Some cp else None
    | [_; _] => let cp := payload (N.land b 0x0F) in
                if N.leb 0x800 cp && negb (N.leb 0xD800 cp && N.leb cp 0xDFFF)
                then Some cp else None
    | [_; _; _] => let cp := payload (N.land b 0x07) in
                   if N.leb 0x10000 cp && N.leb cp 0x10FFFF then Some cp else None
    | _ => None
    end
  else None.

(** Decode with an empty set of preserved escapes; [None] is the URIError.
    Every round consumes at least one code unit, so the length of the string
    is fuel enough. *)
Fixpoint decode_fuel (fuel : nat) (s : jsstring) : option jsstring :=
  match fuel with
  | O => match s with [] => Some [] | _ => None end
  | S fuel' =>
      match s with
      | [] => Some []
      | c :: rest =>
          if negb (N.eqb c PERCENT) then (c ::.) <$> decode_fuel fuel' rest
          else match rest with
               | h1 :: h2 :: rest' =>
                   match parse_hex_octet h1 h2 with
                   | None => None
                   | Some b =>
                       match leading_ones b with
                       | O => (b ::.) <$> decode_fuel fuel' rest'
                       | S n' =>
                           if bool_decide (n' = 0%nat) || bool_decide (3 < n')%nat
                           then None
                           else
                             match continuation_octets n' rest' with
                             | None => None
                             | Some (conts, rest'') =>
                                 match utf8_decode b conts with
                                 | None => None
                                 | Some cp =>
                                     (utf16_encode cp ++.) <$> decode_fuel fuel' rest''
                                 end
                             end
                       end
                   end
               | _ => None
               end
      end
  end.

Definition decodeURIComponent (s : jsstring) : option jsstring :=
  decode_fuel (length s) s.

(** The code units [encodeURIComponent] leaves alone:
    letters, digits and [-_.!~*'()]. *)
Definition uri_unreserved (c : N) : bool :=
  (N.leb 65 c && N.leb c 90) || (N.leb 97 c && N.leb c 122)
  || (N.leb 48 c && N.leb c 57)
  || existsb (N.eqb c) [45; 95; 46; 33; 126; 42; 39; 40; 41]%N.

Definition percent_octet (b : N) : jsstring :=
  [PERCENT; hex_digit_upper (b / 16)%N; hex_digit_upper (b mod 16)%N].

(** Encode; [None] is the URIError raised on a lone surrogate. *)
Fixpoint encodeURIComponent (s : jsstring) : option jsstring :=
  match s with
  | [] => Some []
  | c :: rest =>
      if uri_unreserved c then (c ::.) <$> encodeURIComponent rest
      else if is_low_surrogate c then None
      else if is_high_surrogate c then
        match rest with
        | d :: rest' =>
            if is_low_surrogate d then
              let cp := (((c - 0xD800) * 0x400) + (d - 0xDC00) + 0x10000)%N in
              (mjoin (percent_octet <$> utf8_encode cp) ++.) <$> encodeURIComponent rest'
            else None
        | [] => None
        end
      else (mjoin (percent_octet <$> utf8_encode c) ++.) <$> encodeURIComponent rest
  end.

(** ** [JSON.stringify] of an array of strings *)

Definition unicode_escape (c : N) : jsstring :=
  js "\u" ++ [hex_digit_lower (N.shiftr c 12 mod 16)%N;
              hex_digit_lower (N.shiftr c 8 mod 16)%N;
              hex_digit_lower (N.shiftr c 4 mod 16)%N;
              hex_digit_lower (c mod 16)%N].

(** The body of QuoteJSONString. *)
Fixpoint quote_json_chars (s : jsstring) : jsstring :=
  match s with
  | [] => []
  | c :: rest =>
      if N.eqb c 8 then js "\b" ++ quote_json_chars rest
      else if N.eqb c 9 then js "\t" ++ quote_json_chars rest
      else if N.eqb c 10 then js "\n" ++ quote_json_chars rest
      else if N.eqb c 12 then js "\f" ++ quote_json_chars rest
      else if N.eqb c 13 then js "\r" ++ quote_json_chars rest
      else if N.eqb c 34 then [92; 34]%N ++ quote_json_chars rest
      else if N.eqb c 92 then js "\\" ++ quote_json_chars rest
      else if N.ltb c 0x20 then unicode_escape c ++ quote_json_chars rest
      else if is_low_surrogate c then unicode_escape c ++ quote_json_chars rest
      else if is_high_surrogate c then
        match rest with
        | d :: rest' =>
            if is_low_surrogate d then c :: d :: quote_json_chars rest'
            else unicode_escape c ++ quote_json_chars rest
        | [] => unicode_escape c
        end
      else c :: quote_json_chars rest
  end.

Definition QuoteJSONString (s : jsstring) : jsstring :=
  [34%N] ++ quote_json_chars s ++ [34%N].

Definition JSON_stringify (a : list jsstring) : jsstring :=
  js "[" ++ join_with (js ",") (QuoteJSONString <$> a) ++ js "]".

(** ** [escape-html] *)

Fixpoint escapeHtml (s : jsstring) : jsstring :=
  match s with
  | [] => []
  | c :: rest =>
      (if N.eqb c 34 then js "&quot;"
       else if N.eqb c 38 then js "&amp;"
       else if N.eqb c 39 then js "&#39;"
       else if N.eqb c 60 then js "&lt;"
       else if N.eqb c 62 then js "&gt;"
       else [c]) ++ escapeHtml rest
  end.

(** ** The [path] module

    [serve-index] reaches the path functions through [this.pathLib], which is
    [opts.path] when the caller gives one and Node's [path] otherwise: the
    middleware is written against this interface. *)
Module Path.
Record PathLib := {
  sep : jsstring;
  normalize : jsstring -> jsstring;
  join : list jsstring -> jsstring;
  resolve : list jsstring -> jsstring;
  extname : jsstring -> jsstring
}.
End Path.
Import Path (PathLib).

(** Node's [path.posix], after [lib/path.js].  [normalizeString] walks the
    string code unit by code unit; the walk is embedded on the segments
    between slashes, which is what it computes: an empty segment and [.] are
    dropped, [..] removes the last kept segment unless there is none or it is
    [..] itself, and is then kept only when [allowAboveRoot] is set. *)
Module Posix.
Definition SLASH : N := 47.
Definition DOT : N := 46.

Definition is_empty (s : jsstring) : bool :=
  match s with [] => true | _ => false end.

Definition starts_with_slash (s : jsstring) : bool :=
  match s with c :: _ => N.eqb c SLASH | [] => false end.

Definition ends_with_slash (s : jsstring) : bool :=
  match last s with Some c => N.eqb c SLASH | None => false end.

(** One segment of [normalizeString]; [kept] holds the segments of [res],
    the last one first. *)
Definition normalize_segment (allowAboveRoot : bool)
    (kept : list jsstring) (seg : jsstring) : list jsstring :=
  if is_empty seg || str_eqb seg [DOT] then kept
  else if str_eqb seg [DOT; DOT] then
    match kept with
    | top :: below =>
        if str_eqb top [DOT; DOT]
        then (if allowAboveRoot then seg :: kept else kept)
        else below
    | [] => if allowAboveRoot then [seg] else []
    end
  else seg :: kept.

Definition normalizeString (path : jsstring) (allowAboveRoot : bool) : jsstring :=
  join_with [SLASH]
    (rev (fold_left (normalize_segment allowAboveRoot) (split_on SLASH path) [])).

Definition normalize (path : jsstring) : jsstring :=
  if is_empty path then [DOT]
  else
    let isAbsolute := starts_with_slash path in
    let trailingSeparator := ends_with_slash path in
    let path' := normalizeString path (negb isAbsolute) in
    if is_empty path' then
      (if isAbsolute then [SLASH]
       else if trailingSeparator then [DOT; SLASH] else [DOT])
    else
      let path'' := if trailingSeparator then path' ++ [SLASH] else path' in
      if isAbsolute then SLASH :: path'' else path''.

Definition join (args : list jsstring) : jsstring :=
  match List.filter (fun arg => negb (is_empty arg)) args with
  | [] => [DOT]
  | parts => normalize (join_with [SLASH] parts)
  end.

(** The loop of [resolve], from the last argument to the first and then the
    working directory, until an absolute path has been seen. *)
Fixpoint resolve_loop (paths : list jsstring) (resolvedPath : jsstring)
    : jsstring * bool :=
  match paths with
  | [] => (resolvedPath, false)
  | path :: paths' =>
      if is_empty path then resolve_loop paths' resolvedPath
      else
        let resolvedPath' := path ++ [SLASH] ++ resolvedPath in
        if starts_with_slash path then (resolvedPath', true)
        else resolve_loop paths' resolvedPath'
  end.

Definition resolve (cwd : jsstring) (args : list jsstring) : jsstring :=
  let '(resolvedPath, resolvedAbsolute) := resolve_loop (rev args ++ [cwd]) [] in
  let resolvedPath' := normalizeString resolvedPath (negb resolvedAbsolute) in
  if resolvedAbsolute then SLASH :: resolvedPath'
  else if is_empty resolvedPath' then [DOT] else resolvedPath'.

(** The state of the backwards scan of [extname]. *)
Record ext_state := {
  startDot : Z;
  startPart : Z;
  end_ : Z;
  matchedSlash : bool;
  preDotState : Z;
  stopped : bool
}.

Definition ext_step (st : ext_state) (ic : Z * N) : ext_state :=
  let '(i, code) := ic in
  if stopped st then st
  else if N.eqb code SLASH then
    (if negb (matchedSlash st)
     then {| startDot := startDot st; startPart := i + 1; end_ := end_ st;
             matchedSlash := matchedSlash st; preDotState := preDotState st;
             stopped := true |}
     else st)
  else
    let matchedSlash' := if Z.eqb (end_ st) (-1) then false else matchedSlash st in
    let end' := if Z.eqb (end_ st) (-1) then i + 1 else end_ st in
    if N.eqb code DOT then
      (if Z.eqb (startDot st) (-1)
       then {| startDot := i; startPart := startPart st; end_ := end';
               matchedSlash := matchedSlash'; preDotState := preDotState st;
               stopped := false |}
       else {| startDot := startDot st; startPart := startPart st; end_ := end';
               matchedSlash := matchedSlash'; preDotState := 1;
               stopped := false |})
    else
      {| startDot := startDot st; startPart := startPart st; end_ := end';
         matchedSlash := matchedSlash';
         preDotState := if Z.eqb (startDot st) (-1) then preDotState st else -1;
         stopped := false |}.

Definition indexed (path : jsstring) : list (Z * N) :=
  imap (fun i c => (Z.of_nat i, c)) path.

Definition extname (path : jsstring) : jsstring :=
  let st := fold_left ext_step (rev (indexed path))
              {| startDot := -1; startPart := 0; end_ := -1;
                 matchedSlash := true; preDotState := 0; stopped := false |} in
  if Z.eqb (startDot st) (-1) || Z.eqb (end_ st) (-1)
     || Z.eqb (preDotState st) 0
     || (Z.eqb (preDotState st) 1 && Z.eqb (startDot st) (end_ st - 1)
         && Z.eqb (startDot st) (startPart st + 1))
  then []
  else drop (Z.to_nat (startDot st)) (take (Z.to_nat (end_ st)) path).

(** [path.posix] in a process whose working directory is [cwd]. *)
Definition lib (cwd : jsstring) : PathLib :=
  {| Path.sep := [SLASH];
     Path.normalize := normalize;
     Path.join := join;
     Path.resolve := resolve cwd;
     Path.extname := extname |}.
End Posix.

(** ** Errors, stat records and filesystem objects *)

(** An error object as the middleware reads and writes it: the [code] an
    operating-system error carries, the [status] of an HTTP error, and the
    message, which stands for the rest of the diagnostic detail. *)
Record Err := {
  err_code : option jsstring;
  err_status : option Z;
  err_message : jsstring
}.

(** [createError(status)] of [http-errors], for the three statuses used. *)
Definition createError (status : Z) : Err :=
  {| err_code := None;
     err_status := Some status;
     err_message :=
       if Z.eqb status 400 then js "Bad Request"
       else if Z.eqb status 403 then js "Forbidden"
       else if Z.eqb status 406 then js "Not Acceptable"
       else js "Error" |}.

(** [err.status = status]. *)
Definition set_status (err : Err) (status : Z) : Err :=
  {| err_code := err_code err;
     err_status := Some status;
     err_message := err_message err |}.

(** [err.code === code]. *)
Definition code_is (err : Err) (code : jsstring) : bool :=
  match err_code err with
  | Some c => str_eqb c code
  | None => false
  end.

(** What a call may throw. *)
Inductive Exn :=
| URIError
| TypeError (message : jsstring)
| Raised (err : Err).

(** The fields of [fs.Stats] the middleware reads; [mtime] in milliseconds. *)
Record Stats := {
  isDirectory : bool;
  size : Z;
  mtime : option Z
}.

(** A filesystem object: what each operation hands to its callback (or
    returns, or throws, for [readFileSync]) for a given path. *)
Record FileSystem := {
  stat : jsstring -> Err + Stats;
  readdir : jsstring -> Err + list jsstring;
  readFile : jsstring -> Err + jsstring;
  readFileSync : jsstring -> Err + jsstring
}.

(** Filesystem calls are logged with the reference the code makes them
    through: [filesystem] (that is [this.filesystem], passed along to the
    handlers) or the module-level [fs]. *)
Inductive FsRef := via_filesystem | via_fs.

Inductive FsOp :=
| op_stat (path : jsstring)
| op_readdir (path : jsstring)
| op_readFile (path : jsstring)
| op_readFileSync (path : jsstring).

Definition FsCall : Type := FsRef * FsOp.

(** ** The [batch] package

    [new Batch()], [concurrency(n)], [push(fn)] and [end(cb)] of [batch],
    with its default [throws(true)].  A pushed function is started by
    [next()] and finishes when it calls the [done] it was given; between the
    two it is in flight.  The machine below has one event for a turn of the
    starting loop of [end] and one for the completion of a function in
    flight, so that a run is any interleaving of starts and completions. *)
Module Batch.
Section Machine.
Context {R : Type}.

(** A JavaScript array with holes. *)
Definition array_set (a : list (option R)) (i : nat) (v : R) : list (option R) :=
  if bool_decide (i < length a)%nat then <[i := Some v]> a
  else a ++ replicate (i - length a) None ++ [Some v].

Inductive Callback :=
| cb_error (err : Err)
| cb_results (results : list (option R)).

Record State := {
  total : nat;                 (* fns.length *)
  max : nat;                   (* this.n *)
  loop_i : nat;                (* the counter of the starting loop *)
  index : nat;
  pending : nat;
  results : list (option R);
  done : bool;
  in_flight : list nat;        (* started, [done] not called yet *)
  started : list nat;          (* every function started, in order *)
  calls : list Callback        (* every call of [cb], in order *)
}.

(** [next()]: start the function at [index], if there is one. *)
Definition next (st : State) : State :=
  let i := index st in
  {| total := total st; max := max st; loop_i := loop_i st;
     index := S i;
     pending := pending st; results := results st; done := done st;
     in_flight := if bool_decide (i < total st)%nat
                  then in_flight st ++ [i] else in_flight st;
     started := if bool_decide (i < total st)%nat
                then started st ++ [i] else started st;
     calls := calls st |}.

(** [end(cb)] up to its loop: an empty batch calls back at once. *)
Definition init (fns n : nat) : State :=
  {| total := fns; max := n; loop_i := 0; index := 0; pending := fns;
     results := []; done := false; in_flight := []; started := [];
     calls := match fns with O => [cb_results []] | S _ => [] end |}.

Definition loop_running (st : State) : bool :=
  bool_decide (loop_i st < total st)%nat
  && negb (bool_decide (loop_i st = max st)).

(** [callback(err, res)] of the function started at [i]. *)
Definition callback (st : State) (i : nat) (r : Err + R) : State :=
  let st' :=
    {| total := total st; max := max st; loop_i := loop_i st;
       index := index st; pending := pending st; results := results st;
       done := done st;
       in_flight := List.filter (fun j => negb (Nat.eqb j i)) (in_flight st);
       started := started st; calls := calls st |} in
  if done st' then st'
  else match r with
       | inl err =>
           {| total := total st'; max := max st'; loop_i := loop_i st';
              index := index st'; pending := pending st';
              results := results st'; done := true;
              in_flight := in_flight st'; started := started st';
              calls := calls st' ++ [cb_error err] |}
       | inr res =>
           let st'' :=
             {| total := total st'; max := max st'; loop_i := loop_i st';
                index := index st'; pending := Nat.pred (pending st');
                results := array_set (results st') i res; done := done st';
                in_flight := in_flight st'; started := started st';
                calls := calls st' |} in
           if negb (Nat.eqb (pending st'') 0) then next st''
           else {| total := total st''; max := max st''; loop_i := loop_i st'';
                   index := index st''; pending := pending st'';
                   results := results st''; done := done st'';
                   in_flight := in_flight st''; started := started st'';
                   calls := calls st'' ++ [cb_results (results st'')] |}
       end.

Inductive Event :=
| ev_loop
| ev_complete (i : nat) (r : Err + R).

(** One event; [None] when it cannot happen in this state. *)
Definition step (st : State) (ev : Event) : option State :=
  match ev with
  | ev_loop =>
      if loop_running st then
        let st' := next st in
        Some {| total := total st'; max := max st'; loop_i := S (loop_i st');
                index := index st'; pending := pending st';
                results := results st'; done := done st';
                in_flight := in_flight st'; started := started st';
                calls := calls st' |}
      else None
  | ev_complete i r =>
      if bool_decide (i ∈ in_flight st) then Some (callback st i r) else None
  end.

Fixpoint steps (st : State) (evs : list Event) : option State :=
  match evs with
  | [] => Some st
  | ev :: evs' =>
      match step st ev with
      | Some st' => steps st' evs'
      | None => None
      end
  end.

(** Nothing is left to happen: the loop is over and nothing is in flight. *)
Definition quiescent (st : State) : Prop :=
  loop_running st = false /\ in_flight st = [].

(** The loop of [end] run to its end without a completion in between,
    as with a filesystem that calls back later. *)
Fixpoint run_loop (fuel : nat) (st : State) : State :=
  match fuel with
  | O => st
  | S fuel' =>
      match step st ev_loop with
      | Some st' => run_loop fuel' st'
      | None => st
      end
  end.

(** What holds of a state reached from [init fns n] by the events
    [evs]. *)
Record invariant (fns n : nat) (evs : list Event) (st : State) : Prop := {
  inv_total : total st = fns;
  inv_max : max st = n;
  inv_loop : (loop_i st <= n)%nat;
  inv_started : started st = seq 0 (index st `min` fns);
  inv_in_flight_nodup : NoDup (in_flight st);
  inv_in_flight_started : forall i, i ∈ in_flight st -> i ∈ started st;
  inv_in_flight_bound : (length (in_flight st) <= loop_i st)%nat;
  inv_answered : forall i r,
    ev_complete i r ∈ evs -> i ∈ started st /\ i ∉ in_flight st;
  inv_completed : forall i,
    i ∈ started st -> i ∉ in_flight st -> exists r, ev_complete i r ∈ evs;
  inv_running : done st = false ->
    (forall i r, ev_complete i r ∈ evs ->
       exists v, r = inr v /\ results st !! i = Some (Some v))
    /\ (length (results st) <= fns)%nat
    /\ (pending st + length (started st) = fns + length (in_flight st))%nat
    /\ ((0 < pending st)%nat ->
        (index st = loop_i st + (length (started st) - length (in_flight st)))%nat
        /\ calls st = [])
    /\ (pending st = 0%nat -> calls st = [cb_results (results st)]);
  inv_failed : done st = true ->
    exists i err, ev_complete i (inl err) ∈ evs /\ calls st = [cb_error err]
}.
End Machine.
Arguments State : clear implicits.
Arguments Callback : clear implicits.
Arguments Event : clear implicits.
End Batch.

(** ** The host: what [index.js] requires and the locale it runs in *)

Class Host := {
  fs : FileSystem;                          (* require('fs') *)
  nativePathLib : PathLib;                  (* require('path') *)
  __dirname : jsstring;
  mime_lookup : jsstring -> option jsstring; (* mime.lookup; [None] is false *)
  prototype_toString : jsstring -> jsstring;
                        (* String(Object.prototype[name]), for a name below *)
  toLocaleLowerCase : jsstring -> jsstring;
  localeCompare : jsstring -> jsstring -> Z;
  toLocaleDateString : Z -> jsstring;
  toLocaleTimeString : Z -> jsstring
}.

(** The module-level icon cache and the log of filesystem calls. *)
Record World := {
  cache : gmap (list N) (list N);
  fs_log : list FsCall
}.

(** Code that may read and fill the cache, call the filesystem, or throw. *)
Definition M (A : Type) : Type := World -> (Exn + A) * World.

#[global] Instance M_ret : MRet M := fun A (a : A) w => (inr a, w).

#[global] Instance M_bind : MBind M := fun A B (k : A -> M B) (m : M A) w =>
  match m w with
  | (inl e, w') => (inl e, w')
  | (inr a, w') => k a w'
  end.

Definition throw {A} (e : Exn) : M A := fun w => (inl e, w).

Definition log_call (c : FsCall) : M unit :=
  fun w => (inr tt, {| cache := cache w; fs_log := fs_log w ++ [c] |}).

(** A URI function of the language: its URIError is thrown. *)
Definition uri {A} (o : option A) : M A :=
  match o with
  | Some a => mret a
  | None => throw URIError
  end.

(** ** Directory entries and their order *)

(** The [stat] property of an element of [fileList]: [stats[i]], which is a
    stat record, [null], or [undefined] where the array has nothing. *)
Inductive Metadata :=
| md_undefined
| md_null
| md_stats (s : Stats).

Module File.
Record t := { name : jsstring; stat : Metadata }.
End File.

(** [stats[i]] on the array [statFiles] calls back with. *)
Definition stats_at (stats : list (option (option Stats))) (i : nat) : Metadata :=
  match stats !! i with
  | Some (Some (Some s)) => md_stats s
  | Some (Some None) => md_null
  | _ => md_undefined
  end.

(** [file.stat && file.stat.isDirectory()] as a condition. *)
Definition is_dir (m : Metadata) : bool :=
  match m with
  | md_stats s => isDirectory s
  | _ => false
  end.

(** [Number(x.stat && x.stat.isDirectory())]: 1, 0, or NaN ([None]) when
    [x.stat] is [undefined]. *)
Definition dir_number (m : Metadata) : option Z :=
  match m with
  | md_undefined => None
  | md_null => Some 0
  | md_stats s => Some (if isDirectory s then 1 else 0)
  end.

Definition DOTDOT : jsstring := js "..".

Section Sorter.
Context `{Host}.

(** [ServeIndex.prototype.fileSort].  [x || y] is [y] when [x] is 0 or
    NaN. *)
Definition fileSort (a b : File.t) : Z :=
  if str_eqb (File.name a) DOTDOT || str_eqb (File.name b) DOTDOT then
    if str_eqb (File.name a) (File.name b) then 0
    else if str_eqb (File.name a) DOTDOT then -1 else 1
  else
    let by_name := localeCompare (toLocaleLowerCase (File.name a))
                                 (toLocaleLowerCase (File.name b)) in
    match dir_number (File.stat b), dir_number (File.stat a) with
    | Some nb, Some na => if Z.eqb (nb - na) 0 then by_name else nb - na
    | _, _ => by_name
    end.
End Sorter.

(** ** Icons *)

Definition icons : gmap (list N) (list N) :=
  list_to_map
    [ (js "default", js "page_white.png");
      (js "folder", js "folder.png");
      (js "font", js "font.png");
      (js "image", js "image.png");
      (js "text", js "page_white_text.png");
      (js "video", js "film.png");
      (js "+json", js "page_white_code.png");
      (js "+xml", js "page_white_code.png");
      (js "+zip", js "box.png");
      (js "application/javascript", js "page_white_code_red.png");
      (js "application/json", js "page_white_code.png");
      (js "application/msword", js "page_white_word.png");
      (js "application/pdf", js "page_white_acrobat.png");
      (js "application/postscript", js "page_white_vector.png");
      (js "application/rtf", js "page_white_word.png");
      (js "application/vnd.ms-excel", js "page_white_excel.png");
      (js "application/vnd.ms-powerpoint", js "page_white_powerpoint.png");
      (js "application/vnd.oasis.opendocument.presentation", js "page_white_powerpoint.png");
      (js "application/vnd.oasis.opendocument.spreadsheet", js "page_white_excel.png");
      (js "application/vnd.oasis.opendocument.text", js "page_white_word.png");
      (js "application/x-7z-compressed", js "box.png");
      (js "application/x-sh", js "application_xp_terminal.png");
      (js "application/x-msaccess", js "page_white_database.png");
      (js "application/x-shockwave-flash", js "page_white_flash.png");
      (js "application/x-sql", js "page_white_database.png");
      (js "application/x-tar", js "box.png");
      (js "application/x-xz", js "box.png");
      (js "application/xml", js "page_white_code.png");
      (js "application/zip", js "box.png");
      (js "image/svg+xml", js "page_white_vector.png");
      (js "text/css", js "page_white_code.png");
      (js "text/html", js "page_white_code.png");
      (js "text/less", js "page_white_code.png");
      (js ".accdb", js "page_white_database.png");
      (js ".apk", js "box.png");
      (js ".app", js "application_xp.png");
      (js ".as", js "page_white_actionscript.png");
      (js ".asp", js "page_white_code.png");
      (js ".aspx", js "page_white_code.png");
      (js ".bat", js "application_xp_terminal.png");
      (js ".bz2", js "box.png");
      (js ".c", js "page_white_c.png");
      (js ".cab", js "box.png");
      (js ".cfm", js "page_white_coldfusion.png");
      (js ".clj", js "page_white_code.png");
      (js ".cc", js "page_white_cplusplus.png");
      (js ".cgi", js "application_xp_terminal.png");
      (js ".cpp", js "page_white_cplusplus.png");
      (js ".cs", js "page_white_csharp.png");
      (js ".db", js "page_white_database.png");
      (js ".dbf", js "page_white_database.png");
      (js ".deb", js "box.png");
      (js ".dll", js "page_white_gear.png");
      (js ".dmg", js "drive.png");
      (js ".docx", js "page_white_word.png");
      (js ".erb", js "page_white_ruby.png");
      (js ".exe", js "application_xp.png");
      (js ".fnt", js "font.png");
      (js ".gam", js "controller.png");
      (js ".gz", js "box.png");
      (js ".h", js "page_white_h.png");
      (js ".ini", js "page_white_gear.png");
      (js ".iso", js "cd.png");
      (js ".jar", js "box.png");
      (js ".java", js "page_white_cup.png");
      (js ".jsp", js "page_white_cup.png");
      (js ".lua", js "page_white_code.png");
      (js ".lz", js "box.png");
      (js ".lzma", js "box.png");
      (js ".m", js "page_white_code.png");
      (js ".map", js "map.png");
      (js ".msi", js "box.png");
      (js ".mv4", js "film.png");
      (js ".pdb", js "page_white_database.png");
      (js ".php", js "page_white_php.png");
      (js ".pl", js "page_white_code.png");
      (js ".pkg", js "box.png");
      (js ".pptx", js "page_white_powerpoint.png");
      (js ".psd", js "page_white_picture.png");
      (js ".py", js "page_white_code.png");
      (js ".rar", js "box.png");
      (js ".rb", js "page_white_ruby.png");
      (js ".rm", js "film.png");
      (js ".rom", js "controller.png");
      (js ".rpm", js "box.png");
      (js ".sass", js "page_white_code.png");
      (js ".sav", js "controller.png");
      (js ".scss", js "page_white_code.png");
      (js ".srt", js "page_white_text.png");
      (js ".tbz2", js "box.png");
      (js ".tgz", js "box.png");
      (js ".tlz", js "box.png");
      (js ".vb", js "page_white_code.png");
      (js ".vbs", js "page_white_code.png");
      (js ".xcf", js "page_white_picture.png");
      (js ".xlsx", js "page_white_excel.png");
      (js ".yaws", js "page_white_code.png") ].

(** [icons.default] and [icons.folder]. *)
Definition icons_default : jsstring := default [] (icons !! js "default").
Definition icons_folder : jsstring := default [] (icons !! js "folder").

(** [icons], [cache] and the [rules] and [selectors] of [iconStyle] are
    ordinary objects used as tables: a property that is not their own is
    read from [Object.prototype], which holds a function under each of the
    names below and itself under [__proto__]. *)
Definition Object_prototype_names : list jsstring :=
  [ js "constructor"; js "__defineGetter__"; js "__defineSetter__";
    js "hasOwnProperty"; js "__lookupGetter__"; js "__lookupSetter__";
    js "isPrototypeOf"; js "propertyIsEnumerable"; js "toString"; js "valueOf";
    js "__proto__"; js "toLocaleString" ].

Definition inherited (key : jsstring) : bool :=
  bool_decide (key ∈ Object_prototype_names).

(** What reading [table[key]] gives: the table's own value, what
    [Object.prototype] holds under the name, or [undefined]. *)
Inductive Property (A : Type) :=
| own (a : A)
| from_prototype (name : jsstring)
| undefined.
Arguments own {A} a.
Arguments from_prototype {A} name.
Arguments undefined {A}.

Definition get {A} (table : gmap (list N) A) (key : jsstring) : Property A :=
  match table !! key with
  | Some a => own a
  | None => if inherited key then from_prototype key else undefined
  end.

(** A value read from a table of strings: a string, or what
    [Object.prototype] holds under a name. *)
Inductive Value :=
| v_string (s : jsstring)
| v_prototype (name : jsstring).

(** [table[key]] of a table of strings as a condition: [None] where it is
    [undefined] or the empty string. *)
Definition get_truthy (table : gmap (list N) (list N)) (key : jsstring)
    : option Value :=
  match get table key with
  | own (c :: s) => Some (v_string (c :: s))
  | own [] => None
  | from_prototype name => Some (v_prototype name)
  | undefined => None
  end.

(** [String(v)], which is also the property key [v] makes. *)
Definition to_string `{Host} (v : Value) : jsstring :=
  match v with
  | v_string s => s
  | v_prototype name => prototype_toString name
  end.

Record Icon := { className : jsstring; fileName : Value }.

(** [s.replace(c, d)] with one-code-unit strings: the first [c] only. *)
Fixpoint replace_first (c d : N) (s : jsstring) : jsstring :=
  match s with
  | [] => []
  | x :: s' => if N.eqb x c then d :: s' else x :: replace_first c d s'
  end.

(** [s.replace(/pattern/g, replacement)] for a pattern that is a literal
    string.  In the replacement, [$$] stands for a dollar sign, [$&] for the
    match, and [$`] and [$'] for what comes before and after the match. *)
Fixpoint get_substitution (matched before after replacement : jsstring) : jsstring :=
  match replacement with
  | [] => []
  | c :: r =>
      if N.eqb c 36 then
        match r with
        | d :: r' =>
            if N.eqb d 36 then 36%N :: get_substitution matched before after r'
            else if N.eqb d 38 then matched ++ get_substitution matched before after r'
            else if N.eqb d 96 then before ++ get_substitution matched before after r'
            else if N.eqb d 39 then after ++ get_substitution matched before after r'
            else c :: get_substitution matched before after r
        | [] => [c]
        end
      else c :: get_substitution matched before after r
  end.

Fixpoint replace_loop (pattern replacement before : jsstring) (skip : nat)
    (s : jsstring) : jsstring :=
  match s with
  | [] => []
  | c :: s' =>
      match skip with
      | S skip' => replace_loop pattern replacement (before ++ [c]) skip' s'
      | O =>
          if starts_with pattern s then
            get_substitution pattern before (drop (length pattern) s) replacement
            ++ replace_loop pattern replacement (before ++ [c]) (length pattern - 1) s'
          else c :: replace_loop pattern replacement (before ++ [c]) 0 s'
      end
  end.

Definition replace_all (pattern replacement s : jsstring) : jsstring :=
  replace_loop pattern replacement [] 0 s.

Definition LF : jsstring := [10%N].
Definition DQ : jsstring := [34%N].

(** The value of an object property read as a condition: a missing key and
    the empty string are both false. *)
Definition truthy (o : option jsstring) : option jsstring :=
  match o with
  | Some (c :: s) => Some (c :: s)
  | _ => None
  end.

(** ** [ServeIndex] *)

(** The [locals] handed to a render function. *)
Record Locals := {
  directory : jsstring;
  displayIcons : bool;
  fileList : list File.t;
  locals_path : jsstring;
  style : jsstring;
  viewName : jsstring
}.

(** [opts.template]: the path of a template, or a function
    [render(locals, callback)] given by what it hands to its callback. *)
Inductive Template :=
| template_path (p : jsstring)
| template_function (render : Locals -> Err + jsstring).

(** [opts.filter(filename, index, list, path)]. *)
Definition Filter : Type := jsstring -> nat -> list jsstring -> jsstring -> bool.

Record Options := {
  opts_path : option PathLib;
  opts_filter : option Filter;
  opts_hidden : bool;
  opts_icons : bool;
  opts_stylesheet : option jsstring;
  opts_template : option Template;
  opts_view : option jsstring;
  opts_fs : option FileSystem
}.

Module ServeIndex.
Record t := {
  pathLib : PathLib;
  rootPath : jsstring;
  filter : option Filter;
  hidden : bool;
  showIcons : bool;
  stylesheet : jsstring;
  template : Template;
  view : jsstring;
  filesystem : FileSystem
}.
End ServeIndex.

Section Constructor.
Context `{Host}.

Definition defaultTemplate : jsstring :=
  Path.join nativePathLib [__dirname; js "public"; js "directory.html"].

Definition defaultStylesheet : jsstring :=
  Path.join nativePathLib [__dirname; js "public"; js "style.css"].

(** [new ServeIndex(root, options)]. *)
Definition new_ServeIndex (root : jsstring) (opts : Options) : Exn + ServeIndex.t :=
  if Posix.is_empty root then inl (TypeError (js "serveIndex() root path required"))
  else
    let pathLib := default nativePathLib (opts_path opts) in
    inr {| ServeIndex.pathLib := pathLib;
           ServeIndex.rootPath :=
             Path.normalize pathLib (Path.resolve pathLib [root] ++ Path.sep pathLib);
           ServeIndex.filter := opts_filter opts;
           ServeIndex.hidden := opts_hidden opts;
           ServeIndex.showIcons := opts_icons opts;
           ServeIndex.stylesheet :=
             default defaultStylesheet (truthy (opts_stylesheet opts));
           ServeIndex.template :=
             match opts_template opts with
             | Some (template_path p) =>
                 template_path (default defaultTemplate (truthy (Some p)))
             | Some (template_function f) => template_function f
             | None => template_path defaultTemplate
             end;
           ServeIndex.view := default (js "tiles") (truthy (opts_view opts));
           ServeIndex.filesystem := default fs (opts_fs opts) |}.
End Constructor.

(** ** The HTML renderer *)

Section Renderer.
Context `{Host} (self : ServeIndex.t).

(** [ServeIndex.prototype.iconLookup]. *)
Definition iconLookup (filename : jsstring) : Icon :=
  let ext := Path.extname (ServeIndex.pathLib self) filename in
  let icon_default :=
    {| className := js "icon-default"; fileName := v_string icons_default |} in
  match get_truthy icons ext with
  | Some f => {| className := js "icon-" ++ drop 1 ext; fileName := f |}
  | None =>
      match mime_lookup ext with
      | None => icon_default
      | Some mimetype =>
          match get_truthy icons mimetype with
          | Some f => {| className := js "icon-" ++ replace_first 47 45 mimetype;
                         fileName := f |}
          | None =>
              let by_type :=
                let type := default [] (head (split_on 47 mimetype)) in
                match get_truthy icons type with
                | Some f => {| className := js "icon-" ++ type; fileName := f |}
                | None => icon_default
                end in
              match truthy (split_on 43 mimetype !! 1%nat) with
              | Some suffix =>
                  match get_truthy icons (js "+" ++ suffix) with
                  | Some f => {| className := js "icon-" ++ suffix; fileName := f |}
                  | None => by_type
                  end
              | None => by_type
              end
          end
      end
  end.

(** [ServeIndex.prototype.load]: read through the cache, with the
    module-level [fs].  [icon] is used as a property key and in a string
    concatenation, hence as [String(icon)] both times. *)
Definition load (icon : Value) : M Value := fun w =>
  let key := to_string icon in
  match get_truthy (cache w) key with
  | Some data => (inr data, w)
  | None =>
      let file := __dirname ++ js "/public/icons/" ++ key in
      let w' := {| cache := cache w;
                   fs_log := fs_log w ++ [(via_fs, op_readFileSync file)] |} in
      match readFileSync fs file with
      | inl err => (inl (Raised err), w')
      | inr data =>
          (inr (v_string data),
           {| cache := <[key := data]> (cache w'); fs_log := fs_log w' |})
      end
  end.

(** The three variables the first loop of [iconStyle] fills; [rules] and
    [selectors] by the property keys the icon names make. *)
Record IconRules := {
  rule_list : list Value;
  rules : gmap (list N) (list N);
  selectors : gmap (list N) (list (list N))
}.

Definition iconStyle_file (acc : IconRules) (file : File.t) : M IconRules :=
  let icon :=
    if is_dir (File.stat file)
    then {| className := js "icon-directory"; fileName := v_string icons_folder |}
    else iconLookup (File.name file) in
  let iconName := fileName icon in
  let key := to_string iconName in
  let selector := js "#files ." ++ className icon ++ js " .name" in
  acc' ← match get_truthy (rules acc) key with
         | Some _ => mret acc
         | None =>
             data ← load iconName;
             mret {| rule_list := rule_list acc ++ [iconName];
                     rules := <[key :=
                                  js "background-image: url(data:image/png;base64,"
                                  ++ to_string data ++ js ");"]> (rules acc);
                     selectors := <[key := []]> (selectors acc) |}
         end;
  match get (selectors acc') key with
  | own current =>
      mret (if bool_decide (selector ∈ current) then acc'
            else {| rule_list := rule_list acc';
                    rules := rules acc';
                    selectors := <[key := current ++ [selector]]> (selectors acc') |})
  | from_prototype _ =>
      throw (TypeError (js "selectors[iconName].indexOf is not a function"))
  | undefined =>
      throw (TypeError (js "Cannot read properties of undefined (reading 'indexOf')"))
  end.

Fixpoint iconStyle_loop (acc : IconRules) (files : list File.t) : M IconRules :=
  match files with
  | [] => mret acc
  | file :: files' => acc' ← iconStyle_file acc file; iconStyle_loop acc' files'
  end.

(** [ServeIndex.prototype.iconStyle]. *)
Definition iconStyle (files : list File.t) (useIcons : bool) : M jsstring :=
  if negb useIcons then mret []
  else
    acc ← iconStyle_loop {| rule_list := []; rules := ∅; selectors := ∅ |} files;
    mret (mjoin ((fun iconName =>
                    join_with (js "," ++ LF)
                      (default [] (selectors acc !! to_string iconName))
                    ++ js " {" ++ LF ++ js "  "
                    ++ default [] (rules acc !! to_string iconName)
                    ++ LF ++ js "}" ++ LF) <$> rule_list acc)).

(** [ServeIndex.prototype.normalizeSlashes]: [path.split(sep).join('/')],
    for a separator of one code unit. *)
Definition normalizeSlashes (path : jsstring) : jsstring :=
  match Path.sep (ServeIndex.pathLib self) with
  | [c] => join_with (js "/") (split_on c path)
  | _ => path
  end.

(** One element of [files.map(...)] in [createHtmlFileList]. *)
Definition html_file_item (dir : jsstring) (useIcons : bool) (file : File.t)
    : M jsstring :=
  let isDir := is_dir (File.stat file) in
  path ← mapM (fun c => uri (encodeURIComponent c)) (split_on 47 dir);
  let classes :=
    if useIcons then
      if isDir then [js "icon"; js "icon-directory"]
      else
        let ext := Path.extname (ServeIndex.pathLib self) (File.name file) in
        let icon := iconLookup (File.name file) in
        let classes := [js "icon"; js "icon"; js "icon-" ++ drop 1 ext] in
        if bool_decide (className icon ∈ classes) then classes
        else classes ++ [className icon]
    else [] in
  encoded ← uri (encodeURIComponent (File.name file));
  let path' := path ++ [encoded] in
  let date :=
    match File.stat file with
    | md_stats s =>
        match mtime s with
        | Some t => if str_eqb (File.name file) DOTDOT then []
                    else toLocaleDateString t ++ js " " ++ toLocaleTimeString t
        | None => []
        end
    | _ => []
    end in
  let size' :=
    match File.stat file with
    | md_stats s => if isDir then [] else number_to_string (size s)
    | _ => []
    end in
  mret (js "<li><a href=" ++ DQ
        ++ escapeHtml (normalizeSlashes
             (Path.normalize (ServeIndex.pathLib self) (join_with (js "/") path')))
        ++ DQ ++ js " class=" ++ DQ ++ escapeHtml (join_with (js " ") classes) ++ DQ
        ++ js " title=" ++ DQ ++ escapeHtml (File.name file) ++ DQ ++ js ">"
        ++ js "<span class=" ++ DQ ++ js "name" ++ DQ ++ js ">"
        ++ escapeHtml (File.name file) ++ js "</span>"
        ++ js "<span class=" ++ DQ ++ js "size" ++ DQ ++ js ">"
        ++ escapeHtml size' ++ js "</span>"
        ++ js "<span class=" ++ DQ ++ js "date" ++ DQ ++ js ">"
        ++ escapeHtml date ++ js "</span>"
        ++ js "</a></li>").

(** [ServeIndex.prototype.createHtmlFileList]. *)
Definition createHtmlFileList (files : list File.t) (dir : jsstring)
    (useIcons : bool) (view : jsstring) : M jsstring :=
  let html :=
    js "<ul id=" ++ DQ ++ js "files" ++ DQ ++ js " class=" ++ DQ ++ js "view-"
    ++ escapeHtml view ++ DQ ++ js ">"
    ++ (if str_eqb view (js "details")
        then js "<li class=" ++ DQ ++ js "header" ++ DQ ++ js ">"
             ++ js "<span class=" ++ DQ ++ js "name" ++ DQ ++ js ">Name</span>"
             ++ js "<span class=" ++ DQ ++ js "size" ++ DQ ++ js ">Size</span>"
             ++ js "<span class=" ++ DQ ++ js "date" ++ DQ ++ js ">Modified</span>"
             ++ js "</li>"
        else []) in
  items ← mapM (html_file_item dir useIcons) files;
  mret (html ++ join_with LF items ++ js "</ul>").

(** The loop of [htmlPath]: [parts] holds the elements already visited,
    encoded where they were not empty; an empty element leaves a hole in
    [crumb], which [join] prints as nothing. *)
Fixpoint htmlPath_loop (parts todo : list jsstring) : M (list jsstring) :=
  match todo with
  | [] => mret []
  | part :: todo' =>
      if Posix.is_empty part then
        crumb ← htmlPath_loop (parts ++ [part]) todo';
        mret ([] :: crumb)
      else
        encoded ← uri (encodeURIComponent part);
        let parts' := parts ++ [encoded] in
        crumb ← htmlPath_loop parts' todo';
        mret ((js "<a href=" ++ DQ ++ escapeHtml (join_with (js "/") parts') ++ DQ
               ++ js ">" ++ escapeHtml part ++ js "</a>") :: crumb)
  end.

(** [ServeIndex.prototype.htmlPath]. *)
Definition htmlPath (dir : jsstring) : M jsstring :=
  crumb ← htmlPath_loop [] (split_on 47 dir);
  mret (join_with (js " / ") crumb).

(** The function [createHtmlRender(template)] returns, given by what it
    hands to its callback. *)
Definition createHtmlRender (template : jsstring) (locals : Locals)
    : M (Err + jsstring) :=
  _ ← log_call (via_fs, op_readFile template);
  match readFile fs template with
  | inl err => mret (inl err)
  | inr str =>
      icon_css ← iconStyle (fileList locals) (displayIcons locals);
      let body1 := replace_all (js "{style}") (style locals ++ icon_css) str in
      files_html ← createHtmlFileList (fileList locals) (directory locals)
                     (displayIcons locals) (viewName locals);
      let body2 := replace_all (js "{files}") files_html body1 in
      let body3 := replace_all (js "{directory}") (escapeHtml (directory locals)) body2 in
      linked ← htmlPath (directory locals);
      mret (inr (replace_all (js "{linked-path}") linked body3))
  end.

(** [ServeIndex.prototype.removeHidden]. *)
Definition removeHidden (files : list jsstring) : list jsstring :=
  List.filter (fun file => negb (str_eqb (take 1 file) (js "."))) files.
End Renderer.

(** ** Requests, responses and what becomes of a request *)

Record Request := {
  method : jsstring;
  url_pathname : jsstring;          (* parseUrl(req).pathname *)
  originalUrl_pathname : jsstring;  (* parseUrl.original(req).pathname *)
  accepts_type : list jsstring -> option jsstring
                                    (* accepts(req).type(types); [None] is false *)
}.

Inductive HeaderValue :=
| hv_string (s : jsstring)
| hv_number (n : Z).

(** What has been done to [res] when [res.end] is called: the status code if
    it was assigned, the headers set, and the body given to [end]. *)
Record Response := {
  statusCode : option Z;
  headers : list (jsstring * HeaderValue);
  body : option jsstring
}.

Inductive Outcome :=
| responded (res : Response)   (* [res.end(...)] *)
| next (err : option Err)      (* [next()] or [next(err)] *)
| stalled.                     (* neither: no callback was ever called *)

Inductive Media := media_html | media_plain | media_json.

Definition mediaTypes : list jsstring :=
  [js "text/html"; js "text/plain"; js "application/json"].

(** The object [mediaType]; [None] where the property is missing. *)
Definition mediaType (type : jsstring) : option Media :=
  if str_eqb type (js "text/html") then Some media_html
  else if str_eqb type (js "text/plain") then Some media_plain
  else if str_eqb type (js "application/json") then Some media_json
  else None.

(** The arguments a representation handler is called with, after [req],
    [res] and [next]. *)
Record HandlerArgs := {
  h_files : list jsstring;
  h_dir : jsstring;
  h_showUp : bool;
  h_displayIcons : bool;
  h_path : jsstring;
  h_view : jsstring;
  h_template : Template;
  h_stylesheet : jsstring;
  h_filesystem : FileSystem
}.

(** [serveIndex.html], [serveIndex.plain] and [serveIndex.json]: a handler
    the embedding application has put there, or [null]. *)
Record Overrides := {
  serveIndex_html : option (Request -> HandlerArgs -> M Outcome);
  serveIndex_plain : option (Request -> HandlerArgs -> M Outcome);
  serveIndex_json : option (Request -> HandlerArgs -> M Outcome)
}.

(** The three properties as the module leaves them. *)
Definition no_overrides : Overrides :=
  {| serveIndex_html := None; serveIndex_plain := None; serveIndex_json := None |}.

Definition override (ov : Overrides) (media : Media)
    : option (Request -> HandlerArgs -> M Outcome) :=
  match media with
  | media_html => serveIndex_html ov
  | media_plain => serveIndex_plain ov
  | media_json => serveIndex_json ov
  end.

(** [ServeIndex.prototype.send]. *)
Definition send (type body : jsstring) : Outcome :=
  responded
    {| statusCode := None;
       headers := [ (js "X-Content-Type-Options", hv_string (js "nosniff"));
                    (js "Content-Type", hv_string (type ++ js "; charset=utf-8"));
                    (js "Content-Length", hv_number (utf8_byteLength body)) ];
       body := Some body |}.

(** [ServeIndex.prototype.json]. *)
Definition json (files : list jsstring) : Outcome :=
  send (js "application/json") (JSON_stringify files).

(** [ServeIndex.prototype.plain]. *)
Definition plain (files : list jsstring) : Outcome :=
  send (js "text/plain") (join_with LF files ++ LF).

(** ** [statFiles] *)

(** What the function pushed for one file passes to [done], from what
    [filesystem.stat] passed to it. *)
Definition stat_done (r : Err + Stats) : Err + option Stats :=
  match r with
  | inl err => if negb (code_is err (js "ENOENT")) then inl err else inr None
  | inr st => inr (Some st)
  end.

(** The lookup in flight that completes next: the schedule counts into those
    in flight, around the end. *)
Definition picked (sched : list nat) (first : nat) (in_flight : list nat) : nat :=
  default first (in_flight !! (default 0%nat (head sched) mod length in_flight)%nat).

(** Lookups in flight complete one at a time, in the order [sched] picks
    among them, each with the answer of [lookup]. *)
Fixpoint complete_all (fuel : nat) (sched : list nat) (lookup : nat -> Err + Stats)
    (st : Batch.State (option Stats)) : Batch.State (option Stats) :=
  match fuel with
  | O => st
  | S fuel' =>
      match Batch.in_flight st with
      | [] => st
      | first :: _ =>
          let i := picked sched first (Batch.in_flight st) in
          complete_all fuel' (tail sched) lookup
            (Batch.callback st i (stat_done (lookup i)))
      end
  end.

(** What happens while [statFiles] runs: a turn of the starting loop of
    [batch.end], or [filesystem.stat] calling back the lookup of [files[i]]
    with an error or a stat record. *)
Inductive StatEvent :=
| stat_loop
| stat_answer (i : nat) (r : Err + Stats).

Definition batch_event (e : StatEvent) : Batch.Event (option Stats) :=
  match e with
  | stat_loop => Batch.ev_loop
  | stat_answer i r => Batch.ev_complete i (stat_done r)
  end.

(** The batch of [statFiles] for [files], after the events [evs]. *)
Definition statFiles_after (files : list jsstring) (evs : list StatEvent)
    : option (Batch.State (option Stats)) :=
  Batch.steps (Batch.init (length files) 10) (batch_event <$> evs).

(** The metadata an answer stands for: the stat record, or [null]. *)
Definition metadata_of (r : Err + Stats) : option Stats :=
  match r with
  | inr st => Some st
  | inl _ => None
  end.

(** What [html] does with what the render function hands to its
    callback. *)
Definition rendered (r : Err + jsstring) : Outcome :=
  match r with
  | inl err => next (Some err)
  | inr body => send (js "text/html") body
  end.

(** [files.map(function (file, i) { return { name: file, stat: stats[i] } })]. *)
Definition file_list (files : list jsstring) (stats : list (option (option Stats)))
    : list File.t :=
  imap (fun i file => {| File.name := file; File.stat := stats_at stats i |}) files.

Section Handlers.
Context `{Host} (self : ServeIndex.t).

(** The path of the lookup for the file at index [i]. *)
Definition stat_path (dir : jsstring) (files : list jsstring) (i : nat) : jsstring :=
  Path.join (ServeIndex.pathLib self) [dir; default [] (files !! i)].

(** [ServeIndex.prototype.statFiles] with a filesystem that calls back
    later: the call of [cb], if any. *)
Definition statFiles (dir : jsstring) (files : list jsstring)
    (filesystem : FileSystem) (sched : list nat)
    : M (option (Batch.Callback (option Stats))) :=
  let st0 := Batch.run_loop (length files) (Batch.init (length files) 10) in
  let st := complete_all (length files) sched
              (fun i => stat filesystem (stat_path dir files i)) st0 in
  _ ← mapM (fun i => log_call (via_filesystem, op_stat (stat_path dir files i)))
           (Batch.started st);
  mret (head (Batch.calls st)).

(** [ServeIndex.prototype.html]. *)
Definition html (args : HandlerArgs) (sched : list nat) : M Outcome :=
  let render :=
    match h_template args with
    | template_path p => createHtmlRender self p
    | template_function f => fun locals => mret (f locals)
    end in
  let files := if h_showUp args then DOTDOT :: h_files args else h_files args in
  cb ← statFiles (h_path args) files (h_filesystem args) sched;
  match cb with
  | None => mret stalled
  | Some (Batch.cb_error err) => mret (next (Some err))
  | Some (Batch.cb_results stats) =>
      let fileList := Array_sort fileSort (file_list files stats) in
      _ ← log_call (via_fs, op_readFile (h_stylesheet args));
      match readFile fs (h_stylesheet args) with
      | inl err => mret (next (Some err))
      | inr style =>
          let locals :=
            {| directory := h_dir args;
               displayIcons := h_displayIcons args;
               fileList := fileList;
               locals_path := h_path args;
               style := style;
               viewName := h_view args |} in
          r ← render locals;
          mret (rendered r)
      end
  end.

(** The handler [serve] calls for [media]: the override if there is one,
    the method of the prototype otherwise. *)
Definition handler (ov : Overrides) (media : Media) (req : Request)
    (args : HandlerArgs) (sched : list nat) : M Outcome :=
  match override ov media with
  | Some custom => custom req args
  | None =>
      match media with
      | media_html => html args sched
      | media_plain => mret (plain (h_files args))
      | media_json => mret (json (h_files args))
      end
  end.

(** [files.filter(function (filename, index, list) {...})]. *)
Definition apply_filter (f : Filter) (files : list jsstring) (path : jsstring)
    : list jsstring :=
  omap (fun '(index, filename) =>
          if f filename index files path then Some filename else None)
       (imap (fun index filename => (index, filename)) files).

(** What is left of the names [readdir] gave after [removeHidden] and the
    filter. *)
Definition visible (files : list jsstring) (path : jsstring) : list jsstring :=
  let files1 := if negb (ServeIndex.hidden self) then removeHidden files else files in
  match ServeIndex.filter self with
  | Some f => apply_filter f files1 path
  | None => files1
  end.

(** The entry names [serve] hands to the handler: [files.sort()]. *)
Definition listed (files : list jsstring) (path : jsstring) : list jsstring :=
  Array_sort code_unit_compare (visible files path).

(** [path] as [serve] computes it from the decoded pathname. *)
Definition resolved_path (dir : jsstring) : jsstring :=
  Path.normalize (ServeIndex.pathLib self)
    (Path.join (ServeIndex.pathLib self) [ServeIndex.rootPath self; dir]).

(** The guard against a malicious path. *)
Definition outside_root (path : jsstring) : bool :=
  negb (str_eqb (substr0 (path ++ Path.sep (ServeIndex.pathLib self))
                         (length (ServeIndex.rootPath self)))
                (ServeIndex.rootPath self)).

(** [showUp]. *)
Definition show_up (path : jsstring) : bool :=
  negb (str_eqb (Path.normalize (ServeIndex.pathLib self)
                   (Path.resolve (ServeIndex.pathLib self) [path]
                    ++ Path.sep (ServeIndex.pathLib self)))
                (ServeIndex.rootPath self)).

(** The function [serve] of [serveIndex(root, options)]. *)
Definition serve (ov : Overrides) (req : Request) (sched : list nat) : M Outcome :=
  if negb (str_eqb (method req) (js "GET")) && negb (str_eqb (method req) (js "HEAD"))
  then
    mret (responded
            {| statusCode :=
                 Some (if str_eqb (js "OPTIONS") (method req) then 200 else 405);
               headers := [ (js "Allow", hv_string (js "GET, HEAD, OPTIONS"));
                            (js "Content-Length", hv_string (js "0")) ];
               body := None |})
  else
    dir ← uri (decodeURIComponent (url_pathname req));
    originalDir ← uri (decodeURIComponent (originalUrl_pathname req));
    let path := resolved_path dir in
    if negb (Z.eqb (Z.lnot (indexOf path [0%N])) 0)
    then mret (next (Some (createError 400)))
    else if outside_root path
    then mret (next (Some (createError 403)))
    else
      let showUp := show_up path in
      _ ← log_call (via_filesystem, op_stat path);
      match stat (ServeIndex.filesystem self) path with
      | inl err =>
          if code_is err (js "ENOENT") then mret (next None)
          else mret (next (Some (set_status err
                       (if code_is err (js "ENAMETOOLONG") then 414 else 500))))
      | inr st =>
          if negb (isDirectory st) then mret (next None)
          else
            _ ← log_call (via_filesystem, op_readdir path);
            match readdir (ServeIndex.filesystem self) path with
            | inl err => mret (next (Some err))
            | inr files =>
                let files' := listed files path in
                match accepts_type req mediaTypes with
                | None => mret (next (Some (createError 406)))
                | Some type =>
                    match mediaType type with
                    | None => throw (TypeError (js "Cannot read properties of undefined"))
                    | Some media =>
                        handler ov media req
                          {| h_files := files';
                             h_dir := originalDir;
                             h_showUp := showUp;
                             h_displayIcons := ServeIndex.showIcons self;
                             h_path := path;
                             h_view := ServeIndex.view self;
                             h_template := ServeIndex.template self;
                             h_stylesheet := ServeIndex.stylesheet self;
                             h_filesystem := ServeIndex.filesystem self |}
                          sched
                    end
                end
            end
      end.
End Handlers.

(** [serveIndex(root, options)]: the middleware, or what the constructor
    throws. *)
Definition serveIndex `{Host} (root : jsstring) (options : Options)
    : Exn + (Overrides -> Request -> list nat -> M Outcome) :=
  match new_ServeIndex root options with
  | inl e => inl e
  | inr instance => inr (serve instance)
  end.

(** ** A small world to run the middleware in *)

Module Example.
Definition ascii_lower (s : jsstring) : jsstring :=
  (fun c => if N.leb 65 c && N.leb c 90 then (c + 32)%N else c) <$> s.

Definition ENOENT : Err :=
  {| err_code := Some (js "ENOENT"); err_status := None;
     err_message := js "no such file or directory" |}.

Definition EACCES : Err :=
  {| err_code := Some (js "EACCES"); err_status := None;
     err_message := js "permission denied" |}.

Definition ENAMETOOLONG : Err :=
  {| err_code := Some (js "ENAMETOOLONG"); err_status := None;
     err_message := js "name too long" |}.

Definition a_directory : Stats :=
  {| isDirectory := true; size := 4096; mtime := Some 0 |}.

Definition a_file (n : Z) : Stats :=
  {| isDirectory := false; size := n; mtime := Some 0 |}.

(** A disk given by its directories, with their entries, and its files,
    with their contents; paths are looked up without a trailing slash. *)
Definition disk_of (dirs : list (jsstring * list jsstring))
    (files : list (jsstring * jsstring)) : FileSystem :=
  let key p := Posix.resolve (js "/") [p] in
  let dir_of p := snd <$> list_find (fun d => str_eqb (fst d) (key p) = true) dirs in
  let file_of p := snd <$> list_find (fun f => str_eqb (fst f) (key p) = true) files in
  let read p := match file_of p with
                | Some (_, data) => inr data
                | None => inl ENOENT
                end in
  {| stat := fun p =>
       match dir_of p, file_of p with
       | Some _, _ => inr a_directory
       | None, Some (_, data) => inr (a_file (Z.of_nat (length data)))
       | None, None => inl ENOENT
       end;
     readdir := fun p =>
       match dir_of p with
       | Some (_, entries) => inr entries
       | None => inl ENOENT
       end;
     readFile := read;
     readFileSync := read |}.

(** [/srv/www] holds the files [a.txt] and [.secret] and the directory [b],
    which holds the file [c.txt]. *)
Definition www : FileSystem :=
  disk_of [ (js "/srv/www", [js "b"; js "a.txt"; js ".secret"]);
            (js "/srv/www/b", [js "c.txt"]) ]
          [ (js "/srv/www/a.txt", js "hello");
            (js "/srv/www/.secret", js "x");
            (js "/srv/www/b/c.txt", js "bye") ].

(** The files of the package itself. *)
Definition package : FileSystem :=
  disk_of []
    [ (js "/app/public/style.css", js "body{}");
      (js "/app/public/directory.html",
       js "<style>{style}</style><h1>{linked-path}</h1>{files}");
      (js "/app/public/icons/folder.png", js "Rk9MREVS");
      (js "/app/public/icons/page_white_text.png", js "VEVYVA==");
      (js "/app/public/icons/page_white.png", js "UEFHRQ==") ].

#[export] Instance host : Host :=
  {| fs := package;
     nativePathLib := Posix.lib (js "/app");
     __dirname := js "/app";
     mime_lookup := fun ext =>
       if str_eqb ext (js ".txt") then Some (js "text/plain") else None;
     prototype_toString := fun name =>
       if str_eqb name (js "__proto__") then js "[object Object]"
       else if str_eqb name (js "constructor")
       then js "function Object() { [native code] }"
       else js "function " ++ name ++ js "() { [native code] }";
     toLocaleLowerCase := ascii_lower;
     localeCompare := code_unit_compare;
     toLocaleDateString := number_to_string;
     toLocaleTimeString := number_to_string |}.

Definition options : Options :=
  {| opts_path := None; opts_filter := None; opts_hidden := false;
     opts_icons := false; opts_stylesheet := None; opts_template := None;
     opts_view := None; opts_fs := Some www |}.

(** [new ServeIndex('/srv/www', { fs: www })]. *)
Definition instance : ServeIndex.t :=
  {| ServeIndex.pathLib := Posix.lib (js "/app");
     ServeIndex.rootPath := js "/srv/www/";
     ServeIndex.filter := None;
     ServeIndex.hidden := false;
     ServeIndex.showIcons := false;
     ServeIndex.stylesheet := js "/app/public/style.css";
     ServeIndex.template := template_path (js "/app/public/directory.html");
     ServeIndex.view := js "tiles";
     ServeIndex.filesystem := www |}.

(** A [GET] of [pathname] accepting [type]. *)
Definition get (pathname type : jsstring) : Request :=
  {| method := js "GET";
     url_pathname := pathname;
     originalUrl_pathname := pathname;
     accepts_type := fun types => if bool_decide (type ∈ types) then Some type else None |}.

Definition world0 : World := {| cache := ∅; fs_log := [] |}.


(** The arguments [serve] gives the handler for [/b], with the filesystem
    object, the template and the stylesheet left open. *)
Definition args_b (filesystem : FileSystem) (template : Template)
    (stylesheet : jsstring) : HandlerArgs :=
  {| h_files := [js "c.txt"];
     h_dir := js "/b";
     h_showUp := true;
     h_displayIcons := false;
     h_path := js "/srv/www/b";
     h_view := js "tiles";
     h_template := template;
     h_stylesheet := stylesheet;
     h_filesystem := filesystem |}.

End Example.

(** ** Notions the specification speaks of *)

(** A percent sign that is not followed by two hexadecimal digits. *)
Definition invalid_percent_encoding (s : jsstring) : Prop :=
  exists pre post,
    s = pre ++ PERCENT :: post
    /\ match post with
       | h1 :: h2 :: _ => parse_hex_octet h1 h2 = None
       | _ => True
       end.

(** The order the specification gives the entries of a listing, "Sorter's
    order": the names, each with the metadata of its file, sorted with
    [fileSort]. *)
Definition spec_sorter_order `{Host} (self : ServeIndex.t) (path : jsstring)
    (names : list jsstring) : list jsstring :=
  File.name <$>
    Array_sort fileSort
      ((fun name =>
          {| File.name := name;
             File.stat :=
               match stat (ServeIndex.filesystem self)
                          (Path.join (ServeIndex.pathLib self) [path; name]) with
               | inr st => md_stats st
               | inl _ => md_null
               end |}) <$> names).

(** The filesystem calls the middleware makes: [stat] and [readdir] through
    [filesystem], [readFile] and [readFileSync] through [fs]. *)
Definition allowed_call (c : FsCall) : Prop :=
  match c with
  | (via_filesystem, op_stat _) => True
  | (via_filesystem, op_readdir _) => True
  | (via_fs, op_readFile _) => True
  | (via_fs, op_readFileSync _) => True
  | _ => False
  end.

(** A computation that adds only such calls to the log. *)
Definition logs_allowed {A} (m : M A) : Prop :=
  forall w, exists new, fs_log (m w).2 = fs_log w ++ new /\ Forall allowed_call new.

(** The same instance with another filesystem object. *)
Definition with_filesystem (self : ServeIndex.t) (filesystem : FileSystem)
    : ServeIndex.t :=
  {| ServeIndex.pathLib := ServeIndex.pathLib self;
     ServeIndex.rootPath := ServeIndex.rootPath self;
     ServeIndex.filter := ServeIndex.filter self;
     ServeIndex.hidden := ServeIndex.hidden self;
     ServeIndex.showIcons := ServeIndex.showIcons self;
     ServeIndex.stylesheet := ServeIndex.stylesheet self;
     ServeIndex.template := ServeIndex.template self;
     ServeIndex.view := ServeIndex.view self;
     ServeIndex.filesystem := filesystem |}.

(** A segment [path.posix] keeps when it normalizes an absolute path: not
    empty, not [.], not [..], and without a slash. *)
Definition clean_segment (seg : jsstring) : Prop :=
  seg <> [] /\ seg <> [Posix.DOT] /\ seg <> [Posix.DOT; Posix.DOT]
  /\ Posix.SLASH ∉ seg.

(** What [normalize] makes of an absolute normalized path [/n] with a slash
    appended. *)
Definition with_trailing_slash (n : jsstring) : jsstring :=
  if Posix.is_empty n then [Posix.SLASH] else Posix.SLASH :: n ++ [Posix.SLASH].

(** Every rule [iconStyle] has written is a non-empty string. *)
Definition rules_filled (acc : IconRules) : Prop :=
  forall k v, rules acc !! k = Some v -> v <> [].

(** The call [load] makes for the icon [v]. *)
Definition icon_read `{Host} (v : Value) : FsCall :=
  (via_fs, op_readFileSync (__dirname ++ js "/public/icons/" ++ to_string v)).

(** The icon [iconStyle] gives an entry. *)
Definition file_icon `{Host} (self : ServeIndex.t) (file : File.t) : Icon :=
  if is_dir (File.stat file)
  then {| className := js "icon-directory"; fileName := v_string icons_folder |}
  else iconLookup self (File.name file).

(** Neither the extension of [filename], nor the media type the host's
    table gives for it, nor the top-level part of that type is the name of
    a property of [Object.prototype]. *)
Definition plain_lookup `{Host} (self : ServeIndex.t) (filename : jsstring) : Prop :=
  let ext := Path.extname (ServeIndex.pathLib self) filename in
  inherited ext = false
  /\ forall mimetype, mime_lookup ext = Some mimetype ->
       inherited mimetype = false
       /\ inherited (default [] (head (split_on 47 mimetype))) = false.

(** [v] is the name of an image of the [icons] table. *)
Definition table_image (v : Value) : Prop :=
  exists key name, icons !! key = Some name /\ name <> [] /\ v = v_string name.

(** The path a filesystem call is made with. *)
Definition op_path (op : FsOp) : jsstring :=
  match op with
  | op_stat p | op_readdir p | op_readFile p | op_readFileSync p => p
  end.

(** The segments [normalizeString] keeps of an absolute path. *)
Definition kept_segments (path : jsstring) : list jsstring :=
  rev (fold_left (Posix.normalize_segment false) (split_on Posix.SLASH path) []).

(** The absolute path with the segments [segs], with or without a slash
    at its end; [/] when there is no segment. *)
Definition absolute_path (segs : list jsstring) (trailing : bool) : jsstring :=
  match segs with
  | [] => [Posix.SLASH]
  | _ => Posix.SLASH :: join_with [Posix.SLASH] segs
         ++ (if trailing then [Posix.SLASH] else [])
  end.

(** [p] is the normalized absolute path of the directory with the segments
    [root], or of something below it. *)
Definition at_or_below (root : list jsstring) (p : jsstring) : Prop :=
  exists extra trailing,
    Forall clean_segment extra /\ p = absolute_path (root ++ extra) trailing.

(** A computation all of whose filesystem calls are as [P] says. *)
Definition logs_within {A} (P : FsCall -> Prop) (m : M A) : Prop :=
  forall w, exists new, fs_log (m w).2 = fs_log w ++ new /\ Forall P new.

(** A call through the module-level [fs], or a call through [filesystem]
    at or below [root]. *)
Definition call_below (root : list jsstring) (c : FsCall) : Prop :=
  c.1 = via_filesystem -> at_or_below root (op_path c.2).

(** An entry as the pipeline builds it: its metadata is a stat record or
    [null], never [undefined]. *)
Definition has_metadata (a : File.t) : Prop := File.stat a <> md_undefined.

(** [a] does not sort after [b]. *)
Definition file_le `{Host} (a b : File.t) : Prop := fileSort a b <= 0.

(** [a] and [b] tie under [fileSort]. *)
Definition file_tie `{Host} (a b : File.t) : bool := Z.eqb (fileSort a b) 0.

(** * Theorems *)

(** ** Strings *)

Lemma str_eqb_eq (a b : jsstring) : str_eqb a b = true <-> a = b.
Proof. unfold str_eqb. apply bool_decide_eq_true. Qed.

Lemma str_eqb_neq (a b : jsstring) : str_eqb a b = false <-> a <> b.
Proof. unfold str_eqb. apply bool_decide_eq_false. Qed.

Lemma str_eqb_refl (a : jsstring) : str_eqb a a = true.
Proof. by apply str_eqb_eq. Qed.

Lemma indexOf_from_lower (s : jsstring) (c : N) (i : Z) :
  indexOf_from i s [c] = -1 \/ i <= indexOf_from i s [c].
Proof.
  revert i. induction s as [|x s IH]; intros i; simpl; [by left|].
  destruct (N.eqb c x); simpl; [right; lia|].
  destruct (IH (i + 1)) as [->|?]; [by left | right; lia].
Qed.

(** [s.indexOf(c)] is [-1] exactly when [c] does not occur in [s]. *)
Lemma indexOf_char_absent (s : jsstring) (c : N) (i : Z) :
  0 <= i -> (indexOf_from i s [c] = -1 <-> c ∉ s).
Proof.
  revert i. induction s as [|x s IH]; intros i Hi; simpl.
  - split; [intros _; apply not_elem_of_nil | done].
  - destruct (N.eqb_spec c x) as [->|Hne]; simpl.
    + split; [lia | intros Hn; exfalso; apply Hn; left].
    + rewrite IH by lia. rewrite not_elem_of_cons. tauto.
Qed.

(** The test [~path.indexOf('\0')] of [serve]. *)
Lemma nul_test (path : jsstring) :
  negb (Z.eqb (Z.lnot (indexOf path [0%N])) 0) = bool_decide (0%N ∈ path).
Proof.
  unfold indexOf.
  pose proof (indexOf_char_absent path 0%N 0 ltac:(lia)) as Habs.
  pose proof (indexOf_from_lower path 0%N 0) as Hlow.
  destruct (decide (0%N ∈ path)) as [Hin|Hout].
  - rewrite (bool_decide_eq_true_2 _ Hin).
    assert (indexOf_from 0 path [0%N] <> -1) by (intros E; by apply Habs in E).
    destruct Hlow as [?|Hlow]; [done|].
    apply negb_true_iff, Z.eqb_neq. unfold Z.lnot. lia.
  - rewrite (bool_decide_eq_false_2 _ Hout).
    apply Habs in Hout. rewrite Hout. reflexivity.
Qed.

(** ** The steps of [serve] *)

Section ServeSteps.
Context `{Host} (self : ServeIndex.t).

Lemma method_allowed (req : Request) :
  method req = js "GET" \/ method req = js "HEAD" ->
  negb (str_eqb (method req) (js "GET")) && negb (str_eqb (method req) (js "HEAD"))
  = false.
Proof.
  intros [-> | ->]; [by rewrite str_eqb_refl | by rewrite str_eqb_refl, andb_false_r].
Qed.

(** A [GET] or [HEAD] whose two pathnames decode gets to the checks on
    the resolved path, and one that passes them to the [stat] of it. *)
Lemma serve_to_stat ov req sched w dir originalDir :
  method req = js "GET" \/ method req = js "HEAD" ->
  decodeURIComponent (url_pathname req) = Some dir ->
  decodeURIComponent (originalUrl_pathname req) = Some originalDir ->
  0%N ∉ resolved_path self dir ->
  outside_root self (resolved_path self dir) = false ->
  serve self ov req sched w =
  let path := resolved_path self dir in
  let w1 := {| cache := cache w; fs_log := fs_log w ++ [(via_filesystem, op_stat path)] |} in
  match stat (ServeIndex.filesystem self) path with
  | inl err =>
      (inr (if code_is err (js "ENOENT") then next None
            else next (Some (set_status err
                   (if code_is err (js "ENAMETOOLONG") then 414 else 500)))), w1)
  | inr st =>
      if negb (isDirectory st) then (inr (next None), w1)
      else
        let w2 := {| cache := cache w;
                     fs_log := fs_log w1 ++ [(via_filesystem, op_readdir path)] |} in
        match readdir (ServeIndex.filesystem self) path with
        | inl err => (inr (next (Some err)), w2)
        | inr files =>
            match accepts_type req mediaTypes with
            | None => (inr (next (Some (createError 406))), w2)
            | Some type =>
                match mediaType type with
                | None => (inl (TypeError (js "Cannot read properties of undefined")), w2)
                | Some media =>
                    handler self ov media req
                      {| h_files := listed self files path;
                         h_dir := originalDir;
                         h_showUp := show_up self path;
                         h_displayIcons := ServeIndex.showIcons self;
                         h_path := path;
                         h_view := ServeIndex.view self;
                         h_template := ServeIndex.template self;
                         h_stylesheet := ServeIndex.stylesheet self;
                         h_filesystem := ServeIndex.filesystem self |}
                      sched w2
                end
            end
        end
  end.
Proof.
  intros Hm Hd Ho Hnul Hin. unfold serve.
  rewrite (method_allowed _ Hm), Hd, Ho. cbn [uri].
  unfold mbind, M_bind, mret, M_ret. cbn beta iota.
  rewrite nul_test, (bool_decide_eq_false_2 _ Hnul), Hin.
  unfold log_call. cbn beta iota.
  destruct (stat (ServeIndex.filesystem self) (resolved_path self dir)) as [err|st].
  - by destruct (code_is err (js "ENOENT")).
  - destruct (negb (isDirectory st)); [done|]. cbn beta iota.
    destruct (readdir (ServeIndex.filesystem self) (resolved_path self dir)) as [err|files];
      [done|].
    destruct (accepts_type req mediaTypes) as [type|]; [|done].
    by destruct (mediaType type).
Qed.
End ServeSteps.

(** ** C1: paths that resolve outside the root *)

(** C1, as amended.  A [GET] or [HEAD] request whose pathnames percent-decode
    and whose resolved path -- the decoded pathname joined to the root and
    normalized -- holds no NUL and, with the separator appended, does not
    begin with the root path, is answered [next(createError(403))] without
    any filesystem call.  The comparison is the literal one,
    [(path + sep).substr(0, rootPath.length) !== rootPath], on the final
    normalized string, so the number of [..] segments plays no part. *)
Theorem serve_outside_root_403 `{Host} (self : ServeIndex.t) (ov : Overrides)
    (req : Request) (sched : list nat) (w : World) (dir originalDir : jsstring) :
  method req = js "GET" \/ method req = js "HEAD" ->
  decodeURIComponent (url_pathname req) = Some dir ->
  decodeURIComponent (originalUrl_pathname req) = Some originalDir ->
  0%N ∉ resolved_path self dir ->
  substr0 (resolved_path self dir ++ Path.sep (ServeIndex.pathLib self))
          (length (ServeIndex.rootPath self))
  <> ServeIndex.rootPath self ->
  serve self ov req sched w = (inr (next (Some (createError 403))), w).
Proof.
  intros Hm Hd Ho Hnul Hout. unfold serve.
  rewrite (method_allowed _ Hm), Hd, Ho. cbn [uri].
  unfold mbind, M_bind, mret, M_ret. cbn beta iota.
  rewrite nul_test, (bool_decide_eq_false_2 _ Hnul).
  unfold outside_root. apply str_eqb_neq in Hout. by rewrite Hout.
Qed.

(** The request [/../../etc/passwd] against the root [/srv/www]. *)
Lemma serve_outside_root_403_witness :
  serve (H := Example.host) Example.instance no_overrides
    (Example.get (js "/../../etc/passwd") (js "text/html")) [] Example.world0
  = (inr (next (Some (createError 403))), Example.world0).
Proof.
  apply (serve_outside_root_403 (H := Example.host) Example.instance no_overrides _ [] Example.world0
           (js "/../../etc/passwd") (js "/../../etc/passwd")).
  - by left.
  - by vm_compute.
  - by vm_compute.
  - apply (bool_decide_eq_false_1 (0%N ∈ _)). by vm_compute.
  - apply str_eqb_neq. by vm_compute.
Defined.

(** C1 as stated fails on a path that holds a NUL: [/../%00] resolves to
    [/srv/] followed by NUL, outside the root [/srv/www/], and the request
    is answered with the status 400 of the NUL check, which comes first. *)
Lemma serve_outside_root_nul_400 :
  outside_root Example.instance
    (resolved_path Example.instance (js "/../" ++ [0%N])) = true
  /\ decodeURIComponent (js "/../%00") = Some (js "/../" ++ [0%N])
  /\ serve (H := Example.host) Example.instance no_overrides
       (Example.get (js "/../%00") (js "text/html")) [] Example.world0
     = (inr (next (Some (createError 400))), Example.world0)
  /\ err_status (createError 400) <> err_status (createError 403).
Proof. repeat split; by vm_compute. Qed.

(** ** C5: what [serve] does with the [stat] of the resolved path *)

Lemma code_is_eq (err : Err) (code : jsstring) :
  code_is err code = true <-> err_code err = Some code.
Proof.
  unfold code_is. destruct (err_code err) as [c|]; [|done].
  rewrite str_eqb_eq. split; congruence.
Qed.

Lemma code_is_distinct (err : Err) (c1 c2 : jsstring) :
  c1 <> c2 -> code_is err c1 = true -> code_is err c2 = false.
Proof.
  intros Hne H1. apply code_is_eq in H1. unfold code_is. rewrite H1.
  by apply str_eqb_neq.
Qed.

(** C5.  Once a request has passed the checks on its path, the [stat] of the
    resolved path decides: on an ENOENT error, and on a path that is not a
    directory, [next()] is called with no error and nothing is sent; on an
    ENAMETOOLONG error [next(err)] is called with [err.status] 414; on any
    other error with [err.status] 500.  The error handed on is the one
    [stat] gave, its code and message as they were.  The [stat] is the only
    filesystem call made. *)
Theorem serve_stat_outcomes `{Host} (self : ServeIndex.t) (ov : Overrides)
    (req : Request) (sched : list nat) (w : World) (dir originalDir : jsstring) :
  method req = js "GET" \/ method req = js "HEAD" ->
  decodeURIComponent (url_pathname req) = Some dir ->
  decodeURIComponent (originalUrl_pathname req) = Some originalDir ->
  0%N ∉ resolved_path self dir ->
  outside_root self (resolved_path self dir) = false ->
  let path := resolved_path self dir in
  let w1 := {| cache := cache w;
               fs_log := fs_log w ++ [(via_filesystem, op_stat path)] |} in
  (forall err, stat (ServeIndex.filesystem self) path = inl err ->
     code_is err (js "ENOENT") = true ->
     serve self ov req sched w = (inr (next None), w1))
  /\ (forall st, stat (ServeIndex.filesystem self) path = inr st ->
        isDirectory st = false ->
        serve self ov req sched w = (inr (next None), w1))
  /\ (forall err, stat (ServeIndex.filesystem self) path = inl err ->
        code_is err (js "ENAMETOOLONG") = true ->
        serve self ov req sched w = (inr (next (Some (set_status err 414))), w1))
  /\ (forall err, stat (ServeIndex.filesystem self) path = inl err ->
        code_is err (js "ENOENT") = false ->
        code_is err (js "ENAMETOOLONG") = false ->
        serve self ov req sched w = (inr (next (Some (set_status err 500))), w1))
  /\ (forall err status,
        err_status (set_status err status) = Some status
        /\ err_code (set_status err status) = err_code err
        /\ err_message (set_status err status) = err_message err).
Proof.
  intros Hm Hd Ho Hnul Hin path w1.
  pose proof (serve_to_stat self ov req sched w dir originalDir Hm Hd Ho Hnul Hin) as E.
  cbn zeta in E. fold path in E. fold w1 in E.
  repeat split.
  - intros err Hs Hc. by rewrite E, Hs, Hc.
  - intros st Hs Hd'. by rewrite E, Hs, Hd'.
  - intros err Hs Hc. rewrite E, Hs, Hc.
    by rewrite (code_is_distinct err (js "ENAMETOOLONG") (js "ENOENT")).
  - intros err Hs Hc1 Hc2. by rewrite E, Hs, Hc1, Hc2.
Qed.

(** The directory [/srv/www/a.txt] is a file: the request for it is handed
    on. *)
Lemma serve_stat_outcomes_witness :
  serve (H := Example.host) Example.instance no_overrides
    (Example.get (js "/a.txt") (js "text/html")) [] Example.world0
  = (inr (next None),
     {| cache := ∅; fs_log := [(via_filesystem, op_stat (js "/srv/www/a.txt"))] |}).
Proof.
  pose proof (serve_stat_outcomes (H := Example.host) Example.instance no_overrides
                (Example.get (js "/a.txt") (js "text/html")) [] Example.world0
                (js "/a.txt") (js "/a.txt")) as T.
  destruct T as (_ & Hfile & _).
  - by left.
  - by vm_compute.
  - by vm_compute.
  - apply (bool_decide_eq_false_1 (0%N ∈ _)). by vm_compute.
  - by vm_compute.
  - apply (Hfile (Example.a_file 5)); by vm_compute.
Defined.

(** ** C8: pathnames that do not percent-decode *)

Lemma parse_hex_octet_not_percent (h1 h2 b : N) :
  parse_hex_octet h1 h2 = Some b -> h1 <> PERCENT /\ h2 <> PERCENT.
Proof.
  unfold parse_hex_octet. intros Hp.
  split; intros ->; [by vm_compute in Hp|].
  destruct (hex_value h1); by vm_compute in Hp.
Qed.

(** An escape that parses, in front of a string with a bad escape further
    on, lies wholly before that bad escape. *)
Lemma bad_escape_after_good (pre post rest : jsstring) (h1 h2 b : N) :
  PERCENT :: h1 :: h2 :: rest = pre ++ PERCENT :: post ->
  parse_hex_octet h1 h2 = Some b ->
  match post with
  | k1 :: k2 :: _ => parse_hex_octet k1 k2 = None
  | _ => True
  end ->
  exists pre', rest = pre' ++ PERCENT :: post.
Proof.
  intros E Hp Hbad. destruct (parse_hex_octet_not_percent _ _ _ Hp) as [Hn1 Hn2].
  destruct pre as [|p0 pre].
  { simpl in E. injection E as <-. by rewrite Hp in Hbad. }
  destruct pre as [|p1 pre].
  { simpl in E. by injection E as _ E1 _. }
  destruct pre as [|p2 pre].
  { simpl in E. by injection E as _ _ E2 _. }
  simpl in E. injection E as _ _ _ ->. by eexists.
Qed.

Lemma continuation_octets_keeps_bad (n : nat) (s pre post rest : jsstring) (bs : list N) :
  s = pre ++ PERCENT :: post ->
  match post with
  | k1 :: k2 :: _ => parse_hex_octet k1 k2 = None
  | _ => True
  end ->
  continuation_octets n s = Some (bs, rest) ->
  exists pre', rest = pre' ++ PERCENT :: post.
Proof.
  revert s pre rest bs. induction n as [|n IH]; intros s pre rest bs -> Hbad Hc; simpl in Hc.
  - simplify_eq. by eexists.
  - destruct (pre ++ PERCENT :: post) as [|p [|h1 [|h2 r]]] eqn:E; try done.
    destruct (N.eqb_spec p PERCENT) as [->|]; [|done].
    destruct (parse_hex_octet h1 h2) as [b|] eqn:Hp; [|done].
    destruct (continuation_octets n r) as [[bs' rest']|] eqn:Hc'; [|done].
    injection Hc as <- <-.
    destruct (bad_escape_after_good pre post r h1 h2 b) as [pre' Hr]; [done..|].
    by eapply (IH r pre').
Qed.

(** Decode throws on a string with a bad escape. *)
Lemma decode_invalid (s : jsstring) :
  invalid_percent_encoding s -> decodeURIComponent s = None.
Proof.
  intros (pre & post & E & Hbad). unfold decodeURIComponent.
  generalize (length s). intros fuel. revert s pre E.
  induction fuel as [|fuel IH]; intros s pre ->; simpl.
  - by destruct pre.
  - destruct (pre ++ PERCENT :: post) as [|c rest] eqn:E; [by destruct pre|].
    destruct (N.eqb_spec c PERCENT) as [->|Hc]; simpl.
    + destruct rest as [|h1 [|h2 rest']]; try done.
      destruct (parse_hex_octet h1 h2) as [b|] eqn:Hp; [|done].
      destruct (bad_escape_after_good pre post rest' h1 h2 b) as [pre' ->]; [done..|].
      clear E.
      destruct (leading_ones b) as [|n'].
      * by rewrite (IH _ pre').
      * destruct (bool_decide (n' = 0%nat) || bool_decide (3 < n')%nat); [done|].
        destruct (continuation_octets n' _) as [[conts rest'']|] eqn:Hco; [|done].
        destruct (utf8_decode b conts); [|done].
        destruct (continuation_octets_keeps_bad _ _ _ _ _ _ eq_refl Hbad Hco)
          as [pre'' ->].
        by rewrite (IH _ pre'').
    + destruct pre as [|p pre']; simplify_eq/=. by rewrite (IH _ pre').
Qed.

(** C8.  A [GET] or [HEAD] request whose pathname -- [url.pathname], or
    [originalUrl.pathname] when the first decodes -- has a percent sign not
    followed by two hexadecimal digits makes the handler throw the URIError
    of [decodeURIComponent]: nothing is sent, [next] is not called, and no
    filesystem call has been made.  [/%zz] is such a pathname. *)
Theorem serve_throws_URIError `{Host} (self : ServeIndex.t) (ov : Overrides)
    (req : Request) (sched : list nat) (w : World) :
  method req = js "GET" \/ method req = js "HEAD" ->
  invalid_percent_encoding (url_pathname req)
  \/ (is_Some (decodeURIComponent (url_pathname req))
      /\ invalid_percent_encoding (originalUrl_pathname req)) ->
  serve self ov req sched w = (inl URIError, w)
  /\ invalid_percent_encoding (js "/%zz").
Proof.
  intros Hm Hbad. split.
  - unfold serve. rewrite (method_allowed _ Hm).
    destruct Hbad as [Hbad | [[dir Hd] Hbad]].
    + by rewrite (decode_invalid _ Hbad).
    + by rewrite Hd, (decode_invalid _ Hbad).
  - exists (js "/"), (js "zz"). by vm_compute.
Qed.

(** [GET /%zz]. *)
Lemma serve_throws_URIError_witness :
  serve (H := Example.host) Example.instance no_overrides
    (Example.get (js "/%zz") (js "text/html")) [] Example.world0
  = (inl URIError, Example.world0).
Proof.
  apply (serve_throws_URIError (H := Example.host) Example.instance no_overrides
           (Example.get (js "/%zz") (js "text/html")) [] Example.world0).
  - by left.
  - left. exists (js "/"), (js "zz"). by vm_compute.
Defined.

(** ** [Array.prototype.sort] with a consistent comparison function *)

Section SortFacts.
Context {A : Type} (P : A -> Prop) (cmp : A -> A -> Z).
Hypothesis cmp_anti : forall a b, P a -> P b -> (cmp a b < 0 <-> 0 < cmp b a).
Hypothesis cmp_trans :
  forall a b c, P a -> P b -> P c -> cmp a b <= 0 -> cmp b c <= 0 -> cmp a c <= 0.

Lemma sort_insert_perm (x : A) (l : list A) : sort_insert cmp x l ≡ₚ x :: l.
Proof.
  induction l as [|y l IH]; simpl; [done|].
  destruct (Z.leb (cmp x y) 0); [done|].
  by rewrite IH, Permutation_swap.
Qed.

Lemma Array_sort_perm (l : list A) : Array_sort cmp l ≡ₚ l.
Proof.
  induction l as [|x l IH]; simpl; [done|].
  by rewrite sort_insert_perm, IH.
Qed.

Lemma Array_sort_Forall (Q : A -> Prop) (l : list A) :
  Forall Q l -> Forall Q (Array_sort cmp l).
Proof. intros HQ. by rewrite Array_sort_perm. Qed.

Lemma sort_insert_sorted (x : A) (l : list A) :
  P x -> Forall P l ->
  StronglySorted (fun a b => cmp a b <= 0) l ->
  StronglySorted (fun a b => cmp a b <= 0) (sort_insert cmp x l).
Proof.
  intros Hx HP Hs. induction l as [|y l IH]; simpl.
  - repeat constructor.
  - apply Forall_cons in HP as [Hy HP].
    apply StronglySorted_cons in Hs as [Hyl Hs].
    destruct (Z.leb_spec (cmp x y) 0) as [Hle|Hgt].
    + apply StronglySorted_cons. split; [|by apply StronglySorted_cons].
      constructor; [done|].
      rewrite Forall_forall in Hyl, HP |- *. intros z Hz.
      eapply (cmp_trans x y z); eauto.
    + apply StronglySorted_cons. split; [|by apply IH].
      rewrite sort_insert_perm. constructor; [|done].
      assert (cmp y x < 0) by (apply cmp_anti; [done..|lia]). lia.
Qed.

Lemma Array_sort_sorted (l : list A) :
  Forall P l -> StronglySorted (fun a b => cmp a b <= 0) (Array_sort cmp l).
Proof.
  induction l as [|x l IH]; intros HP; simpl; [constructor|].
  apply Forall_cons in HP as [Hx HP].
  apply sort_insert_sorted; [done| by apply Array_sort_Forall | by apply IH].
Qed.

Lemma cmp_tie_sym (a b : A) : P a -> P b -> cmp a b = 0 -> cmp b a = 0.
Proof.
  intros Ha Hb E.
  pose proof (cmp_anti a b Ha Hb). pose proof (cmp_anti b a Hb Ha). lia.
Qed.

(** Elements that tie with [x] are not passed by one another. *)
Lemma sort_insert_stable (x a : A) (l : list A) :
  P x -> P a -> Forall P l ->
  List.filter (fun y => Z.eqb (cmp x y) 0) (sort_insert cmp a l)
  = List.filter (fun y => Z.eqb (cmp x y) 0) (a :: l).
Proof.
  intros Hx Ha HP. induction l as [|y l IH]; [done|].
  apply Forall_cons in HP as [Hy HP]. cbn [sort_insert].
  destruct (Z.leb_spec (cmp a y) 0) as [Hle|Hgt]; [done|].
  cbn [List.filter] in *. rewrite (IH HP).
  destruct (Z.eqb_spec (cmp x a) 0) as [Ea|]; [|done].
  destruct (Z.eqb_spec (cmp x y) 0) as [Ey|]; [|done].
  exfalso.
  pose proof (cmp_tie_sym x a Hx Ha Ea).
  pose proof (cmp_trans a x y Ha Hx Hy). lia.
Qed.

Lemma Array_sort_stable (x : A) (l : list A) :
  P x -> Forall P l ->
  List.filter (fun y => Z.eqb (cmp x y) 0) (Array_sort cmp l)
  = List.filter (fun y => Z.eqb (cmp x y) 0) l.
Proof.
  intros Hx. induction l as [|a l IH]; intros HP; [done|].
  apply Forall_cons in HP as [Ha HP]. cbn [Array_sort].
  rewrite sort_insert_stable; [|done..|by apply Array_sort_Forall].
  cbn [List.filter]. by rewrite (IH HP).
Qed.
End SortFacts.

(** The default comparison is consistent. *)
Lemma code_unit_compare_anti (a b : jsstring) :
  code_unit_compare a b = - code_unit_compare b a.
Proof.
  revert b. induction a as [|x a IH]; intros [|y b]; simpl; try done.
  rewrite (N.compare_antisym x y). destruct (N.compare x y); simpl; [apply IH|done..].
Qed.

Lemma code_unit_compare_range (a b : jsstring) :
  -1 <= code_unit_compare a b <= 1.
Proof.
  revert b. induction a as [|x a IH]; intros [|y b]; simpl; try lia.
  destruct (N.compare x y); [apply IH|lia..].
Qed.

Lemma code_unit_compare_trans (a b c : jsstring) :
  code_unit_compare a b <= 0 -> code_unit_compare b c <= 0 -> code_unit_compare a c <= 0.
Proof.
  revert b c. induction a as [|x a IH]; intros [|y b] [|z c]; simpl; try lia.
  destruct (N.compare_spec x y) as [->|Hxy|Hxy]; try lia.
  - destruct (N.compare_spec y z) as [->|Hyz|Hyz]; try lia. apply IH.
  - destruct (N.compare_spec y z) as [->|Hyz|Hyz]; try lia.
    + intros _ _. destruct (N.compare_spec x z); lia.
    + intros _ _. destruct (N.compare_spec x z); lia.
Qed.

Lemma code_unit_compare_eq (a b : jsstring) :
  code_unit_compare a b = 0 <-> a = b.
Proof.
  revert b. induction a as [|x a IH]; intros [|y b]; simpl; try done.
  destruct (N.compare_spec x y) as [->|Hxy|Hxy].
  - rewrite IH. split; congruence.
  - split; [lia|]. intros [= -> _]. lia.
  - split; [lia|]. intros [= -> _]. lia.
Qed.

(** ** C4: the order of [fileSort] *)

Section FileSortFacts.
Context `{Host}.
Hypothesis lc_anti : forall a b, localeCompare a b < 0 <-> 0 < localeCompare b a.
Hypothesis lc_trans : forall a b c,
  localeCompare a b <= 0 -> localeCompare b c <= 0 -> localeCompare a c <= 0.

Ltac file_cases a Ha :=
  let n := fresh "n" in let m := fresh "m" in let s := fresh "s" in
  let E := fresh "E" in
  destruct a as [n m]; unfold has_metadata in Ha; cbn [File.stat] in Ha;
  destruct (decide (n = DOTDOT)) as [E|E];
  [ subst n | ];
  (destruct m as [| |s]; [done| |destruct s as [[|] ? ?]]).

Ltac file_names :=
  unfold file_le, fileSort; cbn [File.name File.stat dir_number isDirectory];
  rewrite ?str_eqb_refl; cbn [orb andb];
  repeat match goal with
         | E : ?n <> DOTDOT |- _ =>
             lazymatch goal with
             | |- context [str_eqb n DOTDOT] =>
                 rewrite (proj2 (str_eqb_neq n DOTDOT) E)
             | |- context [str_eqb DOTDOT n] =>
                 rewrite (proj2 (str_eqb_neq DOTDOT n) (not_eq_sym E))
             end
         end; cbn [orb andb];
  change (1 - 0) with 1; change (0 - 1) with (-1);
  change (0 - 0) with 0; change (1 - 1) with 0; cbn [Z.eqb].

Lemma fileSort_anti (a b : File.t) :
  has_metadata a -> has_metadata b -> (fileSort a b < 0 <-> 0 < fileSort b a).
Proof.
  intros Ha Hb. file_cases a Ha; file_cases b Hb; file_names;
    try lia; apply lc_anti.
Qed.

Lemma fileSort_trans (a b c : File.t) :
  has_metadata a -> has_metadata b -> has_metadata c ->
  fileSort a b <= 0 -> fileSort b c <= 0 -> fileSort a c <= 0.
Proof.
  intros Ha Hb Hc. file_cases a Ha; file_cases b Hb; file_cases c Hc; file_names;
    try lia; apply lc_trans.
Qed.
End FileSortFacts.

(** C4.  Where the locale's comparison is a consistent one, [fileSort]
    is a total preorder on entries whose metadata is a stat record or
    [null]: any two entries are comparable and the order is transitive.  An
    entry named [..] comes before every entry that is not, and two such
    entries tie; of two other entries a directory comes before one that is
    not a directory, [null] metadata counting as not a directory; entries of
    the same kind are ordered as [localeCompare] orders their lower-cased
    names.  [fileList.sort(fileSort)] rearranges the list into that order
    and leaves entries that tie in the order they had. *)
Theorem fileSort_total_preorder `{Host} :
  (forall a b, localeCompare a b < 0 <-> 0 < localeCompare b a) ->
  (forall a b c,
     localeCompare a b <= 0 -> localeCompare b c <= 0 -> localeCompare a c <= 0) ->
  (forall a b, has_metadata a -> has_metadata b -> file_le a b \/ file_le b a)
  /\ (forall a b c, has_metadata a -> has_metadata b -> has_metadata c ->
        file_le a b -> file_le b c -> file_le a c)
  /\ (forall a b, File.name a = DOTDOT -> File.name b = DOTDOT -> fileSort a b = 0)
  /\ (forall a b, File.name a = DOTDOT -> File.name b <> DOTDOT ->
        fileSort a b < 0 /\ 0 < fileSort b a)
  /\ (forall a b, File.name a <> DOTDOT -> File.name b <> DOTDOT ->
        has_metadata a -> has_metadata b ->
        is_dir (File.stat a) = true -> is_dir (File.stat b) = false ->
        fileSort a b < 0 /\ 0 < fileSort b a)
  /\ (forall a b, File.name a <> DOTDOT -> File.name b <> DOTDOT ->
        has_metadata a -> has_metadata b ->
        is_dir (File.stat a) = is_dir (File.stat b) ->
        fileSort a b = localeCompare (toLocaleLowerCase (File.name a))
                                     (toLocaleLowerCase (File.name b)))
  /\ (forall l, Forall has_metadata l ->
        Array_sort fileSort l ≡ₚ l
        /\ StronglySorted file_le (Array_sort fileSort l)
        /\ forall x, has_metadata x ->
             List.filter (file_tie x) (Array_sort fileSort l)
             = List.filter (file_tie x) l).
Proof.
  intros lc_anti lc_trans.
  split; [|split; [|split; [|split; [|split; [|split]]]]].
  - intros a b Ha Hb. unfold file_le.
    pose proof (fileSort_anti lc_anti a b Ha Hb). lia.
  - intros a b c. unfold file_le. by apply fileSort_trans.
  - intros [n m] [n' m']; cbn [File.name]; intros -> ->. unfold fileSort.
    cbn [File.name]. by rewrite !str_eqb_refl.
  - intros [n m] [n' m']; cbn [File.name]; intros -> Hn. unfold fileSort.
    cbn [File.name]. rewrite !str_eqb_refl.
    rewrite (proj2 (str_eqb_neq n' DOTDOT) Hn).
    rewrite (proj2 (str_eqb_neq DOTDOT n') (not_eq_sym Hn)). cbn [orb]. lia.
  - intros [n m] [n' m']; cbn [File.name File.stat]; intros Hn Hn' Ha Hb Hda Hdb.
    unfold fileSort. cbn [File.name File.stat].
    rewrite (proj2 (str_eqb_neq n DOTDOT) Hn), (proj2 (str_eqb_neq n' DOTDOT) Hn').
    cbn [orb].
    destruct m as [| |[[|] ? ?]]; try done.
    destruct m' as [| |[[|] ? ?]]; try done; cbn; lia.
  - intros [n m] [n' m']; cbn [File.name File.stat]; intros Hn Hn' Ha Hb Hd.
    unfold fileSort. cbn [File.name File.stat].
    rewrite (proj2 (str_eqb_neq n DOTDOT) Hn), (proj2 (str_eqb_neq n' DOTDOT) Hn').
    cbn [orb].
    destruct m as [| |[[|] ? ?]]; try done;
      destruct m' as [| |[[|] ? ?]]; try done.
  - intros l Hl. split; [apply Array_sort_perm|]. split.
    + apply (Array_sort_sorted has_metadata fileSort); [|by apply fileSort_trans|done].
      by apply fileSort_anti.
    + intros x Hx.
      apply (Array_sort_stable has_metadata fileSort); [|by apply fileSort_trans|done..].
      by apply fileSort_anti.
Qed.

(** A listing with the parent entry, a directory, two files whose names
    differ in case only, and an entry that has vanished. *)
Lemma fileSort_total_preorder_witness :
  let file := md_stats (Example.a_file 1) in
  let l := [ {| File.name := js "readme"; File.stat := file |};
             {| File.name := js "b"; File.stat := md_stats Example.a_directory |};
             {| File.name := js "gone"; File.stat := md_null |};
             {| File.name := js "README"; File.stat := file |};
             {| File.name := js ".."; File.stat := md_stats Example.a_directory |} ] in
  Array_sort (fileSort (H := Example.host)) l ≡ₚ l
  /\ StronglySorted (file_le (H := Example.host)) (Array_sort (fileSort (H := Example.host)) l)
  /\ File.name <$> Array_sort (fileSort (H := Example.host)) l
     = [js ".."; js "b"; js "gone"; js "readme"; js "README"].
Proof.
  intros file l.
  pose proof (fileSort_total_preorder (H := Example.host)) as T.
  destruct T as (_ & _ & _ & _ & _ & _ & Hsort).
  - intros a b. cbn [localeCompare Example.host].
    rewrite (code_unit_compare_anti a b). lia.
  - intros a b c. apply code_unit_compare_trans.
  - destruct (Hsort l) as (Hp & Hs & _).
    + repeat constructor; by unfold has_metadata.
    + split; [exact Hp|]. split; [exact Hs|]. by vm_compute.
Defined.

(** ** The [batch] machine *)

Section BatchFacts.
Context {R : Type}.
Implicit Types (st : Batch.State R) (ev : Batch.Event R) (a : list (option R)).

Lemma steps_snoc st evs ev :
  Batch.steps st (evs ++ [ev])
  = match Batch.steps st evs with
    | Some st' => Batch.step st' ev
    | None => None
    end.
Proof.
  revert st. induction evs as [|e evs IH]; intros st; simpl.
  - by destruct (Batch.step st ev).
  - destruct (Batch.step st e); [apply IH | done].
Qed.

Lemma array_set_lookup_eq a i (v : R) : Batch.array_set a i v !! i = Some (Some v).
Proof.
  unfold Batch.array_set. case_bool_decide as Hi.
  - by apply list_lookup_insert_eq.
  - rewrite lookup_app_r by lia. rewrite lookup_app_r; rewrite length_replicate; [|lia].
    by rewrite Nat.sub_diag.
Qed.

Lemma array_set_lookup_ne a i j (v x : R) :
  i <> j -> a !! j = Some (Some x) -> Batch.array_set a i v !! j = Some (Some x).
Proof.
  intros Hne Hj. unfold Batch.array_set. case_bool_decide as Hi.
  - by rewrite list_lookup_insert_ne.
  - apply lookup_app_l_Some. done.
Qed.

Lemma array_set_length a i (v : R) :
  length (Batch.array_set a i v) = (length a `max` S i)%nat.
Proof.
  unfold Batch.array_set. case_bool_decide as Hi.
  - rewrite length_insert. lia.
  - rewrite !length_app, length_replicate. simpl. lia.
Qed.

(** Taking a lookup out of those in flight. *)
Lemma remove_in_flight (l : list nat) (i : nat) :
  NoDup l -> i ∈ l ->
  NoDup (List.filter (fun j => negb (Nat.eqb j i)) l)
  /\ (forall j, j ∈ List.filter (fun j => negb (Nat.eqb j i)) l <-> j ∈ l /\ j <> i)
  /\ S (length (List.filter (fun j => negb (Nat.eqb j i)) l)) = length l.
Proof.
  intros Hnd Hi.
  assert (Hmem : forall j, j ∈ List.filter (fun j => negb (Nat.eqb j i)) l
                           <-> j ∈ l /\ j <> i).
  { intros j. rewrite !list_elem_of_In, filter_In, negb_true_iff, Nat.eqb_neq. tauto. }
  split; [|split; [exact Hmem|]].
  - apply NoDup_ListNoDup, List.NoDup_filter. by apply NoDup_ListNoDup.
  - clear Hmem. induction l as [|x l IH]; [by apply elem_of_nil in Hi|].
    apply NoDup_cons in Hnd as [Hx Hnd]. simpl.
    destruct (Nat.eqb_spec x i) as [->|Hne]; simpl.
    + f_equal. clear IH Hi Hnd. induction l as [|y l IH]; [done|].
      apply not_elem_of_cons in Hx as [Hy Hx]. simpl.
      destruct (Nat.eqb_spec y i) as [->|_]; [done|]. simpl. f_equal. by apply IH.
    + f_equal. apply IH; [done|]. apply elem_of_cons in Hi as [->|Hi]; done.
Qed.

(** [next()] starts the function at [index], when there is one. *)
Lemma next_spec st :
  Batch.started st = seq 0 (Batch.index st `min` Batch.total st) ->
  Batch.started (Batch.next st)
  = seq 0 (Batch.index (Batch.next st) `min` Batch.total st)
  /\ ((Batch.index st < Batch.total st)%nat
      /\ Batch.in_flight (Batch.next st) = Batch.in_flight st ++ [Batch.index st]
      /\ Batch.started (Batch.next st) = Batch.started st ++ [Batch.index st]
      /\ Batch.index st ∉ Batch.started st
      \/ (Batch.total st <= Batch.index st)%nat
         /\ Batch.in_flight (Batch.next st) = Batch.in_flight st
         /\ Batch.started (Batch.next st) = Batch.started st).
Proof.
  intros Hs. unfold Batch.next.
  cbn [Batch.started Batch.index Batch.in_flight Batch.total].
  case_bool_decide as Hi.
  - rewrite Hs. replace (Batch.index st `min` Batch.total st)%nat with (Batch.index st) by lia.
    replace (S (Batch.index st) `min` Batch.total st)%nat with (S (Batch.index st)) by lia.
    split; [by rewrite seq_S|]. left. repeat split; [done|].
    rewrite elem_of_seq. lia.
  - split; [|right; repeat split; lia].
    rewrite Hs. f_equal. lia.
Qed.

Lemma invariant_init (fns n : nat) : Batch.invariant fns n [] (Batch.init (R := R) fns n).
Proof.
  split; cbn; try done.
  - lia.
  - apply NoDup_nil_2.
  - intros i r Hi. by apply elem_of_nil in Hi.
  - intros _. split; [|split; [lia|split; [lia|split]]].
    + intros i r Hi. by apply elem_of_nil in Hi.
    + intros Hp. split; [done|]. destruct fns; [lia|done].
    + by intros ->.
Qed.
End BatchFacts.

Section BatchInvariant.
Context {R : Type}.
Implicit Types (st : Batch.State R) (ev : Batch.Event R).

Ltac fields :=
  cbn [Batch.total Batch.max Batch.loop_i Batch.index Batch.pending Batch.results
       Batch.done Batch.in_flight Batch.started Batch.calls] in *.

Lemma complete_snoc_loop (evs : list (Batch.Event R)) i r :
  Batch.ev_complete i r ∈ evs ++ [Batch.ev_loop] <-> Batch.ev_complete i r ∈ evs.
Proof.
  rewrite elem_of_app, list_elem_of_singleton. split; [|tauto].
  intros [?|?]; [done|discriminate].
Qed.

Lemma complete_snoc (evs : list (Batch.Event R)) i r j r' :
  Batch.ev_complete i r ∈ evs ++ [Batch.ev_complete j r']
  <-> Batch.ev_complete i r ∈ evs \/ (i = j /\ r = r').
Proof.
  rewrite elem_of_app, list_elem_of_singleton. split.
  - intros [?|[= -> ->]]; tauto.
  - intros [?|[-> ->]]; tauto.
Qed.

Lemma step_loop st st' :
  Batch.step st Batch.ev_loop = Some st' ->
  Batch.loop_running st = true
  /\ st' = {| Batch.total := Batch.total (Batch.next st);
              Batch.max := Batch.max (Batch.next st);
              Batch.loop_i := S (Batch.loop_i (Batch.next st));
              Batch.index := Batch.index (Batch.next st);
              Batch.pending := Batch.pending (Batch.next st);
              Batch.results := Batch.results (Batch.next st);
              Batch.done := Batch.done (Batch.next st);
              Batch.in_flight := Batch.in_flight (Batch.next st);
              Batch.started := Batch.started (Batch.next st);
              Batch.calls := Batch.calls (Batch.next st) |}.
Proof.
  unfold Batch.step. destruct (Batch.loop_running st); [|done]. by intros [= <-].
Qed.

(** A turn of the starting loop. *)
Lemma invariant_loop fns n evs st st' :
  Batch.invariant fns n evs st ->
  Batch.step st Batch.ev_loop = Some st' ->
  Batch.invariant fns n (evs ++ [Batch.ev_loop]) st'.
Proof.
  intros [Ht Hm Hl Hs Hnd Hsub Hb Hans Hcomp Hrun Hfail] Hstep.
  apply step_loop in Hstep as [Hloop ->].
  unfold Batch.loop_running in Hloop.
  apply andb_true_iff in Hloop as [_ Hne].
  apply negb_true_iff, bool_decide_eq_false in Hne.
  rewrite <- Ht in Hs. destruct (next_spec st Hs) as [Hs' Hnext]. rewrite Ht in Hs, Hs'.
  assert (Hsame : Batch.total (Batch.next st) = Batch.total st
                  /\ Batch.max (Batch.next st) = Batch.max st
                  /\ Batch.loop_i (Batch.next st) = Batch.loop_i st
                  /\ Batch.index (Batch.next st) = S (Batch.index st)
                  /\ Batch.pending (Batch.next st) = Batch.pending st
                  /\ Batch.results (Batch.next st) = Batch.results st
                  /\ Batch.done (Batch.next st) = Batch.done st
                  /\ Batch.calls (Batch.next st) = Batch.calls st) by done.
  destruct Hsame as (Et & Em & El & Ei & Ep & Er & Ed & Ec).
  remember (Batch.next st) as st1 eqn:Est1. clear Est1.
  assert (Hmono : forall i, i ∈ Batch.started st -> i ∉ Batch.in_flight st ->
            i ∈ Batch.started st1 /\ i ∉ Batch.in_flight st1).
  { intros i Hi Hni.
    destruct Hnext as [(_ & -> & -> & Hfresh)|(_ & -> & ->)]; [|done].
    rewrite !elem_of_app, !list_elem_of_singleton. split; [tauto|].
    intros [?| ->]; done. }
  split; fields.
  - congruence.
  - congruence.
  - rewrite El. lia.
  - exact Hs'.
  - destruct Hnext as [(_ & -> & _ & Hfresh)|(_ & -> & _)]; [|done].
    apply NoDup_app. split; [done|]. split; [|apply NoDup_singleton].
    intros i Hi. rewrite list_elem_of_singleton. intros ->. by apply Hfresh, Hsub.
  - intros i. destruct Hnext as [(_ & -> & -> & _)|(_ & -> & ->)]; [|by apply Hsub].
    rewrite !elem_of_app. intros [?|?]; [left; by apply Hsub | by right].
  - rewrite El. destruct Hnext as [(_ & -> & _)|(_ & -> & _)]; [|lia].
    rewrite length_app. simpl. lia.
  - intros i r Hi. rewrite complete_snoc_loop in Hi.
    destruct (Hans i r Hi). by apply Hmono.
  - intros i Hi Hni.
    assert (i ∈ Batch.started st /\ i ∉ Batch.in_flight st) as [Hi' Hni'].
    { destruct Hnext as [(_ & Ef & Es & _)|(_ & Ef & Es)]; rewrite Ef, Es in *;
        [|done].
      rewrite elem_of_app, list_elem_of_singleton in Hi.
      rewrite elem_of_app, list_elem_of_singleton in Hni. tauto. }
    destruct (Hcomp i Hi' Hni') as [r Hr]. exists r. by apply complete_snoc_loop.
  - rewrite Ed, Ep, Er, Ec, Ei, El. intros Hd.
    destruct (Hrun Hd) as (H1 & H2 & H3 & H4 & H5).
    split; [|split; [done|split; [|split; [|done]]]].
    + intros i r Hi. rewrite complete_snoc_loop in Hi. by apply H1.
    + destruct Hnext as [(_ & -> & -> & _)|(_ & -> & ->)]; [|done].
      rewrite !length_app. simpl. lia.
    + intros Hp. destruct (H4 Hp) as [H6 H7]. split; [|done].
      destruct Hnext as [(_ & -> & -> & _)|(_ & -> & ->)]; [|lia].
      rewrite !length_app. simpl. lia.
  - rewrite Ed, Ec. intros Hd. destruct (Hfail Hd) as (i & err & Hi & Hc).
    exists i, err. split; [by apply complete_snoc_loop | done].
Qed.

(** The function started at [i] calls [done]. *)
Lemma invariant_complete fns n evs st st' i r :
  Batch.invariant fns n evs st ->
  Batch.step st (Batch.ev_complete i r) = Some st' ->
  Batch.invariant fns n (evs ++ [Batch.ev_complete i r]) st'.
Proof.
  intros [Ht Hm Hl Hs Hnd Hsub Hb Hans Hcomp Hrun Hfail] Hstep.
  cbn [Batch.step] in Hstep. case_bool_decide as Hi; [|done]. injection Hstep as <-.
  destruct (remove_in_flight _ i Hnd Hi) as (Hnd' & Hmem & Hlen).
  set (rest := List.filter (fun j => negb (Nat.eqb j i)) (Batch.in_flight st)) in *.
  assert (Hstarted : i ∈ Batch.started st) by by apply Hsub.
  assert (Hle : (length (Batch.in_flight st) <= length (Batch.started st))%nat).
  { by apply submseteq_length, NoDup_submseteq. }
  assert (Hi_lt : (i < fns)%nat).
  { rewrite Hs, elem_of_seq in Hstarted. lia. }
  assert (Hans' : forall j r', Batch.ev_complete j r' ∈ evs ++ [Batch.ev_complete i r] ->
            j ∈ Batch.started st /\ j ∉ rest).
  { intros j r' Hj. apply (proj1 (complete_snoc _ _ _ _ _)) in Hj as [Hj|[-> _]].
    - destruct (Hans j r' Hj) as [? Hn]. split; [done|]. rewrite Hmem. tauto.
    - split; [done|]. rewrite Hmem. tauto. }
  assert (Hcomp' : forall j, j ∈ Batch.started st -> j ∉ rest ->
            exists r', Batch.ev_complete j r' ∈ evs ++ [Batch.ev_complete i r]).
  { intros j Hj Hnj. destruct (decide (j = i)) as [->|Hne].
    - exists r. apply complete_snoc. tauto.
    - destruct (Hcomp j Hj) as [r' Hr'].
      + intros Hin. apply Hnj, Hmem. done.
      + exists r'. apply complete_snoc. tauto. }
  assert (Hsub' : forall j, j ∈ rest -> j ∈ Batch.started st).
  { intros j Hj. apply Hmem in Hj as [Hj _]. by apply Hsub. }
  unfold Batch.callback. cbn [Batch.done]. fold rest.
  destruct (Batch.done st) eqn:Hd.
  { (* the batch has failed already: nothing more is done *)
    split; fields; try done.
    - lia.
    - intros _. destruct (Hfail eq_refl) as (j & err & Hj & Hc).
      exists j, err. split; [|done]. apply complete_snoc. tauto. }
  destruct (Hrun eq_refl) as (H1 & H2 & H3 & H4 & H5).
  assert (Hpending : (0 < Batch.pending st)%nat).
  { assert (length (Batch.started st) <= fns)%nat.
    { rewrite Hs, length_seq. lia. }
    lia. }
  destruct (H4 Hpending) as [Hindex Hcalls].
  destruct r as [err|v].
  { (* an error: the batch fails *)
    split; fields; try done.
    - lia.
    - intros _. exists i, err. split; [apply complete_snoc; tauto|].
      by rewrite Hcalls. }
  assert (Hres : forall j r', Batch.ev_complete j r' ∈ evs ++ [Batch.ev_complete i (inr v)] ->
            exists v', r' = inr v'
              /\ Batch.array_set (Batch.results st) i v !! j = Some (Some v')).
  { intros j r' Hj. apply (proj1 (complete_snoc _ _ _ _ _)) in Hj as [Hj|[-> ->]].
    - destruct (H1 j r' Hj) as (v' & -> & Hv'). exists v'. split; [done|].
      apply array_set_lookup_ne; [|done].
      intros ->. by destruct (Hans j (inr v') Hj).
    - exists v. split; [done | apply array_set_lookup_eq]. }
  assert (Hreslen : (length (Batch.array_set (Batch.results st) i v) <= fns)%nat).
  { rewrite array_set_length. lia. }
  cbn [Batch.pending].
  destruct (negb (Nat.eqb (Nat.pred (Batch.pending st)) 0)) eqn:Hmore.
  - (* more remain: [next()] *)
    apply negb_true_iff, Nat.eqb_neq in Hmore.
    match goal with |- Batch.invariant _ _ _ (Batch.next ?s) => set (st2 := s) end.
    assert (Hs2 : Batch.started st2 = seq 0 (Batch.index st2 `min` Batch.total st2)).
    { subst st2. fields. by rewrite Ht. }
    destruct (next_spec st2 Hs2) as [Hs' Hnext].
    assert (Hsame : Batch.total (Batch.next st2) = Batch.total st
                    /\ Batch.max (Batch.next st2) = Batch.max st
                    /\ Batch.loop_i (Batch.next st2) = Batch.loop_i st
                    /\ Batch.index (Batch.next st2) = S (Batch.index st)
                    /\ Batch.pending (Batch.next st2) = Nat.pred (Batch.pending st)
                    /\ Batch.results (Batch.next st2)
                       = Batch.array_set (Batch.results st) i v
                    /\ Batch.done (Batch.next st2) = false
                    /\ Batch.calls (Batch.next st2) = Batch.calls st) by done.
    destruct Hsame as (Et & Em & El & Ei & Ep & Er & Ed & Ec).
    remember (Batch.next st2) as st3 eqn:Est3. clear Est3.
    subst st2. fields.
    assert (Hmono : forall j, j ∈ Batch.started st -> j ∉ rest ->
              j ∈ Batch.started st3 /\ j ∉ Batch.in_flight st3).
    { intros j Hj Hnj.
      destruct Hnext as [(_ & -> & -> & Hfresh)|(_ & -> & ->)]; [|done].
      rewrite !elem_of_app, !list_elem_of_singleton. split; [tauto|].
      intros [?| ->]; done. }
    split.
    + congruence.
    + congruence.
    + by rewrite El.
    + by rewrite Hs', Ht.
    + destruct Hnext as [(_ & -> & _ & Hfresh)|(_ & -> & _)]; [|done].
      apply NoDup_app. split; [done|]. split; [|apply NoDup_singleton].
      intros j Hj. rewrite list_elem_of_singleton. intros ->. by apply Hfresh, Hsub'.
    + intros j. destruct Hnext as [(_ & -> & -> & _)|(_ & -> & ->)]; [|by apply Hsub'].
      rewrite !elem_of_app. intros [?|?]; [left; by apply Hsub' | by right].
    + rewrite El. destruct Hnext as [(_ & -> & _)|(_ & -> & _)]; [|lia].
      rewrite length_app. simpl. lia.
    + intros j r' Hj. destruct (Hans' j r' Hj). by apply Hmono.
    + intros j Hj Hnj. apply Hcomp'.
      * destruct Hnext as [(_ & Ef & Es & _)|(_ & Ef & Es)]; rewrite Ef, Es in *;
          [|done].
        rewrite elem_of_app, list_elem_of_singleton in Hj.
        rewrite elem_of_app, list_elem_of_singleton in Hnj.
        destruct Hj as [?| ->]; [done|]. exfalso. apply Hnj. by right.
      * destruct Hnext as [(_ & Ef & Es & _)|(_ & Ef & Es)]; rewrite Ef in *;
          [|done].
        rewrite elem_of_app in Hnj. tauto.
    + rewrite Ep, Er, Ec, Ei, El. intros _.
      split; [done|]. split; [done|]. split; [|split; [|lia]].
      * destruct Hnext as [(_ & -> & -> & _)|(_ & -> & ->)]; fields.
        -- rewrite !length_app. simpl. lia.
        -- lia.
      * intros _. split; [|done].
        destruct Hnext as [(_ & -> & -> & _)|(_ & -> & ->)]; fields.
        -- rewrite !length_app. simpl. lia.
        -- lia.
    + by rewrite Ed.
  - (* the last one: [cb(null, results)] *)
    apply negb_false_iff, Nat.eqb_eq in Hmore.
    split; fields; try done.
    + lia.
    + intros _. split; [done|]. split; [done|]. split; [lia|]. split; [lia|].
      intros _. by rewrite Hcalls.
Qed.

Lemma invariant_steps fns n evs st :
  Batch.steps (Batch.init fns n) evs = Some st -> Batch.invariant fns n evs st.
Proof.
  revert st. induction evs as [|ev evs IH] using rev_ind; intros st Hsteps.
  - injection Hsteps as <-. apply invariant_init.
  - rewrite steps_snoc in Hsteps.
    destruct (Batch.steps (Batch.init fns n) evs) as [st0|]; [|done].
    specialize (IH st0 eq_refl). destruct ev as [|i r].
    + by eapply invariant_loop.
    + by eapply invariant_complete.
Qed.

(** When nothing is left to happen, a batch that has not failed has
    called back with the results. *)
Lemma quiescent_results fns n evs st :
  (0 < n)%nat ->
  Batch.invariant fns n evs st ->
  Batch.quiescent st ->
  Batch.done st = false ->
  Batch.calls st = [Batch.cb_results (Batch.results st)]
  /\ length (Batch.results st) = fns
  /\ Batch.started st = seq 0 fns
  /\ forall i, (i < fns)%nat ->
       exists v, Batch.ev_complete i (inr v) ∈ evs
                 /\ Batch.results st !! i = Some (Some v).
Proof.
  intros Hn [Ht Hm Hl Hs Hnd Hsub Hb Hans Hcomp Hrun Hfail] [Hloop Hidle] Hd.
  destruct (Hrun Hd) as (H1 & H2 & H3 & H4 & H5).
  rewrite Hidle in *. simpl in H3, H4.
  assert (Hlen : length (Batch.started st) = (Batch.index st `min` fns)%nat).
  { by rewrite Hs, length_seq. }
  assert (Hp : Batch.pending st = 0%nat).
  { destruct (Batch.pending st) as [|p] eqn:Ep; [done|]. exfalso.
    destruct H4 as [Hindex _]; [lia|].
    unfold Batch.loop_running in Hloop. rewrite Ht, Hm in Hloop.
    apply andb_false_iff in Hloop as [Hloop|Hloop].
    - apply bool_decide_eq_false in Hloop. lia.
    - apply negb_false_iff, bool_decide_eq_true in Hloop. lia. }
  assert (Hall : Batch.started st = seq 0 fns).
  { rewrite Hs. f_equal. lia. }
  assert (Hvals : forall i, (i < fns)%nat ->
            exists v, Batch.ev_complete i (inr v) ∈ evs
                      /\ Batch.results st !! i = Some (Some v)).
  { intros i Hi. destruct (Hcomp i) as [r Hr].
    - rewrite Hall, elem_of_seq. lia.
    - apply not_elem_of_nil.
    - destruct (H1 i r Hr) as (v & -> & Hv). by exists v. }
  split; [by apply H5|]. split; [|done].
  destruct fns as [|k]; [lia|].
  destruct (Hvals k) as (v & _ & Hv); [lia|].
  apply lookup_lt_Some in Hv. lia.
Qed.
End BatchInvariant.

(** ** C3 and C6: [statFiles] *)

Lemma stat_answer_event (evs : list StatEvent) (i : nat) (r : Err + Stats) :
  stat_answer i r ∈ evs -> Batch.ev_complete i (stat_done r) ∈ batch_event <$> evs.
Proof. intros Hi. by apply (list_elem_of_fmap_2 batch_event _ _ Hi). Qed.

Lemma event_stat_answer (evs : list StatEvent) (i : nat) (x : Err + option Stats) :
  Batch.ev_complete i x ∈ batch_event <$> evs ->
  exists r, stat_answer i r ∈ evs /\ x = stat_done r.
Proof.
  intros Hi. apply list_elem_of_fmap in Hi as (e & He & Hin).
  destruct e as [|j r]; [discriminate|]. injection He as -> ->. by exists r.
Qed.

Lemma stat_done_inr (r : Err + Stats) (v : option Stats) :
  stat_done r = inr v -> v = metadata_of r.
Proof.
  destruct r as [err|st]; simpl.
  - destruct (negb (code_is err (js "ENOENT"))); [done|]. by intros [= <-].
  - by intros [= <-].
Qed.

Lemma stat_done_inl (r : Err + Stats) (err : Err) :
  stat_done r = inl err -> r = inl err /\ code_is err (js "ENOENT") = false.
Proof.
  destruct r as [err'|st]; simpl; [|done].
  destruct (code_is err' (js "ENOENT")) eqn:Hc; simpl; [done|].
  by intros [= <-].
Qed.

(** C6, as amended.  At every moment of a run of the batch of [statFiles],
    at most ten lookups are in flight; the lookups started so far are those
    of the first entries, in order, each started once, and those in flight
    are among them.  When nothing is left to happen and no lookup was
    answered with an error other than ENOENT, every entry has had its
    lookup. *)
Theorem statFiles_bounded (files : list jsstring) (evs : list StatEvent)
    (st : Batch.State (option Stats)) :
  statFiles_after files evs = Some st ->
  (length (Batch.in_flight st) <= 10)%nat
  /\ (exists k, (k <= length files)%nat /\ Batch.started st = seq 0 k)
  /\ NoDup (Batch.started st)
  /\ NoDup (Batch.in_flight st)
  /\ (forall i, i ∈ Batch.in_flight st -> i ∈ Batch.started st)
  /\ (forall i r, stat_answer i r ∈ evs ->
        i ∈ Batch.started st /\ i ∉ Batch.in_flight st)
  /\ (Batch.quiescent st ->
      (forall i err, stat_answer i (inl err) ∈ evs ->
         code_is err (js "ENOENT") = true) ->
      Batch.started st = seq 0 (length files)).
Proof.
  intros Hsteps. apply invariant_steps in Hsteps as Hinv.
  pose proof Hinv as [Ht Hm Hl Hs Hnd Hsub Hb Hans Hcomp Hrun Hfail].
  split; [lia|]. split; [|split; [|split; [done|split; [done|split]]]].
  - exists (Batch.index st `min` length files)%nat. split; [lia|done].
  - rewrite Hs. apply NoDup_seq.
  - intros i r Hi. by apply (Hans i (stat_done r)), stat_answer_event.
  - intros Hq Hall. destruct (Batch.done st) eqn:Hd.
    + destruct (Hfail eq_refl) as (i & err & Hi & _).
      apply event_stat_answer in Hi as (r & Hr & Hdone).
      symmetry in Hdone. apply stat_done_inl in Hdone as [-> Hcode].
      specialize (Hall i err Hr). congruence.
    + by destruct (quiescent_results (length files) 10 _ st ltac:(lia) Hinv Hq Hd) as (_ & _ & ? & _).
Qed.

(** Twelve files, the first ten lookups answered in reverse order. *)
Lemma statFiles_bounded_witness :
  let files := replicate 12 (js "f") in
  let evs := replicate 10 stat_loop
             ++ ((fun i => stat_answer i (inr (Example.a_file 1))) <$> rev (seq 0 10)) in
  exists st,
    statFiles_after files evs = Some st
    /\ (length (Batch.in_flight st) <= 10)%nat
    /\ Batch.in_flight st = [10; 11]%nat
    /\ Batch.started st = seq 0 12.
Proof.
  intros files evs.
  destruct (statFiles_after files evs) as [st|] eqn:E; [|by vm_compute in E].
  exists st. split; [done|].
  split; [exact (proj1 (statFiles_bounded files evs st E))|].
  vm_compute in E. injection E as <-. by split.
Defined.

(** C6 as stated fails when a lookup is answered with an error that is not
    ENOENT: of eleven entries the first ten are looked up, the first answer
    is EACCES, and when nothing is left to happen the eleventh entry has had
    no lookup. *)
Lemma statFiles_abort_skips_queued :
  match statFiles_after (replicate 11 (js "f"))
          (replicate 10 stat_loop
           ++ stat_answer 0 (inl Example.EACCES)
              :: ((fun i => stat_answer i (inr (Example.a_file 1))) <$> seq 1 9)) with
  | Some st =>
      Batch.loop_running st = false
      /\ Batch.in_flight st = []
      /\ Batch.started st = seq 0 10
      /\ Batch.calls st = [Batch.cb_error Example.EACCES]
  | None => False
  end.
Proof. by vm_compute. Qed.

(** ** [statFiles] as [html] runs it *)

Section StatFilesRun.
Context (lookup : nat -> Err + Stats).
Implicit Types (st : Batch.State (option Stats)).

Lemma steps_cons st (ev : Batch.Event (option Stats)) evs :
  Batch.steps st (ev :: evs)
  = match Batch.step st ev with
    | Some st' => Batch.steps st' evs
    | None => None
    end.
Proof. done. Qed.

Lemma run_loop_S fuel st :
  Batch.run_loop (S fuel) st
  = match Batch.step st Batch.ev_loop with
    | Some st' => Batch.run_loop fuel st'
    | None => st
    end.
Proof. done. Qed.

Lemma complete_all_S fuel sched st :
  complete_all (S fuel) sched lookup st
  = match Batch.in_flight st with
    | [] => st
    | first :: _ =>
        let i := picked sched first (Batch.in_flight st) in
        complete_all fuel (tail sched) lookup
          (Batch.callback st i (stat_done (lookup i)))
    end.
Proof. done. Qed.

Lemma run_loop_steps fuel st :
  exists evs,
    Batch.steps st (batch_event <$> evs) = Some (Batch.run_loop fuel st)
    /\ Forall (fun e => e = stat_loop) evs.
Proof.
  revert st. induction fuel as [|fuel IH]; intros st.
  - by exists [].
  - rewrite run_loop_S. destruct (Batch.step st Batch.ev_loop) as [st'|] eqn:E.
    + destruct (IH st') as (evs & Hsteps & Hall).
      exists (stat_loop :: evs). split; [|by constructor].
      rewrite fmap_cons, steps_cons. cbn [batch_event]. by rewrite E.
    + by exists [].
Qed.

Lemma run_loop_over fuel st :
  (Batch.total st <= Batch.loop_i st + fuel)%nat ->
  Batch.loop_running (Batch.run_loop fuel st) = false.
Proof.
  revert st. induction fuel as [|fuel IH]; intros st Hfuel.
  - simpl. unfold Batch.loop_running. rewrite bool_decide_eq_false_2 by lia. done.
  - rewrite run_loop_S. destruct (Batch.step st Batch.ev_loop) as [st'|] eqn:E.
    + apply step_loop in E as [_ ->]. apply IH. cbn. lia.
    + unfold Batch.step in E. by destruct (Batch.loop_running st).
Qed.

Lemma picked_in_flight sched first rest :
  picked sched first (first :: rest) ∈ first :: rest.
Proof.
  unfold picked.
  destruct ((first :: rest) !! _) as [i|] eqn:E; simpl.
  - by eapply list_elem_of_lookup_2.
  - left.
Qed.

Lemma complete_all_steps fuel sched st :
  exists evs,
    Batch.steps st (batch_event <$> evs) = Some (complete_all fuel sched lookup st)
    /\ Forall (fun e => exists i, e = stat_answer i (lookup i)) evs.
Proof.
  revert sched st. induction fuel as [|fuel IH]; intros sched st.
  - by exists [].
  - rewrite complete_all_S.
    destruct (Batch.in_flight st) as [|first rest] eqn:E; [by exists []|].
    cbv zeta. set (i := picked sched first (first :: rest)).
    destruct (IH (tail sched) (Batch.callback st i (stat_done (lookup i))))
      as (evs & Hsteps & Hall).
    exists (stat_answer i (lookup i) :: evs). split.
    + rewrite fmap_cons, steps_cons. cbn [batch_event]. unfold Batch.step.
      rewrite E, bool_decide_eq_true_2 by apply picked_in_flight. done.
    + constructor; [by exists i | done].
Qed.

Lemma callback_loop st i r :
  Batch.loop_running (Batch.callback st i r) = Batch.loop_running st.
Proof.
  unfold Batch.callback. cbn [Batch.done].
  destruct (Batch.done st); [done|]. destruct r as [err|v]; [done|].
  cbn [Batch.pending]. by destruct (negb _).
Qed.

Lemma complete_all_loop fuel sched st :
  Batch.loop_running (complete_all fuel sched lookup st) = Batch.loop_running st.
Proof.
  revert sched st. induction fuel as [|fuel IH]; intros sched st; [done|].
  rewrite complete_all_S.
  destruct (Batch.in_flight st) as [|first rest]; [done|].
  cbv zeta. by rewrite IH, callback_loop.
Qed.

(** Every completion is the completion of one more lookup. *)
Lemma callback_progress st i r :
  NoDup (Batch.in_flight st) -> i ∈ Batch.in_flight st ->
  (length (Batch.in_flight st) <= length (Batch.started st))%nat ->
  (length (Batch.started (Batch.callback st i r))
   - length (Batch.in_flight (Batch.callback st i r))
   = S (length (Batch.started st) - length (Batch.in_flight st)))%nat.
Proof.
  intros Hnd Hi Hle.
  destruct (remove_in_flight _ i Hnd Hi) as (_ & _ & Hlen).
  unfold Batch.callback. cbn [Batch.done].
  destruct (Batch.done st); [cbn; lia|]. destruct r as [err|v]; [cbn; lia|].
  cbn [Batch.pending]. destruct (negb _); [|cbn; lia].
  unfold Batch.next. cbn. case_bool_decide; [|lia].
  rewrite !length_app. simpl. lia.
Qed.

Lemma complete_all_idle fns fuel sched st evs :
  Batch.steps (Batch.init fns 10) (batch_event <$> evs) = Some st ->
  (fns <= fuel + (length (Batch.started st) - length (Batch.in_flight st)))%nat ->
  Batch.in_flight (complete_all fuel sched lookup st) = [].
Proof.
  revert sched st evs. induction fuel as [|fuel IH]; intros sched st evs Hsteps Hfuel.
  - pose proof (invariant_steps _ _ _ _ Hsteps) as Hinv.
    pose proof Hinv as [Ht Hm Hl Hs Hnd Hsub Hb Hans Hcomp Hrun Hfail].
    assert (length (Batch.in_flight st) <= length (Batch.started st))%nat
      by by apply submseteq_length, NoDup_submseteq.
    assert (length (Batch.started st) <= fns)%nat by (rewrite Hs, length_seq; lia).
    simpl. destruct (Batch.in_flight st) as [|i rest] eqn:E; [done|].
    simpl in *. destruct (Batch.started st); simpl in *; lia.
  - rewrite complete_all_S.
    destruct (Batch.in_flight st) as [|first rest] eqn:E; [done|].
    cbv zeta. set (i := picked sched first (first :: rest)).
    pose proof (invariant_steps _ _ _ _ Hsteps) as Hinv.
    pose proof Hinv as [Ht Hm Hl Hs Hnd Hsub Hb Hans Hcomp Hrun Hfail].
    assert (Hi : i ∈ Batch.in_flight st) by (rewrite E; apply picked_in_flight).
    apply (IH _ _ (evs ++ [stat_answer i (lookup i)])).
    + rewrite fmap_app.
      change (batch_event <$> [stat_answer i (lookup i)])
        with [Batch.ev_complete i (stat_done (lookup i))].
      rewrite steps_snoc, Hsteps. unfold Batch.step.
      by rewrite bool_decide_eq_true_2.
    + rewrite callback_progress; [rewrite E; lia|done..|].
      by apply submseteq_length, NoDup_submseteq.
Qed.
End StatFilesRun.

Lemma mapM_log_call {A} (f : A -> FsCall) (l : list A) (w : World) :
  mapM (fun i => log_call (f i)) l w
  = (inr ((fun _ => tt) <$> l), {| cache := cache w; fs_log := fs_log w ++ (f <$> l) |}).
Proof.
  revert w. induction l as [|a l IH]; intros w.
  - cbn. rewrite app_nil_r. by destruct w.
  - cbn [mapM]. unfold mbind, M_bind, log_call at 1. cbn beta iota.
    fold (mapM (fun i => log_call (f i)) l). rewrite IH. cbn.
    by rewrite <- app_assoc.
Qed.

(** How a run of the batch of [statFiles] has ended when nothing is left to
    happen: with a failure that was answered, or with every lookup answered
    and its metadata in place. *)
Lemma statFiles_end (files : list jsstring) (evs : list StatEvent)
    (st : Batch.State (option Stats)) :
  statFiles_after files evs = Some st ->
  Batch.quiescent st ->
  (forall i r, stat_answer i r ∈ evs -> (i < length files)%nat)
  /\ ((exists i err, stat_answer i (inl err) ∈ evs
                    /\ code_is err (js "ENOENT") = false
                    /\ Batch.calls st = [Batch.cb_error err])
      \/ (Batch.calls st = [Batch.cb_results (Batch.results st)]
          /\ length (Batch.results st) = length files
          /\ Batch.started st = seq 0 (length files)
          /\ (forall i, (i < length files)%nat -> exists r, stat_answer i r ∈ evs)
          /\ (forall i r, stat_answer i r ∈ evs ->
                stat_done r = inr (metadata_of r)
                /\ Batch.results st !! i = Some (Some (metadata_of r))))).
Proof.
  intros Hsteps Hq. pose proof (invariant_steps _ _ _ _ Hsteps) as Hinv.
  split.
  - intros i r Hi. apply stat_answer_event in Hi.
    destruct (Batch.inv_answered _ _ _ _ Hinv _ _ Hi) as [Hst _].
    rewrite (Batch.inv_started _ _ _ _ Hinv), elem_of_seq in Hst. lia.
  - destruct (Batch.done st) eqn:Hd.
    + left. destruct (Batch.inv_failed _ _ _ _ Hinv Hd) as (i & err & Hi & Hc).
      apply event_stat_answer in Hi as (r & Hr & Hdone).
      symmetry in Hdone. apply stat_done_inl in Hdone as [-> Hcode].
      by exists i, err.
    + right.
      destruct (quiescent_results (length files) 10 _ st ltac:(lia) Hinv Hq Hd)
        as (Hc & Hlen & Hall & Hvals).
      destruct (Batch.inv_running _ _ _ _ Hinv Hd) as (Hres & _).
      split; [done|]. split; [done|]. split; [done|]. split.
      * intros i Hi. destruct (Hvals i Hi) as (v & Hv & _).
        apply event_stat_answer in Hv as (r & Hr & _). by exists r.
      * intros i r Hi. apply stat_answer_event in Hi.
        destruct (Hres _ _ Hi) as (v & Hv & Hlook).
        rewrite <- (stat_done_inr _ _ Hv). by split.
Qed.

Section StatFilesPipeline.
Context `{Host} (self : ServeIndex.t).
Context (dir : jsstring) (files : list jsstring) (filesystem : FileSystem).

Let lookup (i : nat) : Err + Stats := stat filesystem (stat_path self dir files i).
Let logged (l : list nat) : list FsCall :=
  (fun i => (via_filesystem, op_stat (stat_path self dir files i))) <$> l.

(** [statFiles] is a run of its batch to the end. *)
Lemma statFiles_run (sched : list nat) (w : World) :
  exists evs st,
    statFiles_after files evs = Some st
    /\ Batch.quiescent st
    /\ Forall (fun e => e = stat_loop \/ exists i, e = stat_answer i (lookup i)) evs
    /\ statFiles self dir files filesystem sched w
       = (inr (head (Batch.calls st)),
          {| cache := cache w; fs_log := fs_log w ++ logged (Batch.started st) |}).
Proof.
  set (st0 := Batch.run_loop (length files)
                (Batch.init (R := option Stats) (length files) 10)).
  set (st := complete_all (length files) sched lookup st0).
  destruct (run_loop_steps (length files)
              (Batch.init (R := option Stats) (length files) 10))
    as (evs0 & Hsteps0 & Hall0). fold st0 in Hsteps0.
  destruct (complete_all_steps lookup (length files) sched st0)
    as (evs1 & Hsteps1 & Hall1). fold st in Hsteps1.
  assert (Hsteps : statFiles_after files (evs0 ++ evs1) = Some st).
  { unfold statFiles_after. rewrite fmap_app.
    clear Hall0 Hall1. revert Hsteps0.
    generalize (Batch.init (R := option Stats) (length files) 10).
    induction evs0 as [|e evs0 IH]; intros s Hs.
    - by injection Hs as ->.
    - rewrite fmap_cons in Hs |- *. cbn [app]. rewrite steps_cons in Hs |- *.
      destruct (Batch.step s (batch_event e)); [by apply IH|done]. }
  exists (evs0 ++ evs1), st. split; [done|]. split; [|split].
  - split.
    + subst st. rewrite complete_all_loop. subst st0. apply run_loop_over. cbn. lia.
    + subst st. eapply (complete_all_idle lookup (length files) _ _ _ evs0); [done|lia].
  - apply Forall_app. split.
    + eapply Forall_impl; [exact Hall0|]. by left.
    + eapply Forall_impl; [exact Hall1|]. by right.
  - unfold statFiles. fold lookup. fold st0. fold st.
    unfold mbind, M_bind. by rewrite mapM_log_call.
Qed.

(** Where no lookup fails but with ENOENT, [cb] gets the metadata of the
    files, in the order of the files, whatever the schedule. *)
Lemma statFiles_ok (sched : list nat) (w : World) :
  (forall i err, (i < length files)%nat -> lookup i = inl err ->
     code_is err (js "ENOENT") = true) ->
  statFiles self dir files filesystem sched w
  = (inr (Some (Batch.cb_results
                  ((fun i => Some (metadata_of (lookup i))) <$> seq 0 (length files)))),
     {| cache := cache w; fs_log := fs_log w ++ logged (seq 0 (length files)) |}).
Proof.
  intros Hok.
  destruct (statFiles_run sched w) as (evs & st & Hsteps & Hq & Hall & ->).
  rewrite Forall_forall in Hall.
  destruct (statFiles_end files evs st Hsteps Hq) as [Hlt Hend].
  destruct Hend as [(i & err & Hi & Hcode & _)|(Hc & Hlen & Hfull & Hvals & Hpos)].
  { destruct (Hall _ Hi) as [?|[j [= -> Hj]]]; [done|].
    rewrite (Hok j err (Hlt _ _ Hi)) in Hcode; done. }
  rewrite Hc, Hfull. cbn [head]. do 4 f_equal.
  apply list_eq. intros i. rewrite list_lookup_fmap.
  destruct (decide (i < length files)%nat) as [Hi|Hi].
  - rewrite lookup_seq_lt by done. cbn.
    destruct (Hvals i Hi) as (r & Hr).
    destruct (Hpos i r Hr) as [_ ->].
    destruct (Hall _ Hr) as [?|[j [= -> ->]]]; done.
  - rewrite lookup_seq_ge by lia. apply lookup_ge_None. lia.
Qed.

(** Where a lookup fails otherwise, [cb] gets one such error. *)
Lemma statFiles_failed (sched : list nat) (w : World) (i : nat) (err : Err) :
  (i < length files)%nat -> lookup i = inl err ->
  code_is err (js "ENOENT") = false ->
  exists j err' started,
    (j < length files)%nat /\ lookup j = inl err'
    /\ code_is err' (js "ENOENT") = false
    /\ statFiles self dir files filesystem sched w
       = (inr (Some (Batch.cb_error err')),
          {| cache := cache w; fs_log := fs_log w ++ logged started |}).
Proof.
  intros Hi Herr Hcode.
  destruct (statFiles_run sched w) as (evs & st & Hsteps & Hq & Hall & ->).
  rewrite Forall_forall in Hall.
  destruct (statFiles_end files evs st Hsteps Hq) as [Hlt Hend].
  destruct Hend as [(j & err' & Hj & Hcode' & Hc)|(_ & _ & _ & Hvals & Hpos)].
  - destruct (Hall _ Hj) as [?|[j' [= -> Hj']]]; [done|].
    exists j', err', (Batch.started st). rewrite Hc. cbn [head].
    split; [by eapply Hlt|]. by split.
  - exfalso. destruct (Hvals i Hi) as (r & Hr).
    destruct (Hpos i r Hr) as [Hdone _].
    destruct (Hall _ Hr) as [?|[j [= <- ->]]]; [done|].
    rewrite Herr in Hdone. simpl in Hdone. by rewrite Hcode in Hdone.
Qed.
End StatFilesPipeline.

(** The entries [html] sorts all have metadata. *)
Lemma file_list_has_metadata (files : list jsstring) (lookup : nat -> Err + Stats) :
  Forall has_metadata
    (file_list files
       ((fun i => Some (metadata_of (lookup i))) <$> seq 0 (length files))).
Proof.
  apply Forall_forall. intros e He. unfold file_list in He.
  apply list_elem_of_lookup in He as [i He].
  rewrite list_lookup_imap in He.
  destruct (files !! i) as [name|] eqn:Hi; [|done]. injection He as <-.
  apply lookup_lt_Some in Hi.
  unfold has_metadata, stats_at. cbn [File.stat].
  rewrite list_lookup_fmap, lookup_seq_lt by done. cbn.
  by destruct (metadata_of (lookup i)).
Qed.

(** C3.  [statFiles] calls [cb], whatever the order in which the lookups
    complete.  If every lookup of an entry of [files] gives a stat record or
    fails with ENOENT, [cb] gets no error and an array as long as [files]
    whose element [i] is the metadata of [files[i]] -- the record
    [filesystem.stat] gives for [join(dir, files[i])], or [null] where
    it fails with ENOENT -- and every entry has had its lookup.  If the
    lookup of some entry fails with another error, [cb] gets such an error
    and nothing else. *)
Theorem statFiles_positional (self : ServeIndex.t) (dir : jsstring)
    (files : list jsstring) (filesystem : FileSystem) (sched : list nat) (w : World) :
  let path name := Path.join (ServeIndex.pathLib self) [dir; name] in
  ((forall name err, name ∈ files -> stat filesystem (path name) = inl err ->
      code_is err (js "ENOENT") = true) ->
   exists stats,
     statFiles self dir files filesystem sched w
     = (inr (Some (Batch.cb_results stats)),
        {| cache := cache w;
           fs_log := fs_log w
                     ++ ((fun name => (via_filesystem, op_stat (path name))) <$> files) |})
     /\ length stats = length files
     /\ forall i name, files !! i = Some name ->
          stats !! i = Some (Some (metadata_of (stat filesystem (path name)))))
  /\ ((exists name err, name ∈ files /\ stat filesystem (path name) = inl err
                        /\ code_is err (js "ENOENT") = false) ->
      exists name err started,
        name ∈ files /\ stat filesystem (path name) = inl err
        /\ code_is err (js "ENOENT") = false
        /\ statFiles self dir files filesystem sched w
           = (inr (Some (Batch.cb_error err)),
              {| cache := cache w;
                 fs_log := fs_log w
                           ++ ((fun i => (via_filesystem,
                                          op_stat (stat_path self dir files i)))
                               <$> started) |})).
Proof.
  intros path.
  assert (Hpath : forall i name, files !! i = Some name ->
            stat_path self dir files i = path name).
  { intros i name Hi. unfold stat_path. by rewrite Hi. }
  split.
  - intros Hok.
    rewrite (statFiles_ok self dir files filesystem sched w).
    + eexists. split; [|split].
      * do 3 f_equal. apply list_eq. intros i. rewrite !list_lookup_fmap.
        destruct (files !! i) as [name|] eqn:Hi.
        -- rewrite lookup_seq_lt by (by apply lookup_lt_Some in Hi). cbn.
           by rewrite (Hpath i name Hi).
        -- rewrite lookup_seq_ge by (by apply lookup_ge_None in Hi). done.
      * by rewrite length_fmap, length_seq.
      * intros i name Hi. rewrite list_lookup_fmap.
        rewrite lookup_seq_lt by (by apply lookup_lt_Some in Hi). cbn.
        by rewrite (Hpath i name Hi).
    + intros i err Hi Herr. apply lookup_lt_is_Some_2 in Hi as [name Hi].
      rewrite (Hpath i name Hi) in Herr.
      apply (Hok name err); [by apply (list_elem_of_lookup_2 _ i) | done].
  - intros (name & err & Hin & Herr & Hcode).
    apply list_elem_of_lookup in Hin as [i Hi].
    destruct (statFiles_failed self dir files filesystem sched w i err)
      as (j & err' & started & Hj & Herr' & Hcode' & E);
      [by apply lookup_lt_Some in Hi | by rewrite (Hpath i name Hi) | done |].
    apply lookup_lt_is_Some_2 in Hj as [name' Hj].
    exists name', err', started. split; [by apply (list_elem_of_lookup_2 _ j)|].
    split; [by rewrite <- (Hpath j name' Hj)|]. by split.
Qed.

(** Three entries of [/srv/www]; the third is not there, and its lookup
    completes first. *)
Lemma statFiles_positional_witness :
  statFiles Example.instance (js "/srv/www")
    [js "a.txt"; js "b"; js "gone"] Example.www [2; 0; 0]%nat Example.world0
  = (inr (Some (Batch.cb_results
                  [ Some (Some (Example.a_file 5));
                    Some (Some Example.a_directory);
                    Some None ])),
     {| cache := ∅;
        fs_log := [ (via_filesystem, op_stat (js "/srv/www/a.txt"));
                    (via_filesystem, op_stat (js "/srv/www/b"));
                    (via_filesystem, op_stat (js "/srv/www/gone")) ] |}).
Proof.
  destruct (statFiles_positional Example.instance (js "/srv/www")
              [js "a.txt"; js "b"; js "gone"] Example.www [2; 0; 0]%nat Example.world0)
    as [Hok _].
  destruct Hok as (stats & E & Hlen & Hpos).
  - intros name err Hin.
    repeat (apply elem_of_cons in Hin as [->|Hin]; [vm_compute; by intros [= <-]|]).
    by apply elem_of_nil in Hin.
  - assert (Hstats : stats = [ Some (Some (Example.a_file 5));
                               Some (Some Example.a_directory);
                               Some None ]).
    { apply list_eq. intros [|[|[|i]]].
      + by rewrite (Hpos 0%nat (js "a.txt")).
      + by rewrite (Hpos 1%nat (js "b")).
      + by rewrite (Hpos 2%nat (js "gone")).
      + cbn. apply lookup_ge_None. rewrite Hlen. cbn. lia. }
    rewrite E, Hstats. reflexivity.
Defined.

(** ** From [readdir] to the handlers *)

Section Listing.
Context `{Host} (self : ServeIndex.t).

Lemma removeHidden_subset (files : list jsstring) (x : jsstring) :
  x ∈ removeHidden files -> x ∈ files.
Proof. unfold removeHidden. rewrite !list_elem_of_In, filter_In. tauto. Qed.

Lemma apply_filter_subset (f : Filter) (files : list jsstring) (path x : jsstring) :
  x ∈ apply_filter f files path -> x ∈ files.
Proof.
  unfold apply_filter. rewrite list_elem_of_omap.
  intros ([i name] & Hin & Hf).
  apply list_elem_of_lookup in Hin as [k Hk]. rewrite list_lookup_imap in Hk.
  destruct (files !! k) as [name'|] eqn:E; [|done]. injection Hk as <- <-.
  destruct (f name' k files path); [|done]. injection Hf as <-.
  by eapply list_elem_of_lookup_2.
Qed.

Lemma visible_subset (files : list jsstring) (path x : jsstring) :
  x ∈ visible self files path -> x ∈ files.
Proof.
  unfold visible. intros Hx.
  assert (x ∈ (if negb (ServeIndex.hidden self) then removeHidden files else files))
    as Hx'.
  { destruct (ServeIndex.filter self); [by eapply apply_filter_subset | done]. }
  destruct (negb (ServeIndex.hidden self)); [by apply removeHidden_subset | done].
Qed.

Lemma listed_perm (files : list jsstring) (path : jsstring) :
  listed self files path ≡ₚ visible self files path.
Proof. apply Array_sort_perm. Qed.

Lemma listed_sorted (files : list jsstring) (path : jsstring) :
  StronglySorted (fun a b => code_unit_compare a b <= 0) (listed self files path).
Proof.
  apply (Array_sort_sorted (fun _ => True)).
  - intros a b _ _. rewrite (code_unit_compare_anti a b). lia.
  - intros a b c _ _ _. apply code_unit_compare_trans.
  - by apply Forall_forall.
Qed.

(** A request that passes the checks, for a directory that can be read,
    with an acceptable representation, is given to the handler. *)
Lemma serve_to_handler ov req sched w dir originalDir st files type media :
  method req = js "GET" \/ method req = js "HEAD" ->
  decodeURIComponent (url_pathname req) = Some dir ->
  decodeURIComponent (originalUrl_pathname req) = Some originalDir ->
  0%N ∉ resolved_path self dir ->
  outside_root self (resolved_path self dir) = false ->
  stat (ServeIndex.filesystem self) (resolved_path self dir) = inr st ->
  isDirectory st = true ->
  readdir (ServeIndex.filesystem self) (resolved_path self dir) = inr files ->
  accepts_type req mediaTypes = Some type ->
  mediaType type = Some media ->
  serve self ov req sched w
  = handler self ov media req
      {| h_files := listed self files (resolved_path self dir);
         h_dir := originalDir;
         h_showUp := show_up self (resolved_path self dir);
         h_displayIcons := ServeIndex.showIcons self;
         h_path := resolved_path self dir;
         h_view := ServeIndex.view self;
         h_template := ServeIndex.template self;
         h_stylesheet := ServeIndex.stylesheet self;
         h_filesystem := ServeIndex.filesystem self |}
      sched
      {| cache := cache w;
         fs_log := fs_log w
                   ++ [ (via_filesystem, op_stat (resolved_path self dir));
                        (via_filesystem, op_readdir (resolved_path self dir)) ] |}.
Proof.
  intros Hm Hd Ho Hnul Hin Hstat Hdir Hread Hacc Hmedia.
  rewrite (serve_to_stat self ov req sched w dir originalDir Hm Hd Ho Hnul Hin).
  cbv zeta. rewrite Hstat, Hdir, Hread, Hacc, Hmedia. cbn [negb fs_log cache].
  by rewrite <- app_assoc.
Qed.

(** [html] when no lookup fails but with ENOENT and the stylesheet can be
    read: the entries, the parent entry first among them when [showUp] is
    set, get their metadata, are sorted with [fileSort] and rendered. *)
Lemma html_ok args sched w style :
  let files := if h_showUp args then DOTDOT :: h_files args else h_files args in
  let lookup i := stat (h_filesystem args) (stat_path self (h_path args) files i) in
  (forall i err, (i < length files)%nat -> lookup i = inl err ->
     code_is err (js "ENOENT") = true) ->
  readFile fs (h_stylesheet args) = inr style ->
  html self args sched w
  = let render :=
      match h_template args with
      | template_path p => createHtmlRender self p
      | template_function f => fun locals => mret (f locals)
      end in
    let locals :=
      {| directory := h_dir args;
         displayIcons := h_displayIcons args;
         fileList :=
           Array_sort fileSort
             (file_list files
                ((fun i => Some (metadata_of (lookup i))) <$> seq 0 (length files)));
         locals_path := h_path args;
         style := style;
         viewName := h_view args |} in
    (r ← render locals; mret (rendered r))
      {| cache := cache w;
         fs_log := (fs_log w
                    ++ ((fun i => (via_filesystem,
                                   op_stat (stat_path self (h_path args) files i)))
                        <$> seq 0 (length files)))
                   ++ [(via_fs, op_readFile (h_stylesheet args))] |}.
Proof.
  intros files lookup Hok Hstyle. unfold html. fold files.
  unfold mbind at 1. unfold M_bind at 1.
  rewrite (statFiles_ok self (h_path args) files (h_filesystem args) sched w Hok).
  unfold mbind at 1. unfold M_bind at 1. unfold log_call. cbn beta iota.
  rewrite Hstyle. reflexivity.
Qed.
End Listing.

(** ** C2: the JSON representation *)

(** C2, as amended.  A request that is negotiated to [application/json] and
    reaches the built-in handler is answered with [JSON.stringify] of the
    entry names [serve] listed: the names [readdir] gave that passed
    [removeHidden] and the filter, rearranged by [files.sort()] into
    ascending order of their UTF-16 code units, with no regard to which are
    directories. *)
Theorem json_body_in_code_unit_order `{Host} (self : ServeIndex.t) (req : Request)
    (sched : list nat) (w : World) (dir originalDir : jsstring) (st : Stats)
    (files : list jsstring) :
  method req = js "GET" \/ method req = js "HEAD" ->
  decodeURIComponent (url_pathname req) = Some dir ->
  decodeURIComponent (originalUrl_pathname req) = Some originalDir ->
  0%N ∉ resolved_path self dir ->
  outside_root self (resolved_path self dir) = false ->
  stat (ServeIndex.filesystem self) (resolved_path self dir) = inr st ->
  isDirectory st = true ->
  readdir (ServeIndex.filesystem self) (resolved_path self dir) = inr files ->
  accepts_type req mediaTypes = Some (js "application/json") ->
  let path := resolved_path self dir in
  let names := listed self files path in
  serve self no_overrides req sched w
  = (inr (send (js "application/json") (JSON_stringify names)),
     {| cache := cache w;
        fs_log := fs_log w ++ [ (via_filesystem, op_stat path);
                                (via_filesystem, op_readdir path) ] |})
  /\ names ≡ₚ visible self files path
  /\ StronglySorted (fun a b => code_unit_compare a b <= 0) names.
Proof.
  intros Hm Hd Ho Hnul Hin Hstat Hdir Hread Hacc path names.
  split; [|split; [apply listed_perm | apply listed_sorted]].
  by rewrite (serve_to_handler self no_overrides req sched w dir originalDir st files
                (js "application/json") media_json).
Qed.

(** [GET /] accepting JSON, on [/srv/www]. *)
Lemma json_body_in_code_unit_order_witness :
  serve (H := Example.host) Example.instance no_overrides
    (Example.get (js "/") (js "application/json")) [] Example.world0
  = (inr (send (js "application/json") (JSON_stringify [js "a.txt"; js "b"])),
     {| cache := ∅;
        fs_log := [ (via_filesystem, op_stat (js "/srv/www/"));
                    (via_filesystem, op_readdir (js "/srv/www/")) ] |}).
Proof.
  pose proof (json_body_in_code_unit_order (H := Example.host) Example.instance
                (Example.get (js "/") (js "application/json")) [] Example.world0
                (js "/") (js "/") Example.a_directory
                [js "b"; js "a.txt"; js ".secret"]) as T.
  destruct T as (Hserve & _).
  - by left.
  - by vm_compute.
  - by vm_compute.
  - apply (bool_decide_eq_false_1 (0%N ∈ _)). by vm_compute.
  - by vm_compute.
  - by vm_compute.
  - done.
  - by vm_compute.
  - by vm_compute.
  - rewrite Hserve. by vm_compute.
Defined.

(** C2 as stated fails where a directory's name comes after a file's in code
    unit order: [/srv/www] holds the file [a.txt] and the directory [b];
    Sorter's order puts [b] first, the JSON body [a.txt]. *)
Lemma json_body_not_in_sorter_order :
  serve (H := Example.host) Example.instance no_overrides
    (Example.get (js "/") (js "application/json")) [] Example.world0
  = (inr (send (js "application/json") (JSON_stringify [js "a.txt"; js "b"])),
     {| cache := ∅;
        fs_log := [ (via_filesystem, op_stat (js "/srv/www/"));
                    (via_filesystem, op_readdir (js "/srv/www/")) ] |})
  /\ visible Example.instance
       [js "b"; js "a.txt"; js ".secret"] (js "/srv/www/") = [js "b"; js "a.txt"]
  /\ spec_sorter_order (H := Example.host) Example.instance (js "/srv/www/")
       [js "b"; js "a.txt"] = [js "b"; js "a.txt"]
  /\ JSON_stringify [js "a.txt"; js "b"] <> JSON_stringify [js "b"; js "a.txt"].
Proof. repeat split; by vm_compute. Qed.

(** ** C9: the parent entry *)

Lemma file_list_names (files : list jsstring) (stats : list (option (option Stats))) :
  File.name <$> file_list files stats = files.
Proof.
  apply list_eq. intros i. unfold file_list.
  rewrite list_lookup_fmap, list_lookup_imap. by destruct (files !! i).
Qed.

(** C9.  For a request that reaches a built-in handler, the plain and the
    JSON representation are the serialization of the entry names [serve]
    listed, and of nothing else, whether [showUp] is set or not: no [..] is
    put in front, so that no entry [..] is in the body unless [readdir]
    itself gave one.  The HTML handler does put [..] in front when [showUp]
    is set: the list it has rendered then holds an entry of that name. *)
Theorem parent_entry_only_in_html `{Host} (self : ServeIndex.t) (req : Request)
    (sched : list nat) (w : World) (dir originalDir : jsstring) (st : Stats)
    (files : list jsstring) :
  method req = js "GET" \/ method req = js "HEAD" ->
  decodeURIComponent (url_pathname req) = Some dir ->
  decodeURIComponent (originalUrl_pathname req) = Some originalDir ->
  0%N ∉ resolved_path self dir ->
  outside_root self (resolved_path self dir) = false ->
  stat (ServeIndex.filesystem self) (resolved_path self dir) = inr st ->
  isDirectory st = true ->
  readdir (ServeIndex.filesystem self) (resolved_path self dir) = inr files ->
  let path := resolved_path self dir in
  let names := listed self files path in
  let w2 := {| cache := cache w;
               fs_log := fs_log w ++ [ (via_filesystem, op_stat path);
                                       (via_filesystem, op_readdir path) ] |} in
  (accepts_type req mediaTypes = Some (js "text/plain") ->
   serve self no_overrides req sched w
   = (inr (send (js "text/plain") (join_with LF names ++ LF)), w2))
  /\ (accepts_type req mediaTypes = Some (js "application/json") ->
      serve self no_overrides req sched w
      = (inr (send (js "application/json") (JSON_stringify names)), w2))
  /\ (DOTDOT ∉ files -> DOTDOT ∉ names)
  /\ (accepts_type req mediaTypes = Some (js "text/html") ->
      show_up self path = true ->
      forall f style,
        ServeIndex.template self = template_function f ->
        (forall i err, (i < length (DOTDOT :: names))%nat ->
           stat (ServeIndex.filesystem self) (stat_path self path (DOTDOT :: names) i)
           = inl err ->
           code_is err (js "ENOENT") = true) ->
        readFile fs (ServeIndex.stylesheet self) = inr style ->
        exists locals w3,
          serve self no_overrides req sched w = (inr (rendered (f locals)), w3)
          /\ File.name <$> fileList locals ≡ₚ DOTDOT :: names).
Proof.
  intros Hm Hd Ho Hnul Hin Hstat Hdir Hread path names w2.
  split; [|split; [|split]].
  - intros Hacc.
    by rewrite (serve_to_handler self no_overrides req sched w dir originalDir st files
                  (js "text/plain") media_plain).
  - intros Hacc.
    by rewrite (serve_to_handler self no_overrides req sched w dir originalDir st files
                  (js "application/json") media_json).
  - intros Hno Hyes. apply Hno. apply (visible_subset self files path).
    by rewrite <- (listed_perm self files path).
  - intros Hacc Hup f style Htpl Hok Hstyle.
    rewrite (serve_to_handler self no_overrides req sched w dir originalDir st files
               (js "text/html") media_html) by done.
    unfold handler. cbn [override no_overrides serveIndex_html].
    erewrite html_ok; cbn [h_showUp h_files h_path h_filesystem h_stylesheet h_template];
      fold path; fold names; rewrite ?Hup; [| exact Hok | exact Hstyle].
    rewrite Htpl. cbv zeta. unfold mbind, M_bind, mret, M_ret. cbn beta iota.
    eexists _, _. split; [reflexivity|]. cbn [fileList].
    by rewrite Array_sort_perm, file_list_names.
Qed.

(** [GET /b] accepting plain text: [/srv/www/b] is below the root, so
    [showUp] is set, and the body lists [c.txt] alone. *)
Lemma parent_entry_only_in_html_witness :
  show_up Example.instance (js "/srv/www/b") = true
  /\ serve (H := Example.host) Example.instance no_overrides
       (Example.get (js "/b") (js "text/plain")) [] Example.world0
     = (inr (send (js "text/plain") (js "c.txt" ++ LF)),
        {| cache := ∅;
           fs_log := [ (via_filesystem, op_stat (js "/srv/www/b"));
                       (via_filesystem, op_readdir (js "/srv/www/b")) ] |}).
Proof.
  split; [by vm_compute|].
  pose proof (parent_entry_only_in_html (H := Example.host) Example.instance
                (Example.get (js "/b") (js "text/plain")) [] Example.world0
                (js "/b") (js "/b") Example.a_directory [js "c.txt"]) as T.
  destruct T as (Hplain & _).
  - by left.
  - by vm_compute.
  - by vm_compute.
  - apply (bool_decide_eq_false_1 (0%N ∈ _)). by vm_compute.
  - by vm_compute.
  - by vm_compute.
  - done.
  - by vm_compute.
  - rewrite Hplain; by vm_compute.
Defined.

(** ** C10: which filesystem object is called *)

Section LogsAllowed.
Lemma la_ret {A} (a : A) : logs_allowed (mret a).
Proof. intros w. exists []. by rewrite app_nil_r. Qed.

Lemma la_throw {A} (e : Exn) : logs_allowed (throw (A := A) e).
Proof. intros w. exists []. by rewrite app_nil_r. Qed.

Lemma la_uri {A} (o : option A) : logs_allowed (uri o).
Proof. destruct o; [apply la_ret | apply la_throw]. Qed.

Lemma la_log_call (c : FsCall) : allowed_call c -> logs_allowed (log_call c).
Proof. intros Hc w. exists [c]. split; [done|]. by constructor. Qed.

Lemma la_bind {A B} (m : M A) (k : A -> M B) :
  logs_allowed m -> (forall a, logs_allowed (k a)) -> logs_allowed (mbind k m).
Proof.
  intros Hm Hk w. unfold mbind, M_bind.
  destruct (Hm w) as (new1 & E1 & H1). destruct (m w) as [[e|a] w'].
  - by exists new1.
  - destruct (Hk a w') as (new2 & E2 & H2). exists (new1 ++ new2).
    split; [|by apply Forall_app].
    rewrite E2. cbn [snd] in E1. by rewrite E1, app_assoc.
Qed.

Lemma la_mapM {A B} (f : A -> M B) (l : list A) :
  (forall a, logs_allowed (f a)) -> logs_allowed (mapM f l).
Proof.
  intros Hf. induction l as [|a l IH]; [apply la_ret|].
  cbn [mapM]. apply la_bind; [apply Hf|]. intros b.
  apply la_bind; [exact IH|]. intros bs. apply la_ret.
Qed.
End LogsAllowed.

Section RendererLogs.
Context `{Host} (self : ServeIndex.t).

Lemma la_load (icon : Value) : logs_allowed (load icon).
Proof.
  intros w. unfold load. destruct (get_truthy (cache w) (to_string icon)).
  - exists []. by rewrite app_nil_r.
  - eexists [_]. split; [by destruct (readFileSync fs _)|]. by constructor.
Qed.

Lemma la_iconStyle_file acc file : logs_allowed (iconStyle_file self acc file).
Proof.
  unfold iconStyle_file. apply la_bind.
  - destruct (get_truthy _ _); [apply la_ret|].
    apply la_bind; [apply la_load | intros; apply la_ret].
  - intros acc'. destruct (get _ _); [apply la_ret | apply la_throw..].
Qed.

Lemma la_iconStyle_loop acc files : logs_allowed (iconStyle_loop self acc files).
Proof.
  revert acc. induction files as [|file files IH]; intros acc; [apply la_ret|].
  cbn [iconStyle_loop]. apply la_bind; [apply la_iconStyle_file | apply IH].
Qed.

Lemma la_iconStyle files useIcons : logs_allowed (iconStyle self files useIcons).
Proof.
  unfold iconStyle. destruct (negb useIcons); [apply la_ret|].
  apply la_bind; [apply la_iconStyle_loop | intros; apply la_ret].
Qed.

Lemma la_html_file_item dir useIcons file :
  logs_allowed (html_file_item self dir useIcons file).
Proof.
  unfold html_file_item. apply la_bind; [apply la_mapM; intros; apply la_uri|].
  intros path. apply la_bind; [apply la_uri | intros; apply la_ret].
Qed.

Lemma la_createHtmlFileList files dir useIcons view :
  logs_allowed (createHtmlFileList self files dir useIcons view).
Proof.
  unfold createHtmlFileList.
  apply la_bind; [apply la_mapM, la_html_file_item | intros; apply la_ret].
Qed.

Lemma la_htmlPath_loop parts todo : logs_allowed (htmlPath_loop parts todo).
Proof.
  revert parts. induction todo as [|part todo IH]; intros parts; [apply la_ret|].
  cbn [htmlPath_loop]. destruct (Posix.is_empty part).
  - apply la_bind; [apply IH | intros; apply la_ret].
  - apply la_bind; [apply la_uri|]. intros encoded.
    apply la_bind; [apply IH | intros; apply la_ret].
Qed.

Lemma la_htmlPath dir : logs_allowed (htmlPath dir).
Proof.
  unfold htmlPath. apply la_bind; [apply la_htmlPath_loop | intros; apply la_ret].
Qed.

Lemma la_createHtmlRender template locals :
  logs_allowed (createHtmlRender self template locals).
Proof.
  unfold createHtmlRender. apply la_bind; [by apply la_log_call|]. intros _.
  destruct (readFile fs template); [apply la_ret|].
  apply la_bind; [apply la_iconStyle|]. intros icon_css.
  apply la_bind; [apply la_createHtmlFileList|]. intros files_html.
  apply la_bind; [apply la_htmlPath | intros; apply la_ret].
Qed.

Lemma la_statFiles dir files filesystem sched :
  logs_allowed (statFiles self dir files filesystem sched).
Proof.
  unfold statFiles. apply la_bind; [|intros; apply la_ret].
  apply la_mapM. intros i. by apply la_log_call.
Qed.

Lemma la_html args sched : logs_allowed (html self args sched).
Proof.
  unfold html. apply la_bind; [apply la_statFiles|]. intros [[err|stats]|];
    try apply la_ret.
  apply la_bind; [by apply la_log_call|]. intros _.
  destruct (readFile fs _); [apply la_ret|].
  apply la_bind; [|intros; apply la_ret].
  destruct (h_template args); [apply la_createHtmlRender | apply la_ret].
Qed.

Lemma la_handler media req args sched :
  logs_allowed (handler self no_overrides media req args sched).
Proof.
  unfold handler. destruct media; cbn [override no_overrides serveIndex_html
    serveIndex_plain serveIndex_json]; [apply la_html | apply la_ret..].
Qed.

Lemma la_serve req sched : logs_allowed (serve self no_overrides req sched).
Proof.
  unfold serve. destruct (_ && _); [apply la_ret|].
  apply la_bind; [apply la_uri|]. intros dir.
  apply la_bind; [apply la_uri|]. intros originalDir.
  destruct (negb (Z.eqb _ 0)); [apply la_ret|].
  destruct (outside_root _ _); [apply la_ret|].
  apply la_bind; [by apply la_log_call|]. intros _.
  destruct (stat _ _) as [err|st].
  - destruct (code_is _ _); apply la_ret.
  - destruct (negb _); [apply la_ret|].
    apply la_bind; [by apply la_log_call|]. intros _.
    destruct (readdir _ _); [apply la_ret|].
    destruct (accepts_type _ _); [|apply la_ret].
    destruct (mediaType _); [apply la_handler | apply la_throw].
Qed.
End RendererLogs.

Section SameBehaviour.
Context `{Host}.

Lemma complete_all_ext fuel sched (f g : nat -> Err + Stats) st :
  (forall i, f i = g i) ->
  complete_all fuel sched f st = complete_all fuel sched g st.
Proof.
  intros Hfg. revert sched st. induction fuel as [|fuel IH]; intros sched st; [done|].
  rewrite !complete_all_S. destruct (Batch.in_flight st); [done|].
  cbv zeta. by rewrite Hfg, IH.
Qed.

Lemma statFiles_ext self dir files (fs1 fs2 : FileSystem) sched :
  (forall p, stat fs1 p = stat fs2 p) ->
  statFiles self dir files fs1 sched = statFiles self dir files fs2 sched.
Proof.
  intros Hstat. unfold statFiles.
  by rewrite (complete_all_ext _ _ _ (fun i => stat fs2 (stat_path self dir files i))).
Qed.

(** [filesystem] reaches [html] as an argument, and [html] only hands it
    to [statFiles]. *)
Lemma html_ext self files dir showUp icons path view template stylesheet
    (fs1 fs2 : FileSystem) sched :
  (forall p, stat fs1 p = stat fs2 p) ->
  html self {| h_files := files; h_dir := dir; h_showUp := showUp;
               h_displayIcons := icons; h_path := path; h_view := view;
               h_template := template; h_stylesheet := stylesheet;
               h_filesystem := fs1 |} sched
  = html self {| h_files := files; h_dir := dir; h_showUp := showUp;
                 h_displayIcons := icons; h_path := path; h_view := view;
                 h_template := template; h_stylesheet := stylesheet;
                 h_filesystem := fs2 |} sched.
Proof.
  intros Hstat. unfold html. cbn [h_files h_showUp h_path h_filesystem h_template
    h_stylesheet h_dir h_displayIcons h_view].
  by rewrite (statFiles_ext self path _ fs1 fs2).
Qed.

(** The methods read [this.pathLib] and nothing else of the instance that
    the filesystem object could change. *)
Lemma html_with_filesystem self filesystem args sched :
  html (with_filesystem self filesystem) args sched = html self args sched.
Proof. reflexivity. Qed.
End SameBehaviour.

(** C10.  With the built-in handlers, two filesystem objects that give the
    same answers to [stat] and to [readdir] make the same middleware: every
    request has the same outcome and leaves the same cache and the same log
    of calls, however the other operations of the two objects differ.  The
    calls a request makes are [stat] and [readdir] through the configured
    object and [readFile] and [readFileSync] through the module-level [fs],
    and no other. *)
Theorem configured_fs_only_stat_readdir `{Host} (self : ServeIndex.t)
    (filesystem' : FileSystem) (req : Request) (sched : list nat) (w : World) :
  (forall p, stat (ServeIndex.filesystem self) p = stat filesystem' p) ->
  (forall p, readdir (ServeIndex.filesystem self) p = readdir filesystem' p) ->
  serve (with_filesystem self filesystem') no_overrides req sched w
  = serve self no_overrides req sched w
  /\ exists new,
       fs_log (serve self no_overrides req sched w).2 = fs_log w ++ new
       /\ Forall allowed_call new.
Proof.
  intros Hstat Hreaddir. split; [|apply la_serve].
  unfold serve.
  change (resolved_path (with_filesystem self filesystem'))
    with (resolved_path self).
  change (outside_root (with_filesystem self filesystem'))
    with (outside_root self).
  change (show_up (with_filesystem self filesystem')) with (show_up self).
  change (listed (with_filesystem self filesystem')) with (listed self).
  cbn [with_filesystem ServeIndex.filesystem ServeIndex.showIcons ServeIndex.view
       ServeIndex.template ServeIndex.stylesheet].
  destruct (_ && _); [done|].
  unfold mbind, M_bind.
  destruct (uri (decodeURIComponent (url_pathname req)) w) as [[e|dir] w1]; [done|].
  destruct (uri (decodeURIComponent (originalUrl_pathname req)) w1)
    as [[e|originalDir] w2]; [done|].
  destruct (negb (Z.eqb _ 0)); [done|].
  destruct (outside_root self _); [done|].
  destruct (log_call _ w2) as [[e|[]] w3]; [done|].
  rewrite <- Hstat. destruct (stat _ _) as [err|st]; [done|].
  destruct (negb _); [done|].
  destruct (log_call _ w3) as [[e|[]] w4]; [done|].
  rewrite <- Hreaddir. destruct (readdir _ _) as [err|files]; [done|].
  destruct (accepts_type _ _) as [type|]; [|done].
  destruct (mediaType type) as [[| |]|]; [|done..].
  unfold handler. cbn [override no_overrides serveIndex_html].
  rewrite html_with_filesystem.
  symmetry. by rewrite (html_ext self _ _ _ _ _ _ _ _ _ filesystem').
Qed.

(** [/srv/www] through an object whose [readFile] and [readFileSync] always
    fail: the listing of [/b] as HTML is the same. *)
Lemma configured_fs_only_stat_readdir_witness :
  let unreadable :=
    {| stat := stat Example.www;
       readdir := readdir Example.www;
       readFile := fun _ => inl Example.EACCES;
       readFileSync := fun _ => inl Example.EACCES |} in
  serve (H := Example.host) (with_filesystem Example.instance unreadable) no_overrides
    (Example.get (js "/b") (js "text/html")) [] Example.world0
  = serve (H := Example.host) Example.instance no_overrides
      (Example.get (js "/b") (js "text/html")) [] Example.world0.
Proof.
  intros unreadable.
  apply (configured_fs_only_stat_readdir (H := Example.host) Example.instance unreadable
           (Example.get (js "/b") (js "text/html")) [] Example.world0).
  - intros p. reflexivity.
  - intros p. reflexivity.
Defined.

(** ** C7: [showUp] *)

Section PosixFacts.
Import Posix.

Lemma split_on_nonempty (c : N) (s : jsstring) : split_on c s <> [].
Proof.
  destruct s as [|x s]; simpl; [done|].
  destruct (N.eqb x c); [done|]. by destruct (split_on c s).
Qed.

Lemma split_on_app (c : N) (s t : jsstring) :
  split_on c (s ++ c :: t) = split_on c s ++ split_on c t.
Proof.
  induction s as [|x s IH]; simpl.
  - by rewrite N.eqb_refl.
  - destruct (N.eqb x c); [by rewrite IH|].
    rewrite IH. pose proof (split_on_nonempty c s).
    by destruct (split_on c s).
Qed.

Lemma split_on_absent (c : N) (s : jsstring) : c ∉ s -> split_on c s = [s].
Proof.
  induction s as [|x s IH]; intros Hc; simpl; [done|].
  apply not_elem_of_cons in Hc as [Hx Hc].
  destruct (N.eqb_spec x c) as [->|_]; [done|]. by rewrite IH.
Qed.

Lemma split_on_segments (c : N) (s : jsstring) :
  Forall (fun seg => c ∉ seg) (split_on c s).
Proof.
  induction s as [|x s IH]; simpl.
  - constructor; [apply not_elem_of_nil | constructor].
  - destruct (N.eqb_spec x c) as [->|Hne].
    + constructor; [apply not_elem_of_nil | done].
    + destruct (split_on c s) as [|seg segs].
      { constructor; [|constructor]. rewrite not_elem_of_cons.
        split; [congruence | apply not_elem_of_nil]. }
      apply Forall_cons in IH as [Hseg Hsegs]. constructor; [|done].
      rewrite not_elem_of_cons. split; [congruence | done].
Qed.

Lemma split_join (c : N) (segs : list jsstring) :
  Forall (fun seg => c ∉ seg) segs -> segs <> [] ->
  split_on c (join_with [c] segs) = segs.
Proof.
  induction segs as [|p segs IH]; intros Hall Hne; [done|].
  apply Forall_cons in Hall as [Hp Hall].
  destruct segs as [|q segs]; [by apply split_on_absent|].
  change (join_with [c] (p :: q :: segs)) with (p ++ c :: join_with [c] (q :: segs)).
  rewrite split_on_app, split_on_absent, IH by done. done.
Qed.

Lemma normalize_segment_clean (kept : list jsstring) (seg : jsstring) :
  Forall clean_segment kept -> SLASH ∉ seg ->
  Forall clean_segment (normalize_segment false kept seg).
Proof.
  intros Hkept Hseg. unfold normalize_segment.
  destruct seg as [|x seg]; [done|]. cbn [is_empty orb].
  destruct (str_eqb (x :: seg) [DOT]) eqn:E1; [done|].
  destruct (str_eqb (x :: seg) [DOT; DOT]) eqn:E2.
  - destruct kept as [|top below]; [done|].
    apply Forall_cons in Hkept as [Htop Hbelow].
    by destruct (str_eqb top [DOT; DOT]); [constructor|].
  - constructor; [|done].
    apply str_eqb_neq in E1. apply str_eqb_neq in E2. by repeat split.
Qed.

Lemma normalize_segments_clean (segs kept : list jsstring) :
  Forall clean_segment kept -> Forall (fun seg => SLASH ∉ seg) segs ->
  Forall clean_segment (fold_left (normalize_segment false) segs kept).
Proof.
  revert kept. induction segs as [|seg segs IH]; intros kept Hkept Hsegs; [done|].
  apply Forall_cons in Hsegs as [Hseg Hsegs]. cbn [fold_left].
  apply IH; [by apply normalize_segment_clean | done].
Qed.

Lemma normalize_segment_keeps (kept : list jsstring) (seg : jsstring) :
  clean_segment seg -> normalize_segment false kept seg = seg :: kept.
Proof.
  intros (H0 & H1 & H2 & _). unfold normalize_segment.
  destruct seg as [|x seg]; [done|]. cbn [is_empty orb].
  by rewrite (proj2 (str_eqb_neq _ _) H1), (proj2 (str_eqb_neq _ _) H2).
Qed.

Lemma normalize_segments_keep (segs kept : list jsstring) :
  Forall clean_segment segs ->
  fold_left (normalize_segment false) segs kept = rev segs ++ kept.
Proof.
  revert kept. induction segs as [|seg segs IH]; intros kept Hsegs; [done|].
  apply Forall_cons in Hsegs as [Hseg Hsegs]. cbn [fold_left].
  rewrite normalize_segment_keeps, IH by done. cbn [rev]. by rewrite <- app_assoc.
Qed.

(** The segments [normalizeString] keeps of an absolute path. *)
Lemma normalizeString_clean (path : jsstring) :
  exists segs, Forall clean_segment segs
               /\ normalizeString path false = join_with [SLASH] segs.
Proof.
  exists (rev (fold_left (normalize_segment false) (split_on SLASH path) [])).
  split; [|done]. apply Forall_rev.
  apply normalize_segments_clean; [done | apply split_on_segments].
Qed.

(** Normalizing [/n/], for [n] made of kept segments, changes nothing,
    but that [//] becomes [/]. *)
Lemma normalize_clean_slash (segs : list jsstring) :
  Forall clean_segment segs ->
  normalize (SLASH :: join_with [SLASH] segs ++ [SLASH])
  = with_trailing_slash (join_with [SLASH] segs).
Proof.
  intros Hsegs. set (n := join_with [SLASH] segs).
  assert (Hn : normalizeString (SLASH :: n ++ [SLASH]) false = n).
  { unfold normalizeString.
    change (SLASH :: n ++ [SLASH]) with ([] ++ SLASH :: (n ++ [SLASH])).
    rewrite split_on_app. cbn [split_on app].
    change (n ++ [SLASH]) with (n ++ SLASH :: []).
    rewrite split_on_app. cbn [split_on].
    subst n. destruct segs as [|p segs]; [reflexivity|].
    rewrite split_join; [| |done].
    - change (fold_left (normalize_segment false) ([] :: (p :: segs) ++ [[]]) [])
        with (fold_left (normalize_segment false) ((p :: segs) ++ [[]]) []).
      rewrite fold_left_app, (normalize_segments_keep (p :: segs) [] Hsegs).
      cbn [fold_left]. unfold normalize_segment. cbn [is_empty orb].
      by rewrite app_nil_r, rev_involutive.
    - eapply Forall_impl; [exact Hsegs|]. by intros seg (_ & _ & _ & ?). }
  unfold normalize. cbn [is_empty starts_with_slash]. rewrite N.eqb_refl.
  cbn [negb]. rewrite Hn.
  assert (Hend : ends_with_slash (SLASH :: n ++ [SLASH]) = true).
  { unfold ends_with_slash.
    change (SLASH :: n ++ [SLASH]) with ((SLASH :: n) ++ [SLASH]).
    by rewrite last_snoc, N.eqb_refl. }
  rewrite Hend. unfold with_trailing_slash. by destruct (is_empty n).
Qed.

(** [resolve] with an absolute working directory is [/] and the kept
    segments of an absolute path. *)
Lemma resolve_clean (cwd path : jsstring) :
  starts_with_slash cwd = true ->
  exists segs, Forall clean_segment segs
               /\ resolve cwd [path] = SLASH :: join_with [SLASH] segs.
Proof.
  intros Hcwd. unfold resolve. cbn [rev app resolve_loop].
  assert (Hne : is_empty cwd = false) by by destruct cwd.
  assert (Hall : forall p, exists segs,
            Forall clean_segment segs
            /\ SLASH :: normalizeString p (negb true)
               = SLASH :: join_with [SLASH] segs).
  { intros p. destruct (normalizeString_clean p) as (segs & Hsegs & E).
    exists segs. split; [done|]. cbn [negb]. by rewrite E. }
  destruct (is_empty path).
  - rewrite Hne, Hcwd. apply Hall.
  - destruct (starts_with_slash path).
    + apply Hall.
    + rewrite Hne, Hcwd. apply Hall.
Qed.


End PosixFacts.



(** * Further properties of the code *)

(** ** The gates of [serve] *)

(** X1.  A request whose method is neither [GET] nor [HEAD] is answered at
    once: status 200 for [OPTIONS] and 405 for any other method, the header
    [Allow: GET, HEAD, OPTIONS], a [Content-Length] of [0] and no body.  The
    pathname is not decoded and the filesystem is not called, so such a
    request cannot throw, and [next] is not called. *)
Theorem serve_other_methods `{Host} (self : ServeIndex.t) (ov : Overrides)
    (req : Request) (sched : list nat) (w : World) :
  method req <> js "GET" ->
  method req <> js "HEAD" ->
  serve self ov req sched w
  = (inr (responded
            {| statusCode := Some (if str_eqb (js "OPTIONS") (method req) then 200 else 405);
               headers := [ (js "Allow", hv_string (js "GET, HEAD, OPTIONS"));
                            (js "Content-Length", hv_string (js "0")) ];
               body := None |}),
     w).
Proof.
  intros Hget Hhead. unfold serve.
  by rewrite (proj2 (str_eqb_neq _ _) Hget), (proj2 (str_eqb_neq _ _) Hhead).
Qed.

(** [DELETE /%zz]: status 405, although the pathname does not decode. *)
Lemma serve_other_methods_witness :
  serve (H := Example.host) Example.instance no_overrides
    {| method := js "DELETE"; url_pathname := js "/%zz";
       originalUrl_pathname := js "/%zz"; accepts_type := fun _ => None |}
    [] Example.world0
  = (inr (responded
            {| statusCode := Some 405;
               headers := [ (js "Allow", hv_string (js "GET, HEAD, OPTIONS"));
                            (js "Content-Length", hv_string (js "0")) ];
               body := None |}),
     Example.world0).
Proof.
  apply (serve_other_methods (H := Example.host) Example.instance no_overrides
           {| method := js "DELETE"; url_pathname := js "/%zz";
              originalUrl_pathname := js "/%zz"; accepts_type := fun _ => None |}
           [] Example.world0).
  - apply str_eqb_neq. vm_compute. reflexivity.
  - apply str_eqb_neq. vm_compute. reflexivity.
Defined.

(** X2.  A [GET] or [HEAD] request whose resolved path holds a NUL is handed
    to [next] with [createError(400)], whether the path lies inside the root
    or not, and the filesystem is not called. *)
Theorem serve_nul_400 `{Host} (self : ServeIndex.t) (ov : Overrides)
    (req : Request) (sched : list nat) (w : World) (dir originalDir : jsstring) :
  method req = js "GET" \/ method req = js "HEAD" ->
  decodeURIComponent (url_pathname req) = Some dir ->
  decodeURIComponent (originalUrl_pathname req) = Some originalDir ->
  0%N ∈ resolved_path self dir ->
  serve self ov req sched w = (inr (next (Some (createError 400))), w).
Proof.
  intros Hm Hd Ho Hnul. unfold serve.
  rewrite (method_allowed _ Hm), Hd, Ho. cbn [uri].
  unfold mbind, M_bind, mret, M_ret. cbn beta iota.
  by rewrite nul_test, (bool_decide_eq_true_2 _ Hnul).
Qed.

(** [GET /b/%00]: inside the root, and still status 400. *)
Lemma serve_nul_400_witness :
  outside_root Example.instance
    (resolved_path Example.instance (js "/b/" ++ [0%N])) = false
  /\ serve (H := Example.host) Example.instance no_overrides
       (Example.get (js "/b/%00") (js "text/html")) [] Example.world0
     = (inr (next (Some (createError 400))), Example.world0).
Proof.
  split; [vm_compute; reflexivity|].
  apply (serve_nul_400 (H := Example.host) Example.instance no_overrides
           (Example.get (js "/b/%00") (js "text/html")) [] Example.world0
           (js "/b/" ++ [0%N]) (js "/b/" ++ [0%N])).
  - left. reflexivity.
  - vm_compute. reflexivity.
  - vm_compute. reflexivity.
  - apply (bool_decide_eq_true_1 (0%N ∈ _)). vm_compute. reflexivity.
Defined.

(** X3.  Once the resolved path is known to be a directory, a failure of
    [readdir] is handed to [next] as it is, with no status assigned; and when
    the directory was read but the client accepts none of [text/html],
    [text/plain] and [application/json], [next] gets [createError(406)].  In
    both cases the directory has had its [stat] and its [readdir] and no
    other call, and nothing is sent. *)
Theorem serve_readdir_error_and_406 `{Host} (self : ServeIndex.t) (ov : Overrides)
    (req : Request) (sched : list nat) (w : World) (dir originalDir : jsstring)
    (st : Stats) :
  method req = js "GET" \/ method req = js "HEAD" ->
  decodeURIComponent (url_pathname req) = Some dir ->
  decodeURIComponent (originalUrl_pathname req) = Some originalDir ->
  0%N ∉ resolved_path self dir ->
  outside_root self (resolved_path self dir) = false ->
  stat (ServeIndex.filesystem self) (resolved_path self dir) = inr st ->
  isDirectory st = true ->
  let path := resolved_path self dir in
  let w2 := {| cache := cache w;
               fs_log := fs_log w ++ [ (via_filesystem, op_stat path);
                                       (via_filesystem, op_readdir path) ] |} in
  (forall err, readdir (ServeIndex.filesystem self) path = inl err ->
     serve self ov req sched w = (inr (next (Some err)), w2))
  /\ (forall files, readdir (ServeIndex.filesystem self) path = inr files ->
        accepts_type req mediaTypes = None ->
        serve self ov req sched w = (inr (next (Some (createError 406))), w2)).
Proof.
  intros Hm Hd Ho Hnul Hin Hstat Hdir path w2.
  pose proof (serve_to_stat self ov req sched w dir originalDir Hm Hd Ho Hnul Hin) as E.
  cbv zeta in E. rewrite Hstat, Hdir in E. cbn [negb fs_log cache] in E.
  fold path in E. subst w2. split.
  - intros err Hread. rewrite E, Hread. by rewrite <- app_assoc.
  - intros files Hread Hacc. rewrite E, Hread, Hacc. by rewrite <- app_assoc.
Qed.

(** [GET /] accepting only [image/png]. *)
Lemma serve_readdir_error_and_406_witness :
  serve (H := Example.host) Example.instance no_overrides
    (Example.get (js "/") (js "image/png")) [] Example.world0
  = (inr (next (Some (createError 406))),
     {| cache := ∅;
        fs_log := [ (via_filesystem, op_stat (js "/srv/www/"));
                    (via_filesystem, op_readdir (js "/srv/www/")) ] |}).
Proof.
  pose proof (serve_readdir_error_and_406 (H := Example.host) Example.instance
                no_overrides (Example.get (js "/") (js "image/png")) [] Example.world0
                (js "/") (js "/") Example.a_directory) as T.
  destruct T as [_ T406].
  - left. reflexivity.
  - vm_compute. reflexivity.
  - vm_compute. reflexivity.
  - apply (bool_decide_eq_false_1 (0%N ∈ _)). vm_compute. reflexivity.
  - vm_compute. reflexivity.
  - vm_compute. reflexivity.
  - reflexivity.
  - rewrite (T406 [js "b"; js "a.txt"; js ".secret"]).
    + vm_compute. reflexivity.
    + vm_compute. reflexivity.
    + vm_compute. reflexivity.
Defined.

(** X4.  With the built-in handlers a [HEAD] request is handled as the [GET]
    request it would otherwise be: the same calls, the same headers, and the
    same body handed to [res.end]. *)
Theorem serve_head_as_get `{Host} (self : ServeIndex.t) (sched : list nat) (w : World)
    (pathname original : jsstring) (accepts : list jsstring -> option jsstring) :
  serve self no_overrides
    {| method := js "HEAD"; url_pathname := pathname;
       originalUrl_pathname := original; accepts_type := accepts |} sched w
  = serve self no_overrides
      {| method := js "GET"; url_pathname := pathname;
         originalUrl_pathname := original; accepts_type := accepts |} sched w.
Proof.
  unfold serve. cbn [method url_pathname originalUrl_pathname accepts_type].
  change (negb (str_eqb (js "HEAD") (js "GET")) && negb (str_eqb (js "HEAD") (js "HEAD")))
    with false.
  change (negb (str_eqb (js "GET") (js "GET")) && negb (str_eqb (js "GET") (js "HEAD")))
    with false.
  cbn iota. unfold mbind, M_bind.
  destruct (uri (decodeURIComponent pathname) w) as [[e|dir] w1]; [done|].
  destruct (uri (decodeURIComponent original) w1) as [[e|originalDir] w2]; [done|].
  destruct (negb (Z.eqb _ 0)); [done|].
  destruct (outside_root self _); [done|].
  destruct (log_call _ w2) as [[e|[]] w3]; [done|].
  destruct (stat _ _) as [err|st]; [done|].
  destruct (negb _); [done|].
  destruct (log_call _ w3) as [[e|[]] w4]; [done|].
  destruct (readdir _ _) as [err|files]; [done|].
  destruct (accepts _) as [type|]; [|done].
  by destruct (mediaType type) as [[| |]|].
Qed.

(** ** The names [serve] lists *)










#[local] Instance code_unit_le_antisym :
  AntiSymm (=) (fun a b : jsstring => code_unit_compare a b <= 0).
Proof.
  intros a b Hab Hba. apply code_unit_compare_eq.
  rewrite (code_unit_compare_anti b a) in Hba. lia.
Qed.




(** ** [statFiles] and [html] *)

Section BatchCalls.
Context {R : Type}.
Implicit Types (st : Batch.State R) (ev : Batch.Event R).

Lemma steps_app st (evs evs' : list (Batch.Event R)) :
  Batch.steps st (evs ++ evs')
  = match Batch.steps st evs with
    | Some st' => Batch.steps st' evs'
    | None => None
    end.
Proof.
  revert st. induction evs as [|ev evs IH]; intros st; [done|].
  cbn [app Batch.steps]. destruct (Batch.step st ev); [apply IH | done].
Qed.

Lemma next_calls st : Batch.calls (Batch.next st) = Batch.calls st.
Proof. done. Qed.

(** A call of [cb], once made, stands. *)
Lemma step_calls st ev st' :
  Batch.step st ev = Some st' -> Batch.calls st `prefix_of` Batch.calls st'.
Proof.
  destruct ev as [|i r].
  - intros Hstep. apply step_loop in Hstep as [_ ->]. by cbn.
  - unfold Batch.step. case_bool_decide; [|done]. intros [= <-].
    unfold Batch.callback. cbn [Batch.done]. destruct (Batch.done st); [done|].
    destruct r as [err|v]; [by apply prefix_app_r|].
    cbn [Batch.pending]. destruct (negb _); [by rewrite next_calls|].
    by apply prefix_app_r.
Qed.

Lemma steps_calls st evs st' :
  Batch.steps st evs = Some st' -> Batch.calls st `prefix_of` Batch.calls st'.
Proof.
  revert st. induction evs as [|ev evs IH]; intros st; [by intros [= <-]|].
  cbn [Batch.steps]. destruct (Batch.step st ev) as [st1|] eqn:E; [|done].
  intros Hsteps. etrans; [by eapply step_calls | by apply IH].
Qed.

Lemma invariant_calls_once fns n evs st :
  Batch.invariant fns n evs st -> (length (Batch.calls st) <= 1)%nat.
Proof.
  intros Hinv. destruct (Batch.done st) eqn:Hd.
  - destruct (Batch.inv_failed _ _ _ _ Hinv Hd) as (i & err & _ & ->). done.
  - destruct (Batch.inv_running _ _ _ _ Hinv Hd) as (_ & _ & _ & H4 & H5).
    destruct (Batch.pending st) as [|p].
    + by rewrite H5.
    + destruct H4 as [_ ->]; [lia | cbn; lia].
Qed.
End BatchCalls.

(** X8.  However the lookups of [statFiles] are answered, and at whatever
    point of the run, [cb] has been called at most once; and what it was
    called with is not followed by another call as the run goes on. *)
Theorem statFiles_calls_back_at_most_once (files : list jsstring)
    (evs evs' : list StatEvent) (st st' : Batch.State (option Stats)) :
  statFiles_after files evs = Some st ->
  (length (Batch.calls st) <= 1)%nat
  /\ (statFiles_after files (evs ++ evs') = Some st' ->
      Batch.calls st <> [] -> Batch.calls st' = Batch.calls st).
Proof.
  intros Hsteps. split.
  - eapply invariant_calls_once. by apply invariant_steps.
  - intros Hsteps' Hcalled.
    pose proof (invariant_calls_once _ _ _ _ (invariant_steps _ _ _ _ Hsteps')) as Hle.
    unfold statFiles_after in Hsteps, Hsteps'.
    rewrite fmap_app, steps_app, Hsteps in Hsteps'.
    apply steps_calls in Hsteps' as [extra Hextra]. rewrite Hextra in Hle |- *.
    destruct (Batch.calls st) as [|c calls]; [done|].
    rewrite length_app in Hle. cbn in Hle.
    destruct calls; [|cbn in Hle; lia]. destruct extra; [done | cbn in Hle; lia].
Qed.

(** Two lookups; the first fails, and then the second is answered. *)
Lemma statFiles_calls_back_at_most_once_witness :
  exists st st',
    statFiles_after [js "a"; js "b"]
      [stat_loop; stat_loop; stat_answer 0 (inl Example.EACCES)] = Some st
    /\ statFiles_after [js "a"; js "b"]
         ([stat_loop; stat_loop; stat_answer 0 (inl Example.EACCES)]
          ++ [stat_answer 1 (inr (Example.a_file 1))]) = Some st'
    /\ Batch.calls st = [Batch.cb_error Example.EACCES]
    /\ Batch.calls st' = Batch.calls st.
Proof.
  destruct (statFiles_after [js "a"; js "b"]
              [stat_loop; stat_loop; stat_answer 0 (inl Example.EACCES)])
    as [st|] eqn:E; [|vm_compute in E; discriminate E].
  destruct (statFiles_after [js "a"; js "b"]
              ([stat_loop; stat_loop; stat_answer 0 (inl Example.EACCES)]
               ++ [stat_answer 1 (inr (Example.a_file 1))]))
    as [st'|] eqn:E'; [|vm_compute in E'; discriminate E'].
  exists st, st'. split; [reflexivity|]. split; [reflexivity|].
  assert (Hc : Batch.calls st = [Batch.cb_error Example.EACCES]).
  { vm_compute in E. injection E as <-. reflexivity. }
  split; [exact Hc|].
  apply (proj2 (statFiles_calls_back_at_most_once [js "a"; js "b"] _ _ st st' E) E').
  rewrite Hc. discriminate.
Defined.

Section HtmlOutcomes.
Context `{Host} (self : ServeIndex.t).


End HtmlOutcomes.


Section HtmlRendering.
Context `{Host} (self : ServeIndex.t).

(** [html] once the lookups have gone well: the stylesheet is read next. *)
Lemma html_after_stats args sched w :
  let files := if h_showUp args then DOTDOT :: h_files args else h_files args in
  let lookup i := stat (h_filesystem args) (stat_path self (h_path args) files i) in
  (forall i err, (i < length files)%nat -> lookup i = inl err ->
     code_is err (js "ENOENT") = true) ->
  html self args sched w
  = let render :=
      match h_template args with
      | template_path p => createHtmlRender self p
      | template_function f => fun locals => mret (f locals)
      end in
    let w1 :=
      {| cache := cache w;
         fs_log := (fs_log w
                    ++ ((fun i => (via_filesystem,
                                   op_stat (stat_path self (h_path args) files i)))
                        <$> seq 0 (length files)))
                   ++ [(via_fs, op_readFile (h_stylesheet args))] |} in
    match readFile fs (h_stylesheet args) with
    | inl err => (inr (next (Some err)), w1)
    | inr style =>
        (r ← render
               {| directory := h_dir args;
                  displayIcons := h_displayIcons args;
                  fileList :=
                    Array_sort fileSort
                      (file_list files
                         ((fun i => Some (metadata_of (lookup i)))
                          <$> seq 0 (length files)));
                  locals_path := h_path args;
                  style := style;
                  viewName := h_view args |};
         mret (rendered r)) w1
    end.
Proof.
  intros files lookup Hok. unfold html. fold files.
  unfold mbind at 1. unfold M_bind at 1.
  rewrite (statFiles_ok self (h_path args) files (h_filesystem args) sched w Hok).
  unfold mbind at 1. unfold M_bind at 1. unfold log_call. cbn beta iota.
  by destruct (readFile fs (h_stylesheet args)).
Qed.

(** X10.  When the lookups have gone well, a failure to read the stylesheet
    is handed to [next] and the template is not read; and with a template
    given by its path, a failure to read the template is handed to [next]
    likewise.  Both files are read through the module-level [fs]. *)
Theorem html_read_failures (args : HandlerArgs) (sched : list nat) (w : World) :
  let files := if h_showUp args then DOTDOT :: h_files args else h_files args in
  let lookup i := stat (h_filesystem args) (stat_path self (h_path args) files i) in
  let w1 :=
    {| cache := cache w;
       fs_log := (fs_log w
                  ++ ((fun i => (via_filesystem,
                                 op_stat (stat_path self (h_path args) files i)))
                      <$> seq 0 (length files)))
                 ++ [(via_fs, op_readFile (h_stylesheet args))] |} in
  (forall i err, (i < length files)%nat -> lookup i = inl err ->
     code_is err (js "ENOENT") = true) ->
  (forall err, readFile fs (h_stylesheet args) = inl err ->
     html self args sched w = (inr (next (Some err)), w1))
  /\ (forall style p err,
        readFile fs (h_stylesheet args) = inr style ->
        h_template args = template_path p ->
        readFile fs p = inl err ->
        html self args sched w
        = (inr (next (Some err)),
           {| cache := cache w; fs_log := fs_log w1 ++ [(via_fs, op_readFile p)] |})).
Proof.
  intros files lookup w1 Hok.
  pose proof (html_after_stats args sched w Hok) as E. cbv zeta in E.
  fold files in E. fold w1 in E. split.
  - intros err Hstyle. by rewrite E, Hstyle.
  - intros style p err Hstyle Htpl Hread. rewrite E, Hstyle, Htpl.
    unfold createHtmlRender, mbind, M_bind, log_call. cbn beta iota.
    by rewrite Hread.
Qed.
End HtmlRendering.

(** The listing of [/b] with a stylesheet that is not there. *)
Lemma html_read_failures_witness :
  html (H := Example.host) Example.instance
    (Example.args_b Example.www (template_path (js "/app/public/directory.html"))
       (js "/app/public/none.css")) [] Example.world0
  = (inr (next (Some Example.ENOENT)),
     {| cache := ∅;
        fs_log := [ (via_filesystem, op_stat (js "/srv/www"));
                    (via_filesystem, op_stat (js "/srv/www/b/c.txt"));
                    (via_fs, op_readFile (js "/app/public/none.css")) ] |}).
Proof.
  destruct (@html_read_failures Example.host Example.instance
              (Example.args_b Example.www
                 (template_path (js "/app/public/directory.html"))
                 (js "/app/public/none.css")) [] Example.world0) as [Hstyle _].
  - intros i err Hi. cbn in Hi.
    destruct i as [|[|i]]; [vm_compute; discriminate.. | lia].
  - rewrite (Hstyle Example.ENOENT); vm_compute; reflexivity.
Defined.

(** ** The list [html] renders *)

Section RenderedList.
Context `{Host}.

Lemma fileSort_parent_first (a b : File.t) :
  File.name a <> DOTDOT -> File.name b = DOTDOT -> fileSort a b = 1.
Proof.
  intros Ha Hb. unfold fileSort. rewrite Hb, str_eqb_refl, orb_true_r.
  by rewrite (proj2 (str_eqb_neq (File.name a) DOTDOT) Ha).
Qed.

Lemma sorted_parent_first (l : list File.t) (e : File.t) :
  StronglySorted file_le l -> e ∈ l -> File.name e = DOTDOT ->
  exists first rest, l = first :: rest /\ File.name first = DOTDOT.
Proof.
  intros Hs He Hname. destruct l as [|first rest]; [by apply elem_of_nil in He|].
  exists first, rest. split; [done|].
  destruct (decide (File.name first = DOTDOT)) as [|Hne]; [done|].
  apply elem_of_cons in He as [->|He]; [done|].
  apply StronglySorted_inv in Hs as [_ Hall].
  rewrite Forall_forall in Hall. specialize (Hall e He). unfold file_le in Hall.
  rewrite (fileSort_parent_first first e Hne Hname) in Hall. lia.
Qed.

Lemma file_list_entry (files : list jsstring) (lookup : nat -> Err + Stats) (e : File.t) :
  e ∈ file_list files ((fun i => Some (metadata_of (lookup i))) <$> seq 0 (length files)) ->
  exists k, files !! k = Some (File.name e)
            /\ File.stat e = match lookup k with
                             | inr s => md_stats s
                             | inl _ => md_null
                             end.
Proof.
  intros He. unfold file_list in He. apply list_elem_of_lookup in He as [k He].
  rewrite list_lookup_imap in He.
  destruct (files !! k) as [name|] eqn:Hk; [|done]. injection He as <-.
  exists k. split; [done|]. cbn [File.stat]. unfold stats_at.
  rewrite list_lookup_fmap, lookup_seq_lt by (by apply lookup_lt_Some in Hk).
  cbn. by destruct (lookup k).
Qed.
End RenderedList.

(** X11.  When every lookup gives a stat record or fails with [ENOENT] and
    the stylesheet can be read, [html] hands the render function a list that
    holds the entries it was given, and [..] when [showUp] is set, each with
    the record of its own lookup ([null] where the file has vanished), in
    the order of [fileSort]; with [showUp] set the list starts with [..]. *)
Theorem html_renders_sorted_listing `{Host} (self : ServeIndex.t)
    (args : HandlerArgs) (sched : list nat) (w : World) (css : jsstring) :
  let files := if h_showUp args then DOTDOT :: h_files args else h_files args in
  let lookup i := stat (h_filesystem args) (stat_path self (h_path args) files i) in
  let render :=
    match h_template args with
    | template_path p => createHtmlRender self p
    | template_function f => fun locals => mret (f locals)
    end in
  (forall a b, localeCompare a b < 0 <-> 0 < localeCompare b a) ->
  (forall a b c,
     localeCompare a b <= 0 -> localeCompare b c <= 0 -> localeCompare a c <= 0) ->
  (forall i err, (i < length files)%nat -> lookup i = inl err ->
     code_is err (js "ENOENT") = true) ->
  readFile fs (h_stylesheet args) = inr css ->
  exists entries,
    html self args sched w
    = (r ← render {| directory := h_dir args;
                      displayIcons := h_displayIcons args;
                      fileList := entries;
                      locals_path := h_path args;
                      style := css;
                      viewName := h_view args |};
       mret (rendered r))
        {| cache := cache w;
           fs_log := (fs_log w
                      ++ ((fun i => (via_filesystem,
                                     op_stat (stat_path self (h_path args) files i)))
                          <$> seq 0 (length files)))
                     ++ [(via_fs, op_readFile (h_stylesheet args))] |}
    /\ File.name <$> entries ≡ₚ files
    /\ (forall e, e ∈ entries ->
          exists k, files !! k = Some (File.name e)
                    /\ File.stat e = match lookup k with
                                     | inr s => md_stats s
                                     | inl _ => md_null
                                     end)
    /\ StronglySorted file_le entries
    /\ (h_showUp args = true ->
        exists first rest, entries = first :: rest /\ File.name first = DOTDOT).
Proof.
  intros files lookup render lc_anti lc_trans Hok Hcss.
  pose proof (html_after_stats self args sched w Hok) as E. cbv zeta in E.
  fold files in E. rewrite Hcss in E.
  set (unsorted := file_list files
                     ((fun i => Some (metadata_of (lookup i))) <$> seq 0 (length files))).
  assert (Hmeta : Forall has_metadata unsorted) by apply file_list_has_metadata.
  assert (Hsorted : StronglySorted file_le (Array_sort fileSort unsorted)).
  { apply (Array_sort_sorted has_metadata fileSort); [| |done].
    - intros a b Ha Hb. by apply fileSort_anti.
    - intros a b c Ha Hb Hc. by apply fileSort_trans. }
  assert (Hnames : File.name <$> Array_sort fileSort unsorted ≡ₚ files).
  { rewrite (Array_sort_perm fileSort unsorted). unfold unsorted.
    by rewrite file_list_names. }
  exists (Array_sort fileSort unsorted). split; [exact E|].
  split; [exact Hnames|]. split; [|split; [exact Hsorted|]].
  - intros e He. rewrite (Array_sort_perm fileSort unsorted) in He.
    by apply file_list_entry.
  - intros Hup.
    assert (Hin : DOTDOT ∈ File.name <$> Array_sort fileSort unsorted).
    { rewrite Hnames. unfold files. rewrite Hup. apply list_elem_of_here. }
    apply list_elem_of_fmap in Hin as (e & Hname & He).
    by apply (sorted_parent_first _ e).
Qed.

(** The listing of [/b]: the parent entry, then [c.txt]. *)
Lemma html_renders_sorted_listing_witness :
  exists entries,
    html (H := Example.host) Example.instance
      (Example.args_b Example.www (template_function (fun _ => inr (js "ok")))
         (js "/app/public/style.css")) [] Example.world0
    = (inr (send (js "text/html") (js "ok")),
       {| cache := ∅;
          fs_log := [ (via_filesystem, op_stat (js "/srv/www"));
                      (via_filesystem, op_stat (js "/srv/www/b/c.txt"));
                      (via_fs, op_readFile (js "/app/public/style.css")) ] |})
    /\ File.name <$> entries = [js ".."; js "c.txt"].
Proof.
  pose (args := Example.args_b Example.www (template_function (fun _ => inr (js "ok")))
                  (js "/app/public/style.css")).
  destruct (readFile (fs (Host := Example.host)) (h_stylesheet args)) as [err|css] eqn:Hcss;
    [vm_compute in Hcss; discriminate Hcss|].
  destruct (html_renders_sorted_listing (H := Example.host) Example.instance
              args [] Example.world0 css)
    as (entries & E & Hnames & _ & _ & Hfirst).
  - intros a b. cbn [localeCompare Example.host].
    rewrite (code_unit_compare_anti a b). lia.
  - intros a b c. apply code_unit_compare_trans.
  - intros i err Hi. cbn in Hi.
    destruct i as [|[|i]]; [vm_compute; discriminate.. | lia].
  - exact Hcss.
  - exists entries. split; [etrans; [exact E|]; vm_compute; reflexivity|].
    destruct (Hfirst eq_refl) as (first & rest & -> & Hname).
    cbn [fmap list_fmap] in Hnames |- *. rewrite Hname in Hnames |- *.
    apply Permutation_cons_inv in Hnames.
    change (h_files args) with [js "c.txt"] in Hnames.
    apply Permutation_singleton_r in Hnames. by rewrite Hnames.
Defined.

(** ** Icons *)

Lemma get_truthy_Some (table : gmap (list N) (list N)) (key : jsstring) (v : Value) :
  get_truthy table key = Some v ->
  (exists s, table !! key = Some s /\ s <> [] /\ v = v_string s)
  \/ (table !! key = None /\ inherited key = true /\ v = v_prototype key).
Proof.
  unfold get_truthy, get. destruct (table !! key) as [[|c s]|]; [done| |].
  - intros [= <-]. left. by exists (c :: s).
  - destruct (inherited key); [|done]. intros [= <-]. by right.
Qed.

Lemma get_truthy_None (table : gmap (list N) (list N)) (key : jsstring) :
  get_truthy table key = None ->
  table !! key = Some [] \/ (table !! key = None /\ inherited key = false).
Proof.
  unfold get_truthy, get. destruct (table !! key) as [[|c s]|]; [by left|done|].
  destruct (inherited key); [done|]. by right.
Qed.

(** X12.  [load] returns what [cache[icon]] holds when that is truthy --
    file data that is not empty, or what the cache inherits from
    [Object.prototype] under that name, a function -- and reads nothing.
    Otherwise it reads the file once through the module-level [fs] and stores
    the data under the name, leaving the other entries alone; after that,
    data that is not empty is returned from the cache without a read, and
    empty data is read again. *)
Theorem load_reads_through_cache `{Host} (icon : Value) (w : World) :
  let key := to_string icon in
  let read := (via_fs, op_readFileSync (__dirname ++ js "/public/icons/" ++ key)) in
  (forall v, get_truthy (cache w) key = Some v -> load icon w = (inr v, w))
  /\ (cache w !! key = None -> inherited key = true ->
      load icon w = (inr (v_prototype key), w))
  /\ (forall data,
        get_truthy (cache w) key = None ->
        readFileSync fs (__dirname ++ js "/public/icons/" ++ key) = inr data ->
        let w' := {| cache := <[key := data]> (cache w);
                     fs_log := fs_log w ++ [read] |} in
        load icon w = (inr (v_string data), w')
        /\ (forall other, other <> key -> cache w' !! other = cache w !! other)
        /\ (data <> [] -> load icon w' = (inr (v_string data), w'))
        /\ (data = [] ->
            load icon w'
            = (inr (v_string data),
               {| cache := cache w'; fs_log := fs_log w' ++ [read] |}))).
Proof.
  intros key read. split; [|split].
  - intros v Hv. unfold load. fold key. by rewrite Hv.
  - intros Hown Hinh. unfold load, get_truthy, get. fold key. by rewrite Hown, Hinh.
  - intros data Hmiss Hread w'.
    assert (E : load icon w = (inr (v_string data), w')).
    { unfold load. fold key. by rewrite Hmiss, Hread. }
    split; [exact E|]. split; [|split].
    + intros other Hne. cbn [cache w']. by rewrite lookup_insert_ne.
    + intros Hdata. unfold load, get_truthy, get. fold key. cbn [cache w'].
      rewrite lookup_insert_eq. by destruct data.
    + intros ->. unfold load, get_truthy, get. fold key. cbn [cache w' fs_log].
      rewrite lookup_insert_eq. rewrite Hread. by rewrite insert_insert_eq.
Qed.

(** The folder icon, twice; and the icon [constructor], which is not
    read. *)
Lemma load_reads_through_cache_witness :
  let read := (via_fs, op_readFileSync (js "/app/public/icons/folder.png")) in
  let w' := {| cache := {[ js "folder.png" := js "Rk9MREVS" ]}; fs_log := [read] |} in
  load (H := Example.host) (v_string (js "folder.png")) Example.world0
  = (inr (v_string (js "Rk9MREVS")), w')
  /\ load (H := Example.host) (v_string (js "folder.png")) w'
     = (inr (v_string (js "Rk9MREVS")), w')
  /\ load (H := Example.host) (v_string (js "constructor")) Example.world0
     = (inr (v_prototype (js "constructor")), Example.world0).
Proof.
  intros read w'.
  destruct (load_reads_through_cache (H := Example.host) (v_string (js "folder.png"))
              Example.world0) as (_ & _ & Hread).
  destruct (Hread (js "Rk9MREVS")) as (E1 & _ & E2 & _);
    [reflexivity | vm_compute; reflexivity |].
  destruct (load_reads_through_cache (H := Example.host) (v_string (js "constructor"))
              Example.world0) as (_ & Hproto & _).
  split; [exact E1|]. split; [by apply E2|].
  apply Hproto; reflexivity.
Defined.

Section IconFacts.
Context `{Host} (self : ServeIndex.t).

Lemma icons_image (key : jsstring) (v : Value) :
  get_truthy icons key = Some v ->
  table_image v \/ (inherited key = true /\ v = v_prototype key).
Proof.
  intros Hv. apply get_truthy_Some in Hv as [(s & Hs & Hne & ->)|(_ & Hinh & ->)].
  - left. by exists key, s.
  - by right.
Qed.

Lemma plus_not_inherited (suffix : jsstring) : inherited (js "+" ++ suffix) = false.
Proof.
  apply bool_decide_eq_false. unfold Object_prototype_names. intros Hin.
  repeat (apply elem_of_cons in Hin as [Hin|Hin]; [discriminate Hin|]).
  by apply elem_of_nil in Hin.
Qed.

Lemma default_image : table_image (v_string icons_default).
Proof. exists (js "default"), icons_default. by vm_compute. Qed.

Lemma folder_image : table_image (v_string icons_folder).
Proof. exists (js "folder"), icons_folder. by vm_compute. Qed.

(** What [iconLookup] answers with: an image of the table, or what the
    table inherits under the extension, the media type or its top-level
    part. *)
Lemma iconLookup_shape (filename : jsstring) :
  let ext := Path.extname (ServeIndex.pathLib self) filename in
  (exists suffix, className (iconLookup self filename) = js "icon-" ++ suffix)
  /\ (table_image (fileName (iconLookup self filename))
      \/ exists name,
           inherited name = true
           /\ fileName (iconLookup self filename) = v_prototype name
           /\ (name = ext
               \/ exists mimetype,
                    mime_lookup ext = Some mimetype
                    /\ (name = mimetype
                        \/ name = default [] (head (split_on 47 mimetype))))).
Proof.
  intros ext. unfold iconLookup. fold ext.
  pose proof default_image as Hdefault.
  destruct (get_truthy icons ext) as [f|] eqn:Hext.
  { split; [by eexists|]. cbn [fileName].
    apply icons_image in Hext as [?|[Hinh ->]]; [by left|].
    right. exists ext. by repeat split; [|left]. }
  destruct (mime_lookup ext) as [mimetype|] eqn:Hmime; [|split; [by eexists | by left]].
  destruct (get_truthy icons mimetype) as [f|] eqn:Hm.
  { split; [by eexists|]. cbn [fileName].
    apply icons_image in Hm as [?|[Hinh ->]]; [by left|].
    right. exists mimetype. split; [done|]. split; [done|]. right.
    exists mimetype. split; [done | by left]. }
  assert (Htype :
    let by_type :=
      match get_truthy icons (default [] (head (split_on 47 mimetype))) with
      | Some f => {| className := js "icon-" ++ default [] (head (split_on 47 mimetype));
                     fileName := f |}
      | None => {| className := js "icon-default"; fileName := v_string icons_default |}
      end in
    (exists suffix, className by_type = js "icon-" ++ suffix)
    /\ (table_image (fileName by_type)
        \/ exists name,
             inherited name = true /\ fileName by_type = v_prototype name
             /\ (name = ext
                 \/ exists mimetype',
                      Some mimetype = Some mimetype'
                      /\ (name = mimetype'
                          \/ name = default [] (head (split_on 47 mimetype')))))).
  { cbv zeta.
    destruct (get_truthy icons (default [] (head (split_on 47 mimetype))))
      as [f|] eqn:Ht; [|split; [by eexists | by left]].
    split; [by eexists|]. cbn [fileName].
    apply icons_image in Ht as [?|[Hinh ->]]; [by left|].
    right. eexists. split; [exact Hinh|]. split; [done|]. right.
    exists mimetype. split; [done | by right]. }
  cbv zeta in Htype.
  destruct (truthy (split_on 43 mimetype !! 1%nat)) as [suffix|]; [|exact Htype].
  destruct (get_truthy icons (js "+" ++ suffix)) as [f|] eqn:Hs; [|exact Htype].
  split; [by eexists|]. cbn [fileName].
  apply icons_image in Hs as [?|[Hinh _]]; [by left|].
  by rewrite plus_not_inherited in Hinh.
Qed.

Lemma iconLookup_plain (filename : jsstring) :
  plain_lookup self filename -> table_image (fileName (iconLookup self filename)).
Proof.
  intros [Hext Hmime].
  destruct (iconLookup_shape filename) as [_ [?|(name & Hinh & _ & Hname)]]; [done|].
  exfalso. destruct Hname as [->|(mimetype & Hm & [->| ->])].
  - by rewrite Hext in Hinh.
  - destruct (Hmime _ Hm) as [E _]. by rewrite E in Hinh.
  - destruct (Hmime _ Hm) as [_ E]. by rewrite E in Hinh.
Qed.
End IconFacts.

(** X13.  [iconLookup] answers with a class name that begins with [icon-]
    and, as long as neither the extension nor the media type the host's
    table gives nor its top-level part is the name of a property of
    [Object.prototype], with the name of an image of the [icons] table,
    which is not empty; when the extension is unknown and there is no media
    type, with the default icon.  Otherwise the file name it answers with is
    no string but what the table inherits under the extension, the media
    type or its top-level part. *)
Theorem iconLookup_in_table `{Host} (self : ServeIndex.t) (filename : jsstring) :
  let ext := Path.extname (ServeIndex.pathLib self) filename in
  let icon := iconLookup self filename in
  (exists suffix, className icon = js "icon-" ++ suffix)
  /\ (plain_lookup self filename ->
      exists key name,
        icons !! key = Some name /\ name <> [] /\ fileName icon = v_string name)
  /\ (get_truthy icons ext = None -> mime_lookup ext = None ->
      icon = {| className := js "icon-default";
                fileName := v_string (js "page_white.png") |})
  /\ (forall name, fileName icon = v_prototype name ->
        inherited name = true
        /\ (name = ext
            \/ exists mimetype,
                 mime_lookup ext = Some mimetype
                 /\ (name = mimetype
                     \/ name = default [] (head (split_on 47 mimetype))))).
Proof.
  intros ext icon.
  destruct (iconLookup_shape self filename) as [Hclass Hfile].
  split; [exact Hclass|]. split; [|split].
  - intros Hplain. by apply (iconLookup_plain self).
  - intros Hext Hmime. unfold icon, iconLookup. fold ext. by rewrite Hext, Hmime.
  - intros name Hname. fold ext icon in Hfile. rewrite Hname in Hfile.
    destruct Hfile as [(key & s & _ & _ & [=])|(name' & Hinh & [= <-] & Hwhere)].
    by split.
Qed.

(** [a.txt] has the icon of [text/plain]; with a media type
    [constructor/x] the file name is the function [icons.constructor]. *)
Lemma iconLookup_in_table_witness :
  fileName (iconLookup (H := Example.host) Example.instance (js "a.txt"))
  = v_string (js "page_white_text.png")
  /\ fileName
       (iconLookup
          (H := {| fs := Example.package;
                   nativePathLib := Posix.lib (js "/app");
                   __dirname := js "/app";
                   mime_lookup := fun _ => Some (js "constructor/x");
                   prototype_toString := fun _ => js "function Object() { [native code] }";
                   toLocaleLowerCase := Example.ascii_lower;
                   localeCompare := code_unit_compare;
                   toLocaleDateString := number_to_string;
                   toLocaleTimeString := number_to_string |})
          Example.instance (js "a.xyz"))
     = v_prototype (js "constructor").
Proof.
  split; [|vm_compute; reflexivity].
  destruct (iconLookup_in_table (H := Example.host) Example.instance (js "a.txt"))
    as (_ & Hplain & _).
  destruct Hplain as (key & name & Hkey & Hne & E).
  - split; [vm_compute; reflexivity|]. intros mimetype.
    vm_compute. intros [= <-]. split; reflexivity.
  - rewrite E. vm_compute in E. by injection E as <-.
Defined.

Section IconStyleFacts.
Context `{Host} (self : ServeIndex.t).

Lemma iconStyle_file_reads (acc : IconRules) (file : File.t) (w : World) :
  rules_filled acc ->
  exists names,
    fs_log (iconStyle_file self acc file w).2 = fs_log w ++ (icon_read <$> names)
    /\ (names = [] \/ names = [fileName (file_icon self file)])
    /\ Forall (fun v => rules acc !! to_string v = None) names
    /\ match (iconStyle_file self acc file w).1 with
       | inr acc' =>
           rules_filled acc'
           /\ forall k, rules acc' !! k = None ->
                        rules acc !! k = None /\ k ∉ to_string <$> names
       | inl _ => True
       end.
Proof.
  intros Hfilled. unfold iconStyle_file. fold (file_icon self file).
  generalize (file_icon self file). intros icon.
  set (key := to_string (fileName icon)).
  unfold mbind, M_bind, mret, M_ret, load, throw. fold key.
  destruct (get_truthy (rules acc) key) as [rule|] eqn:Hrule.
  - exists []. cbn [fmap list_fmap]. rewrite app_nil_r.
    destruct (get (selectors acc) key) as [current| |]; cbn [fst snd];
      (split; [done|]); (split; [by left|]); (split; [constructor|]); [|done..].
    assert (Hsame : rules_filled acc
                    /\ forall k, rules acc !! k = None ->
                                 rules acc !! k = None /\ k ∉ @nil jsstring).
    { split; [done|]. intros k Hk. split; [done | apply not_elem_of_nil]. }
    by destruct (bool_decide _).
  - apply get_truthy_None in Hrule as [Hempty|[Hrule _]];
      [by destruct (Hfilled _ _ Hempty)|].
    assert (Hafter : forall data,
              rules_filled
                {| rule_list := rule_list acc ++ [fileName icon];
                   rules := <[key := js "background-image: url(data:image/png;base64,"
                                     ++ data ++ js ");"]> (rules acc);
                   selectors := <[key := [js "#files ." ++ className icon ++ js " .name"]]>
                                  (<[key := []]> (selectors acc)) |}
              /\ forall k,
                   <[key := js "background-image: url(data:image/png;base64,"
                            ++ data ++ js ");"]> (rules acc) !! k = None ->
                   rules acc !! k = None /\ k <> key).
    { intros data. split.
      - intros k v. cbn [rules]. destruct (decide (k = key)) as [->|Hk].
        + rewrite lookup_insert_eq. by intros [= <-].
        + rewrite lookup_insert_ne by done. apply Hfilled.
      - intros k. destruct (decide (k = key)) as [->|Hk].
        + by rewrite lookup_insert_eq.
        + by rewrite lookup_insert_ne. }
    destruct (get_truthy (cache w) key) as [data|] eqn:Hcache.
    + exists []. cbn [fst snd selectors fmap list_fmap]. rewrite app_nil_r.
      unfold get. rewrite lookup_insert_eq. cbn [fst snd rules].
      split; [done|]. split; [by left|]. split; [constructor|].
      rewrite bool_decide_eq_false_2 by apply not_elem_of_nil.
      destruct (Hafter (to_string data)) as [Hf Hk]. split; [exact Hf|].
      intros k Hnone. split; [by apply Hk | apply not_elem_of_nil].
    + exists [fileName icon].
      destruct (readFileSync fs (__dirname ++ js "/public/icons/" ++ key))
        as [err|data]; cbn [fst snd fs_log selectors fmap list_fmap].
      * split; [done|]. split; [by right|]. split; [by repeat constructor|done].
      * unfold get. rewrite lookup_insert_eq. cbn [fst snd fs_log rules].
        split; [done|]. split; [by right|]. split; [by repeat constructor|].
        rewrite bool_decide_eq_false_2 by apply not_elem_of_nil.
        destruct (Hafter data) as [Hf Hk]. split; [exact Hf|].
        intros k Hnone. split; [by apply Hk|].
        rewrite list_elem_of_singleton. by apply Hk.
Qed.

Lemma iconStyle_loop_reads (files : list File.t) (acc : IconRules) (w : World) :
  rules_filled acc ->
  exists names,
    fs_log (iconStyle_loop self acc files w).2 = fs_log w ++ (icon_read <$> names)
    /\ NoDup (to_string <$> names)
    /\ Forall (fun v => rules acc !! to_string v = None
                        /\ exists file, file ∈ files
                                        /\ v = fileName (file_icon self file)) names.
Proof.
  revert acc w. induction files as [|file files IH]; intros acc w Hfilled.
  - exists []. cbn. rewrite app_nil_r. split; [done|]. split; constructor.
  - cbn [iconStyle_loop]. unfold mbind at 1. unfold M_bind at 1.
    destruct (iconStyle_file_reads acc file w Hfilled)
      as (names1 & Hlog1 & Hone & Hall1 & Hacc).
    assert (Hdup1 : NoDup (to_string <$> names1)).
    { destruct Hone as [->| ->]; [constructor | apply NoDup_singleton]. }
    assert (Hfrom1 : Forall (fun v => rules acc !! to_string v = None
                               /\ exists file', file' ∈ file :: files
                                                /\ v = fileName (file_icon self file'))
                       names1).
    { destruct Hone as [->| ->]; [constructor|].
      apply Forall_cons in Hall1 as [Hnone _]. repeat constructor; [done|].
      exists file. split; [apply list_elem_of_here | done]. }
    destruct (iconStyle_file self acc file w) as [[e|acc'] w1]; cbn [fst snd] in *.
    + by exists names1.
    + destruct Hacc as [Hfilled' Hkeys].
      destruct (IH acc' w1 Hfilled') as (names2 & Hlog2 & Hdup2 & Hall2).
      exists (names1 ++ names2). rewrite Hlog2, Hlog1, !fmap_app, app_assoc.
      split; [done|]. rewrite Forall_forall in Hall2. split.
      * apply NoDup_app. split; [done|]. split; [|done].
        intros k Hk1 Hk2. apply list_elem_of_fmap in Hk2 as (v & -> & Hv).
        by destruct (Hkeys _ (proj1 (Hall2 v Hv))).
      * apply Forall_app. split; [done|]. apply Forall_forall. intros v Hv.
        destruct (Hall2 v Hv) as [Hnone (file' & Hin & ->)]. split.
        -- by apply Hkeys.
        -- exists file'. split; [by apply list_elem_of_further | done].
Qed.

Lemma file_icon_image (file : File.t) :
  (is_dir (File.stat file) = false -> plain_lookup self (File.name file)) ->
  table_image (fileName (file_icon self file)).
Proof.
  intros Hplain. unfold file_icon. destruct (is_dir (File.stat file)).
  - apply folder_image.
  - by apply iconLookup_plain, Hplain.
Qed.
End IconStyleFacts.

(** X14.  [iconStyle] touches the filesystem only through the module-level
    [fs], with [readFileSync], to read below [public/icons] of the package
    the icons of entries of the list, and reads none twice in one call,
    however many entries share it.  As long as no entry's extension or
    media type is the name of a property of [Object.prototype], what it reads
    are images of the [icons] table.  With icons switched off it reads
    nothing and the style is empty. *)
Theorem iconStyle_reads_each_icon_once `{Host} (self : ServeIndex.t)
    (files : list File.t) (useIcons : bool) (w : World) :
  (exists names,
     fs_log (iconStyle self files useIcons w).2
     = fs_log w
       ++ ((fun v =>
              (via_fs, op_readFileSync (__dirname ++ js "/public/icons/" ++ to_string v)))
           <$> names)
     /\ NoDup (to_string <$> names)
     /\ Forall (fun v => exists file, file ∈ files /\ v = fileName (file_icon self file))
          names
     /\ (Forall (fun file => is_dir (File.stat file) = false ->
                             plain_lookup self (File.name file)) files ->
         Forall (fun v => exists key name,
                            icons !! key = Some name /\ name <> []
                            /\ v = v_string name) names))
  /\ (useIcons = false -> iconStyle self files useIcons w = (inr [], w)).
Proof.
  split; [|by intros ->].
  unfold iconStyle. destruct useIcons; cbn [negb].
  - unfold mbind at 1. unfold M_bind at 1.
    destruct (iconStyle_loop_reads self files
                {| rule_list := []; rules := ∅; selectors := ∅ |} w)
      as (names & Hlog & Hdup & Hall); [done|].
    exists names. split; [|split; [done|split]].
    + by destruct (iconStyle_loop self _ files w) as [[e|acc] w1].
    + eapply Forall_impl; [exact Hall|]. by intros v [_ Hv].
    + intros Hplain. rewrite Forall_forall in Hplain.
      eapply Forall_impl; [exact Hall|]. intros v [_ (file & Hin & ->)].
      by apply (file_icon_image self), Hplain.
  - exists []. cbn. rewrite app_nil_r. split; [done|]. split; [constructor|].
    split; [constructor|]. intros _. constructor.
Qed.

(** Two text files and a directory: two images, each read once. *)
Lemma iconStyle_reads_each_icon_once_witness :
  fs_log (iconStyle (H := Example.host) Example.instance
            [ {| File.name := js "a.txt"; File.stat := md_stats (Example.a_file 5) |};
              {| File.name := js "b"; File.stat := md_stats Example.a_directory |};
              {| File.name := js "c.txt"; File.stat := md_stats (Example.a_file 3) |} ]
            true Example.world0).2
  = [ (via_fs, op_readFileSync (js "/app/public/icons/page_white_text.png"));
      (via_fs, op_readFileSync (js "/app/public/icons/folder.png")) ].
Proof.
  destruct (iconStyle_reads_each_icon_once (H := Example.host) Example.instance
              [ {| File.name := js "a.txt"; File.stat := md_stats (Example.a_file 5) |};
                {| File.name := js "b"; File.stat := md_stats Example.a_directory |};
                {| File.name := js "c.txt"; File.stat := md_stats (Example.a_file 3) |} ]
              true Example.world0) as [(names & E & _) _].
  rewrite E. vm_compute in E. vm_compute. symmetry. exact E.
Defined.

(** ** The plain-text body, path separators and replaced handlers *)

Lemma join_with_snoc_empty (sepr : jsstring) (parts : list jsstring) :
  parts <> [] -> join_with sepr (parts ++ [[]]) = join_with sepr parts ++ sepr.
Proof.
  induction parts as [|p parts IH]; intros Hne; [done|].
  destruct parts as [|q parts].
  - cbn. by rewrite app_nil_r.
  - change (join_with sepr ((p :: q :: parts) ++ [[]]))
      with (p ++ sepr ++ join_with sepr ((q :: parts) ++ [[]])).
    rewrite IH by done.
    change (join_with sepr (p :: q :: parts))
      with (p ++ sepr ++ join_with sepr (q :: parts)).
    by rewrite <- !app_assoc.
Qed.

Lemma join_split_map (c d : N) (s : jsstring) :
  join_with [d] (split_on c s) = (fun x => if N.eqb x c then d else x) <$> s.
Proof.
  induction s as [|x s IH]; [done|]. cbn [split_on fmap list_fmap].
  pose proof (split_on_nonempty c s) as Hne.
  destruct (N.eqb x c).
  - destruct (split_on c s) as [|seg segs] eqn:E; [done|].
    change (join_with [d] ([] :: seg :: segs)) with (d :: join_with [d] (seg :: segs)).
    by rewrite IH.
  - destruct (split_on c s) as [|seg segs] eqn:E; [done|].
    rewrite <- IH. by destruct segs.
Qed.

(** X15.  The body [plain] sends holds the names in the order given, each
    followed by a line feed: split at the line feeds it gives back the
    names -- where there is at least one and none holds a line feed -- and
    one empty string after the last. *)
Theorem plain_body_lines (files : list jsstring) :
  files <> [] ->
  Forall (fun name => 10%N ∉ name) files ->
  exists text,
    plain files = send (js "text/plain") text
    /\ split_on 10 text = files ++ [[]].
Proof.
  intros Hne Hall. exists (join_with LF files ++ LF). split; [done|].
  rewrite <- join_with_snoc_empty by done. apply split_join.
  - apply Forall_app. split; [done|]. constructor; [apply not_elem_of_nil|constructor].
  - by destruct files.
Qed.

Lemma plain_body_lines_witness :
  exists text,
    plain [js "a.txt"; js "b"] = send (js "text/plain") text
    /\ split_on 10 text = [js "a.txt"; js "b"; []].
Proof.
  apply (plain_body_lines [js "a.txt"; js "b"]); [done|].
  apply (bool_decide_unpack _). vm_compute. exact I.
Defined.

(** X16.  With a path library whose separator is one code unit,
    [normalizeSlashes] turns every separator of the path into a slash and
    leaves the other code units as they are; so with [/] as the separator
    it changes nothing. *)
Theorem normalizeSlashes_replaces_separator (self : ServeIndex.t)
    (c : N) (path : jsstring) :
  Path.sep (ServeIndex.pathLib self) = [c] ->
  normalizeSlashes self path = (fun x => if N.eqb x c then 47%N else x) <$> path
  /\ (c = 47%N -> normalizeSlashes self path = path).
Proof.
  intros Hsep.
  assert (E : normalizeSlashes self path
              = (fun x => if N.eqb x c then 47%N else x) <$> path).
  { unfold normalizeSlashes. rewrite Hsep. apply join_split_map. }
  split; [exact E|]. intros ->. rewrite E.
  rewrite <- (list_fmap_id path) at 2. apply list_fmap_ext.
  intros i x _. by destruct (N.eqb_spec x 47) as [->|].
Qed.

(** With a backslash as the separator. *)
Lemma normalizeSlashes_replaces_separator_witness :
  normalizeSlashes
    {| ServeIndex.pathLib :=
         {| Path.sep := [92%N];
            Path.normalize := Posix.normalize;
            Path.join := Posix.join;
            Path.resolve := Posix.resolve (js "/app");
            Path.extname := Posix.extname |};
       ServeIndex.rootPath := js "/srv/www/";
       ServeIndex.filter := None;
       ServeIndex.hidden := false;
       ServeIndex.showIcons := false;
       ServeIndex.stylesheet := js "/app/public/style.css";
       ServeIndex.template := template_path (js "/app/public/directory.html");
       ServeIndex.view := js "tiles";
       ServeIndex.filesystem := Example.www |}
    [97; 92; 98; 47; 99; 92; 100]%N
  = js "a/b/c/d".
Proof.
  etrans; [eapply proj1, (normalizeSlashes_replaces_separator _ 92%N);
           reflexivity|].
  vm_compute. reflexivity.
Defined.

(** X17.  Where the application has put a function of its own in place of
    the handler of the negotiated type, [serve] calls that function with the
    names it lists and does nothing else: the built-in handler does not run.
    A function put in place of another type's handler changes nothing. *)
Theorem serve_calls_replaced_handler `{Host} (self : ServeIndex.t) (ov : Overrides)
    (req : Request) (sched : list nat) (w : World) (dir originalDir : jsstring)
    (st : Stats) (files : list jsstring) (type : jsstring) (media : Media) :
  method req = js "GET" \/ method req = js "HEAD" ->
  decodeURIComponent (url_pathname req) = Some dir ->
  decodeURIComponent (originalUrl_pathname req) = Some originalDir ->
  0%N ∉ resolved_path self dir ->
  outside_root self (resolved_path self dir) = false ->
  stat (ServeIndex.filesystem self) (resolved_path self dir) = inr st ->
  isDirectory st = true ->
  readdir (ServeIndex.filesystem self) (resolved_path self dir) = inr files ->
  accepts_type req mediaTypes = Some type ->
  mediaType type = Some media ->
  (forall custom, override ov media = Some custom ->
     serve self ov req sched w
     = custom req
         {| h_files := listed self files (resolved_path self dir);
            h_dir := originalDir;
            h_showUp := show_up self (resolved_path self dir);
            h_displayIcons := ServeIndex.showIcons self;
            h_path := resolved_path self dir;
            h_view := ServeIndex.view self;
            h_template := ServeIndex.template self;
            h_stylesheet := ServeIndex.stylesheet self;
            h_filesystem := ServeIndex.filesystem self |}
         {| cache := cache w;
            fs_log := fs_log w
                      ++ [ (via_filesystem, op_stat (resolved_path self dir));
                           (via_filesystem, op_readdir (resolved_path self dir)) ] |})
  /\ (override ov media = None ->
      serve self ov req sched w = serve self no_overrides req sched w).
Proof.
  intros Hm Hd Ho Hnul Hin Hstat Hdir Hread Hacc Hmedia.
  rewrite (serve_to_handler self ov req sched w dir originalDir st files type media)
    by done.
  split.
  - intros custom Hov. unfold handler. by rewrite Hov.
  - intros Hov.
    rewrite (serve_to_handler self no_overrides req sched w dir originalDir st files
               type media) by done.
    unfold handler. rewrite Hov. by destruct media.
Qed.

(** A listing of [/b] as HTML, with a function in place of
    [serveIndex.html] that answers with the number of names. *)
Lemma serve_calls_replaced_handler_witness :
  serve (H := Example.host) Example.instance
    {| serveIndex_html :=
         Some (fun _ args =>
                 mret (send (js "text/plain")
                         (number_to_string (Z.of_nat (length (h_files args))))));
       serveIndex_plain := None;
       serveIndex_json := None |}
    (Example.get (js "/b") (js "text/html")) [] Example.world0
  = (inr (send (js "text/plain") (js "1")),
     {| cache := ∅;
        fs_log := [ (via_filesystem, op_stat (js "/srv/www/b"));
                    (via_filesystem, op_readdir (js "/srv/www/b")) ] |}).
Proof.
  set (ov := {| serveIndex_html := _; serveIndex_plain := None;
                serveIndex_json := None |}).
  destruct (serve_calls_replaced_handler (H := Example.host) Example.instance ov
              (Example.get (js "/b") (js "text/html")) [] Example.world0
              (js "/b") (js "/b") Example.a_directory [js "c.txt"]
              (js "text/html") media_html) as [Hcustom _];
    [ left; reflexivity
    | vm_compute; reflexivity
    | vm_compute; reflexivity
    | apply (bool_decide_unpack _); vm_compute; exact I
    | vm_compute; reflexivity ..
    | ].
  etrans; [apply (Hcustom _ eq_refl)|]. vm_compute. reflexivity.
Defined.

(** ** Requests stay below the root *)

Section LogsWithin.
Context (P : FsCall -> Prop).

Lemma lw_ret {A} (a : A) : logs_within P (mret a).
Proof. intros w. exists []. by rewrite app_nil_r. Qed.

Lemma lw_throw {A} (e : Exn) : logs_within P (throw (A := A) e).
Proof. intros w. exists []. by rewrite app_nil_r. Qed.

Lemma lw_uri {A} (o : option A) : logs_within P (uri o).
Proof. destruct o; [apply lw_ret | apply lw_throw]. Qed.

Lemma lw_log_call (c : FsCall) : P c -> logs_within P (log_call c).
Proof. intros Hc w. exists [c]. split; [done|]. by constructor. Qed.

Lemma lw_bind {A B} (m : M A) (k : A -> M B) :
  logs_within P m -> (forall a, logs_within P (k a)) -> logs_within P (mbind k m).
Proof.
  intros Hm Hk w. unfold mbind, M_bind.
  destruct (Hm w) as (new1 & E1 & H1). destruct (m w) as [[e|a] w'].
  - by exists new1.
  - destruct (Hk a w') as (new2 & E2 & H2). exists (new1 ++ new2).
    split; [|by apply Forall_app].
    rewrite E2. cbn [snd] in E1. by rewrite E1, app_assoc.
Qed.

Lemma lw_mapM {A B} (f : A -> M B) (l : list A) :
  (forall a, logs_within P (f a)) -> logs_within P (mapM f l).
Proof.
  intros Hf. induction l as [|a l IH]; [apply lw_ret|].
  cbn [mapM]. apply lw_bind; [apply Hf|]. intros b.
  apply lw_bind; [exact IH|]. intros bs. apply lw_ret.
Qed.
End LogsWithin.

Section RendererWithin.
Context `{Host} (self : ServeIndex.t) (P : FsCall -> Prop).
Hypothesis P_fs : forall op, P (via_fs, op).

Lemma lw_load (icon : Value) : logs_within P (load icon).
Proof.
  intros w. unfold load. destruct (get_truthy (cache w) (to_string icon)).
  - exists []. by rewrite app_nil_r.
  - eexists [_]. split; [by destruct (readFileSync fs _)|]. by constructor.
Qed.

Lemma lw_iconStyle files useIcons : logs_within P (iconStyle self files useIcons).
Proof.
  unfold iconStyle. destruct (negb useIcons); [apply lw_ret|].
  apply lw_bind; [|intros; apply lw_ret].
  generalize {| rule_list := []; rules := ∅; selectors := ∅ |}.
  induction files as [|file files IH]; intros acc; [apply lw_ret|].
  cbn [iconStyle_loop]. apply lw_bind; [|apply IH].
  unfold iconStyle_file. apply lw_bind.
  - destruct (get_truthy _ _); [apply lw_ret|].
    apply lw_bind; [apply lw_load | intros; apply lw_ret].
  - intros acc'. destruct (get _ _); [apply lw_ret | apply lw_throw..].
Qed.

Lemma lw_createHtmlFileList files dir useIcons view :
  logs_within P (createHtmlFileList self files dir useIcons view).
Proof.
  unfold createHtmlFileList. apply lw_bind; [|intros; apply lw_ret].
  apply lw_mapM. intros file. unfold html_file_item.
  apply lw_bind; [apply lw_mapM; intros; apply lw_uri|]. intros path.
  apply lw_bind; [apply lw_uri | intros; apply lw_ret].
Qed.

Lemma lw_htmlPath dir : logs_within P (htmlPath dir).
Proof.
  unfold htmlPath. apply lw_bind; [|intros; apply lw_ret].
  generalize (@nil jsstring).
  induction (split_on 47 dir) as [|part todo IH]; intros parts; [apply lw_ret|].
  cbn [htmlPath_loop]. destruct (Posix.is_empty part).
  - apply lw_bind; [apply IH | intros; apply lw_ret].
  - apply lw_bind; [apply lw_uri|]. intros encoded.
    apply lw_bind; [apply IH | intros; apply lw_ret].
Qed.

Lemma lw_createHtmlRender template locals :
  logs_within P (createHtmlRender self template locals).
Proof.
  unfold createHtmlRender. apply lw_bind; [by apply lw_log_call|]. intros _.
  destruct (readFile fs template); [apply lw_ret|].
  apply lw_bind; [apply lw_iconStyle|]. intros icon_css.
  apply lw_bind; [apply lw_createHtmlFileList|]. intros files_html.
  apply lw_bind; [apply lw_htmlPath | intros; apply lw_ret].
Qed.

Lemma lw_statFiles dir files filesystem sched :
  (forall i, (i < length files)%nat ->
     P (via_filesystem, op_stat (stat_path self dir files i))) ->
  logs_within P (statFiles self dir files filesystem sched).
Proof.
  intros HP w.
  destruct (statFiles_run self dir files filesystem sched w)
    as (evs & st & Hsteps & _ & _ & E).
  pose proof (invariant_steps _ _ _ _ Hsteps) as Hinv.
  rewrite E. cbn [snd fs_log]. eexists. split; [done|].
  apply Forall_fmap, Forall_forall. intros i Hi. apply HP.
  rewrite (Batch.inv_started _ _ _ _ Hinv), elem_of_seq in Hi. lia.
Qed.

Lemma lw_html args sched :
  (forall i,
     (i < length (if h_showUp args then DOTDOT :: h_files args else h_files args))%nat ->
     P (via_filesystem,
        op_stat (stat_path self (h_path args)
                   (if h_showUp args then DOTDOT :: h_files args else h_files args) i))) ->
  logs_within P (html self args sched).
Proof.
  intros HP. unfold html. apply lw_bind; [by apply lw_statFiles|].
  intros [[err|stats]|]; try apply lw_ret.
  apply lw_bind; [by apply lw_log_call|]. intros _.
  destruct (readFile fs _); [apply lw_ret|].
  apply lw_bind; [|intros; apply lw_ret].
  destruct (h_template args); [apply lw_createHtmlRender | apply lw_ret].
Qed.
End RendererWithin.

Section PosixPaths.
Import Posix.

Lemma clean_nonempty (seg : jsstring) : clean_segment seg -> is_empty seg = false.
Proof. intros (Hne & _). by destruct seg. Qed.

Lemma join_clean_nonempty (seg : jsstring) (segs : list jsstring) :
  clean_segment seg -> is_empty (join_with [SLASH] (seg :: segs)) = false.
Proof.
  intros (Hne & _). destruct seg as [|x seg]; [done|]. by destruct segs.
Qed.

Lemma with_trailing_slash_absolute (segs : list jsstring) :
  Forall clean_segment segs ->
  with_trailing_slash (join_with [SLASH] segs) = absolute_path segs true.
Proof.
  intros Hsegs. unfold with_trailing_slash, absolute_path.
  destruct segs as [|seg segs]; [done|].
  apply Forall_cons in Hsegs as [Hseg _]. by rewrite join_clean_nonempty.
Qed.

Lemma kept_segments_clean (path : jsstring) : Forall clean_segment (kept_segments path).
Proof.
  apply Forall_rev, normalize_segments_clean; [done | apply split_on_segments].
Qed.

(** [normalize] of an absolute path. *)
Lemma normalize_absolute (path : jsstring) :
  starts_with_slash path = true ->
  normalize path = absolute_path (kept_segments path) (ends_with_slash path).
Proof.
  intros Habs. unfold normalize. rewrite Habs.
  assert (is_empty path = false) as -> by (by destruct path).
  cbn [negb]. change (normalizeString path false)
    with (join_with [SLASH] (kept_segments path)).
  pose proof (kept_segments_clean path) as Hclean.
  unfold absolute_path. destruct (kept_segments path) as [|seg segs]; [done|].
  apply Forall_cons in Hclean as [Hseg _]. rewrite join_clean_nonempty by done.
  destruct (ends_with_slash path); [done|]. by rewrite app_nil_r.
Qed.

Lemma absolute_path_starts (segs : list jsstring) (trailing : bool) :
  starts_with_slash (absolute_path segs trailing) = true.
Proof. by destruct segs. Qed.

(** The segments [normalizeString] has kept after an absolute path in
    normal form. *)
Lemma fold_absolute_path (segs : list jsstring) (trailing : bool) :
  Forall clean_segment segs ->
  fold_left (normalize_segment false) (split_on SLASH (absolute_path segs trailing)) []
  = rev segs.
Proof.
  intros Hsegs. destruct segs as [|seg segs]; [done|].
  unfold absolute_path.
  assert (Hsplit : split_on SLASH (join_with [SLASH] (seg :: segs)) = seg :: segs).
  { apply split_join; [|done]. eapply Forall_impl; [exact Hsegs|].
    by intros s (_ & _ & _ & ?). }
  change (SLASH :: join_with [SLASH] (seg :: segs) ++ (if trailing then [SLASH] else []))
    with ([] ++ SLASH :: (join_with [SLASH] (seg :: segs)
                          ++ (if trailing then [SLASH] else []))).
  rewrite split_on_app. change (split_on SLASH []) with [@nil N].
  destruct trailing.
  - change (join_with [SLASH] (seg :: segs) ++ [SLASH])
      with (join_with [SLASH] (seg :: segs) ++ SLASH :: []).
    rewrite split_on_app, Hsplit. change (split_on SLASH []) with [@nil N].
    change ([[]] ++ (seg :: segs) ++ [[]]) with ([] :: ((seg :: segs) ++ [[]])).
    cbn [fold_left]. change (normalize_segment false [] []) with (@nil jsstring).
    rewrite fold_left_app, (normalize_segments_keep (seg :: segs) [] Hsegs).
    by rewrite app_nil_r.
  - rewrite app_nil_r, Hsplit.
    change (fold_left (normalize_segment false) ([[]] ++ seg :: segs) [])
      with (fold_left (normalize_segment false) (seg :: segs) []).
    rewrite (normalize_segments_keep (seg :: segs) [] Hsegs). by rewrite app_nil_r.
Qed.

Lemma kept_segments_absolute (segs : list jsstring) (trailing : bool) :
  Forall clean_segment segs -> kept_segments (absolute_path segs trailing) = segs.
Proof.
  intros Hsegs. unfold kept_segments.
  by rewrite fold_absolute_path, rev_involutive.
Qed.

Lemma kept_segments_after (segs : list jsstring) (trailing : bool) (more : jsstring) :
  Forall clean_segment segs ->
  kept_segments (absolute_path segs trailing ++ SLASH :: more)
  = rev (fold_left (normalize_segment false) (split_on SLASH more) (rev segs)).
Proof.
  intros Hsegs. unfold kept_segments.
  by rewrite split_on_app, fold_left_app, fold_absolute_path.
Qed.

(** Normalizing a path in normal form changes its segments not. *)
Lemma normalize_absolute_path (segs : list jsstring) (trailing : bool) :
  Forall clean_segment segs ->
  exists trailing', normalize (absolute_path segs trailing) = absolute_path segs trailing'.
Proof.
  intros Hsegs. eexists.
  by rewrite normalize_absolute, kept_segments_absolute
    by (done || apply absolute_path_starts).
Qed.

(** [join(p, name)] for [p] in normal form and a name that is not empty. *)
Lemma join_absolute_path (segs : list jsstring) (trailing : bool) (name : jsstring) :
  Forall clean_segment segs -> is_empty name = false ->
  exists trailing',
    join [absolute_path segs trailing; name]
    = absolute_path
        (rev (fold_left (normalize_segment false) (split_on SLASH name) (rev segs)))
        trailing'.
Proof.
  intros Hsegs Hname. unfold join. cbn [List.filter]. rewrite Hname.
  assert (is_empty (absolute_path segs trailing) = false) as ->
    by (by destruct segs).
  cbn [negb]. 
  change (join_with [SLASH] [absolute_path segs trailing; name])
    with (absolute_path segs trailing ++ SLASH :: name).
  eexists. rewrite normalize_absolute.
  - by rewrite kept_segments_after.
  - by destruct segs.
Qed.

Lemma join_absolute_name (segs : list jsstring) (trailing : bool) (name : jsstring) :
  Forall clean_segment segs -> clean_segment name ->
  exists trailing',
    join [absolute_path segs trailing; name] = absolute_path (segs ++ [name]) trailing'.
Proof.
  intros Hsegs Hname.
  destruct (join_absolute_path segs trailing name Hsegs (clean_nonempty _ Hname))
    as (trailing' & E).
  exists trailing'. rewrite E. f_equal.
  rewrite split_on_absent by (by destruct Hname as (_ & _ & _ & ?)).
  cbn [fold_left]. rewrite normalize_segment_keeps by done.
  cbn [rev]. by rewrite rev_involutive.
Qed.

Lemma join_absolute_parent (segs : list jsstring) (last : jsstring) (trailing : bool) :
  Forall clean_segment (segs ++ [last]) ->
  exists trailing',
    join [absolute_path (segs ++ [last]) trailing; [DOT; DOT]]
    = absolute_path segs trailing'.
Proof.
  intros Hsegs.
  destruct (join_absolute_path (segs ++ [last]) trailing [DOT; DOT] Hsegs eq_refl)
    as (trailing' & E).
  exists trailing'. rewrite E. f_equal.
  change (split_on SLASH [DOT; DOT]) with [[DOT; DOT]].
  rewrite rev_app_distr. cbn [rev app fold_left].
  apply Forall_app in Hsegs as [_ Hlast]. apply Forall_cons in Hlast as [Hlast _].
  destruct Hlast as (_ & _ & Hdd & _).
  unfold normalize_segment. cbn [is_empty orb].
  change (str_eqb [DOT; DOT] [DOT]) with false. rewrite str_eqb_refl.
  rewrite (proj2 (str_eqb_neq _ _) Hdd). apply rev_involutive.
Qed.

(** Lists of segments that agree up to empty strings at the end of one. *)
Lemma segments_prefix (root segs empties rest : list jsstring) :
  Forall (fun seg => seg <> []) root ->
  Forall (fun seg => seg = []) empties ->
  segs ++ empties = root ++ rest ->
  exists extra, segs = root ++ extra.
Proof.
  intros Hroot Hemp. revert segs.
  induction Hroot as [|seg root Hseg Hroot IH]; intros segs E; [by exists segs|].
  destruct segs as [|seg' segs].
  - cbn [app] in E. rewrite E in Hemp. apply Forall_cons in Hemp as [Hnil _].
    by destruct Hseg.
  - injection E as -> E. destruct (IH segs E) as [extra ->]. by exists extra.
Qed.

(** What the check of [serve] against the root says of a path in normal
    form. *)
Lemma root_prefix (root segs : list jsstring) (trailing : bool) :
  Forall clean_segment root -> Forall clean_segment segs ->
  take (length (absolute_path root true)) (absolute_path segs trailing ++ [SLASH])
  = absolute_path root true ->
  exists extra, segs = root ++ extra.
Proof.
  intros Hroot Hsegs Htake.
  destruct root as [|r root]; [by exists segs|].
  assert (Hrest : exists rest,
            absolute_path segs trailing ++ [SLASH]
            = (SLASH :: join_with [SLASH] (r :: root)) ++ SLASH :: rest).
  { exists (drop (length (absolute_path (r :: root) true))
                 (absolute_path segs trailing ++ [SLASH])).
    rewrite <- (take_drop (length (absolute_path (r :: root) true))
                  (absolute_path segs trailing ++ [SLASH])) at 1.
    rewrite Htake.
    change (absolute_path (r :: root) true)
      with ((SLASH :: join_with [SLASH] (r :: root)) ++ [SLASH]) at 1.
    by rewrite <- app_assoc. }
  destruct Hrest as [rest E].
  apply (f_equal (split_on SLASH)) in E.
  rewrite split_on_app in E.
  change (absolute_path segs trailing ++ [SLASH])
    with (absolute_path segs trailing ++ SLASH :: []) in E.
  rewrite split_on_app in E.
  change (SLASH :: join_with [SLASH] (r :: root))
    with ([] ++ SLASH :: join_with [SLASH] (r :: root)) in E.
  rewrite (split_on_app SLASH [] (join_with [SLASH] (r :: root))) in E.
  rewrite (split_join SLASH (r :: root)) in E;
    [| eapply Forall_impl; [exact Hroot|]; by intros s (_ & _ & _ & ?) | done].
  assert (Hsplit : exists empties,
            Forall (fun seg => seg = []) empties
            /\ split_on SLASH (absolute_path segs trailing) = [] :: segs ++ empties).
  { destruct segs as [|s segs]; [by exists [[]]; split; [repeat constructor|]|].
    unfold absolute_path.
    change (SLASH :: join_with [SLASH] (s :: segs) ++ (if trailing then [SLASH] else []))
      with ([] ++ SLASH :: (join_with [SLASH] (s :: segs)
                            ++ (if trailing then [SLASH] else []))).
    rewrite split_on_app. change (split_on SLASH []) with [@nil N].
    assert (Hs : split_on SLASH (join_with [SLASH] (s :: segs)) = s :: segs).
    { apply split_join; [|done]. eapply Forall_impl; [exact Hsegs|].
      by intros x (_ & _ & _ & ?). }
    destruct trailing.
    - exists [[]]. split; [by repeat constructor|].
      change (join_with [SLASH] (s :: segs) ++ [SLASH])
        with (join_with [SLASH] (s :: segs) ++ SLASH :: []).
      by rewrite split_on_app, Hs.
    - exists []. split; [constructor|]. by rewrite !app_nil_r, Hs. }
  destruct Hsplit as (empties & Hemp & Hsplit). rewrite Hsplit in E.
  change (split_on SLASH []) with [@nil N] in E.
  cbn [app] in E. injection E as E.
  apply (segments_prefix (r :: root) segs (empties ++ [[]]) (split_on SLASH rest)).
  - eapply Forall_impl; [exact Hroot|]. by intros s (? & _).
  - apply Forall_app. split; [done | by repeat constructor].
  - by rewrite app_assoc.
Qed.

(** [resolve] of a path in normal form. *)
Lemma resolve_absolute_path (cwd : jsstring) (segs : list jsstring) (trailing : bool) :
  Forall clean_segment segs ->
  resolve cwd [absolute_path segs trailing] = SLASH :: join_with [SLASH] segs.
Proof.
  intros Hsegs. unfold resolve. cbn [rev app resolve_loop].
  assert (is_empty (absolute_path segs trailing) = false) as -> by (by destruct segs).
  rewrite absolute_path_starts. cbn [negb]. f_equal.
  change (normalizeString (absolute_path segs trailing ++ [SLASH]) false)
    with (join_with [SLASH] (kept_segments (absolute_path segs trailing ++ SLASH :: []))).
  rewrite kept_segments_after by done.
  change (split_on SLASH []) with [@nil N]. cbn [fold_left].
  change (normalize_segment false (rev segs) []) with (rev segs).
  by rewrite rev_involutive.
Qed.
End PosixPaths.

Section BelowRoot.
Context `{Host} (cwd : jsstring) (self : ServeIndex.t) (rootSegs : list jsstring).
Hypothesis Hlib : ServeIndex.pathLib self = Posix.lib cwd.
Hypothesis Hroot : ServeIndex.rootPath self = absolute_path rootSegs true.
Hypothesis Hclean : Forall clean_segment rootSegs.

(** The path [serve] computes is in normal form. *)
Lemma resolved_path_normal (dir : jsstring) :
  exists segs trailing,
    Forall clean_segment segs /\ resolved_path self dir = absolute_path segs trailing.
Proof.
  unfold resolved_path. rewrite Hlib, Hroot.
  cbn [Path.normalize Path.join Posix.lib].
  assert (Hjoin : exists segs trailing,
            Forall clean_segment segs
            /\ Posix.join [absolute_path rootSegs true; dir] = absolute_path segs trailing).
  { destruct (Posix.is_empty dir) eqn:Hdir.
    - destruct dir; [|done]. unfold Posix.join. cbn [List.filter Posix.is_empty negb].
      assert (Posix.is_empty (absolute_path rootSegs true) = false) as ->
        by (by destruct rootSegs).
      cbn [negb join_with].
      destruct (normalize_absolute_path rootSegs true Hclean) as [t E].
      by exists rootSegs, t.
    - destruct (join_absolute_path rootSegs true dir Hclean Hdir) as [t E].
      eexists _, t. split; [|exact E].
      apply Forall_rev, normalize_segments_clean;
        [by apply Forall_rev | apply split_on_segments]. }
  destruct Hjoin as (segs & t & Hsegs & ->).
  destruct (normalize_absolute_path segs t Hsegs) as [t' E].
  by exists segs, t'.
Qed.

(** A path in normal form that passes the check against the root goes
    through the root. *)
Lemma inside_root_extra (segs : list jsstring) (trailing : bool) :
  Forall clean_segment segs ->
  outside_root self (absolute_path segs trailing) = false ->
  exists extra, segs = rootSegs ++ extra /\ Forall clean_segment extra.
Proof.
  intros Hsegs Hin. unfold outside_root, substr0 in Hin.
  rewrite Hlib, Hroot in Hin. cbn [Path.sep Posix.lib] in Hin.
  apply negb_false_iff, str_eqb_eq in Hin.
  destruct (root_prefix rootSegs segs trailing Hclean Hsegs Hin) as [extra ->].
  exists extra. split; [done|]. by apply Forall_app in Hsegs as [_ ?].
Qed.

(** [showUp] is set below the root only. *)
Lemma show_up_below (extra : list jsstring) (trailing : bool) :
  Forall clean_segment extra ->
  show_up self (absolute_path (rootSegs ++ extra) trailing) = true ->
  extra <> [].
Proof.
  intros Hextra Hup ->. rewrite app_nil_r in Hup. unfold show_up in Hup.
  rewrite Hlib, Hroot in Hup. cbn [Path.normalize Path.resolve Path.sep Posix.lib] in Hup.
  rewrite resolve_absolute_path in Hup by done.
  change ((Posix.SLASH :: join_with [Posix.SLASH] rootSegs) ++ [Posix.SLASH])
    with (Posix.SLASH :: join_with [Posix.SLASH] rootSegs ++ [Posix.SLASH]) in Hup.
  rewrite normalize_clean_slash, with_trailing_slash_absolute in Hup by done.
  by rewrite str_eqb_refl in Hup.
Qed.

(** The lookups of [statFiles] stay at or below the root. *)
Lemma stat_path_below (extra : list jsstring) (trailing showUp : bool)
    (names : list jsstring) (i : nat) :
  Forall clean_segment extra ->
  Forall clean_segment names ->
  (showUp = true -> extra <> []) ->
  (i < length (if showUp then DOTDOT :: names else names))%nat ->
  at_or_below rootSegs
    (stat_path self (absolute_path (rootSegs ++ extra) trailing)
       (if showUp then DOTDOT :: names else names) i).
Proof.
  intros Hextra Hnames Hup Hi. unfold stat_path. rewrite Hlib.
  cbn [Path.join Posix.lib].
  assert (Hname : forall name, name ∈ names ->
            at_or_below rootSegs
              (Posix.join [absolute_path (rootSegs ++ extra) trailing; name])).
  { intros name Hin. rewrite Forall_forall in Hnames.
    destruct (join_absolute_name (rootSegs ++ extra) trailing name) as [t E];
      [by apply Forall_app | by apply Hnames |].
    exists (extra ++ [name]), t. split.
    - apply Forall_app. split; [done|]. constructor; [by apply Hnames | constructor].
    - by rewrite E, app_assoc. }
  apply lookup_lt_is_Some_2 in Hi as [name Hi]. rewrite Hi. cbn [default].
  destruct showUp; [|by apply Hname, (list_elem_of_lookup_2 _ i)].
  destruct i as [|i]; [|by apply Hname, (list_elem_of_lookup_2 _ i)].
  injection Hi as <-. specialize (Hup eq_refl).
  destruct extra as [|last extra _] using rev_ind; [done|].
  change DOTDOT with [Posix.DOT; Posix.DOT].
  destruct (join_absolute_parent (rootSegs ++ extra) last trailing) as [t E].
  { rewrite <- app_assoc. by apply Forall_app. }
  exists extra, t. split; [by apply Forall_app in Hextra as [? _]|].
  rewrite (app_assoc rootSegs extra [last]). exact E.
Qed.

Lemma serve_below_root (req : Request) (sched : list nat) :
  (forall p names, readdir (ServeIndex.filesystem self) p = inr names ->
     Forall clean_segment names) ->
  logs_within (call_below rootSegs) (serve self no_overrides req sched).
Proof.
  intros Hreaddir.
  assert (P_fs : forall op, call_below rootSegs (via_fs, op)) by (by intros op Hfs).
  unfold serve. destruct (_ && _); [apply lw_ret|].
  apply lw_bind; [apply lw_uri|]. intros dir.
  apply lw_bind; [apply lw_uri|]. intros originalDir.
  destruct (resolved_path_normal dir) as (segs & trailing & Hsegs & ->).
  destruct (negb (Z.eqb _ 0)); [apply lw_ret|].
  destruct (outside_root _ _) eqn:Hguard; [apply lw_ret|].
  destruct (inside_root_extra segs trailing Hsegs Hguard) as (extra & -> & Hextra).
  assert (Hhere : at_or_below rootSegs (absolute_path (rootSegs ++ extra) trailing))
    by (by exists extra, trailing).
  apply lw_bind; [apply lw_log_call; intros _; exact Hhere|]. intros _.
  destruct (stat _ _) as [err|st].
  - destruct (code_is _ _); apply lw_ret.
  - destruct (negb _); [apply lw_ret|].
    apply lw_bind; [apply lw_log_call; intros _; exact Hhere|]. intros _.
    destruct (readdir _ _) as [err|names] eqn:Hnames; [apply lw_ret|].
    destruct (accepts_type _ _); [|apply lw_ret].
    destruct (mediaType _) as [media|]; [|apply lw_throw].
    unfold handler. destruct media; cbn [override no_overrides serveIndex_html
      serveIndex_plain serveIndex_json]; [|apply lw_ret..].
    apply lw_html; [done|]. cbn [h_showUp h_files h_path]. intros i Hi _.
    cbn [snd op_path]. apply stat_path_below; [done| |by apply show_up_below|done].
    apply Forall_forall. intros name Hin.
    rewrite (listed_perm self names) in Hin. apply visible_subset in Hin.
    specialize (Hreaddir _ _ Hnames). rewrite Forall_forall in Hreaddir.
    by apply Hreaddir.
Qed.
End BelowRoot.

(** X18.  With [path.posix], in a process whose working directory is
    absolute, and a filesystem whose [readdir] gives plain names -- not
    empty, not [.] or [..], without a slash -- every call [serve] makes
    through the configured filesystem with the built-in handlers, the
    [stat] of the parent entry included, is made with a normalized absolute
    path of the directory the root resolves to or of something below it,
    whatever the request. *)
Theorem serve_stays_below_root `{Host} (cwd root : jsstring) (opts : Options)
    (self : ServeIndex.t) :
  Posix.starts_with_slash cwd = true ->
  opts_path opts = Some (Posix.lib cwd) ->
  new_ServeIndex root opts = inr self ->
  (forall p names, readdir (ServeIndex.filesystem self) p = inr names ->
     Forall clean_segment names) ->
  exists rootSegs,
    Forall clean_segment rootSegs
    /\ Posix.resolve cwd [root] = absolute_path rootSegs false
    /\ forall req sched w,
         exists new,
           fs_log (serve self no_overrides req sched w).2 = fs_log w ++ new
           /\ Forall (fun c => c.1 = via_filesystem ->
                               at_or_below rootSegs (op_path c.2)) new.
Proof.
  intros Hcwd Hopts Hnew Hreaddir.
  destruct (resolve_clean cwd root Hcwd) as (rootSegs & Hclean & Hres).
  exists rootSegs. split; [done|]. split.
  { rewrite Hres. unfold absolute_path. destruct rootSegs; [done|].
    by rewrite app_nil_r. }
  unfold new_ServeIndex in Hnew. destruct (Posix.is_empty root); [done|].
  injection Hnew as <-. intros req sched w.
  apply (serve_below_root cwd _ rootSegs); [| |done|done];
    cbn [ServeIndex.pathLib ServeIndex.rootPath]; rewrite Hopts;
    cbn [default]; unfold id;
    cbn [Posix.lib Path.normalize Path.resolve Path.sep]; [done|].
  rewrite Hres.
  change ((Posix.SLASH :: join_with [Posix.SLASH] rootSegs) ++ [Posix.SLASH])
    with (Posix.SLASH :: join_with [Posix.SLASH] rootSegs ++ [Posix.SLASH]).
  by rewrite normalize_clean_slash, with_trailing_slash_absolute.
Qed.

(** A listing of [/b] as HTML: the lookup of the parent entry is the
    lookup of the root. *)
Lemma serve_stays_below_root_witness :
  exists rootSegs new,
    Posix.resolve (js "/app") [js "/srv/www"] = absolute_path rootSegs false
    /\ fs_log (serve (H := Example.host) Example.instance no_overrides
                 (Example.get (js "/b") (js "text/html")) [] Example.world0).2
       = new
    /\ (via_filesystem, op_stat (js "/srv/www")) ∈ new
    /\ Forall (fun c => c.1 = via_filesystem -> at_or_below rootSegs (op_path c.2)) new.
Proof.
  pose (opts := {| opts_path := Some (Posix.lib (js "/app")); opts_filter := None;
                   opts_hidden := false; opts_icons := false;
                   opts_stylesheet := None; opts_template := None;
                   opts_view := None; opts_fs := Some Example.www |}).
  destruct (serve_stays_below_root (H := Example.host) (js "/app") (js "/srv/www")
              opts Example.instance) as (rootSegs & _ & Hres & Hlog);
    [reflexivity | reflexivity | reflexivity | |].
  - intros p names. cbn [ServeIndex.filesystem Example.instance].
    unfold Example.www, Example.disk_of. cbn [readdir list_find fst snd fmap option_fmap
      option_map].
    repeat (destruct (str_eqb _ _); cbn [fmap option_fmap option_map snd]);
      intros [= <-];
      repeat (constructor; [repeat split; by try (apply (bool_decide_unpack _); vm_compute)|]);
      constructor.
  - destruct (Hlog (Example.get (js "/b") (js "text/html")) [] Example.world0)
      as (new & E & Hall).
    exists rootSegs, new. split; [exact Hres|]. split; [exact E|]. split; [|exact Hall].
    assert (Hin : (via_filesystem, op_stat (js "/srv/www"))
                  ∈ fs_log (serve (H := Example.host) Example.instance no_overrides
                              (Example.get (js "/b") (js "text/html")) []
                              Example.world0).2).
    { apply (list_elem_of_lookup_2 _ 2). vm_compute. reflexivity. }
    rewrite E in Hin. exact Hin.
Defined.

Section CleanRequests.
Import Posix.



End CleanRequests.

Section CleanRequestPaths.
Context (cwd : jsstring) (self : ServeIndex.t) (rootSegs : list jsstring).
Hypothesis Hlib : ServeIndex.pathLib self = Posix.lib cwd.
Hypothesis Hroot : ServeIndex.rootPath self = absolute_path rootSegs true.
Hypothesis Hclean : Forall clean_segment rootSegs.



End CleanRequestPaths.


